(** * Pire: the FSM determination and minimization routines (determine.h)

    A shallow embedding of [Pire::Impl::Determine] and [Pire::Impl::Minimize]
    together with the properties of their driver loops.

    Conventions.
    - [size_t] values (state indices, the [maxSize] budget, class indices)
      are [nat].  The only arithmetic the routines perform on them is the
      post-decrement [maxSize--], which is guarded by the test for zero, and
      the table offset [state * MaxChar + letter], which is bounded by the
      size of an allocated vector; no wrap-around is observable.
    - [Char] is the library's integer symbol type; only its values matter.
    - A [TVector] is a [list]; [v[i] = x] is stdpp's [<[i:=x]> v] and [v[i]]
      is [v !!! i].  Out of range the C++ is undefined, the list operations
      leave the vector alone resp. return the default; the theorems say
      where the indices are in range.
    - A task's sinks ([AcceptStates], [Connect], [AcceptPartition]) are
      recorded as a trace of events, in call order. *)

From stdpp Require Import base option list gmap.

Definition Char := nat.

(** What iterating a [Partition<T, Eq>] yields, in iteration order: entries
    [(representative, (classIndex, members))], read in the source as
    [letter.first], [letter.second.first] and [letters.second.second]. *)
Abbreviation Partition T := (list (T * (nat * list T))).

Abbreviation LettersTbl := (Partition Char).

(** [Task::Result] with its two constructors [Success()] and [Failure()]. *)
Inductive Result := Success | Failure.

(** ** Determine *)

Module DetermineTask.
(** The determination task interface, without its sinks. *)
Record t (State : Type) := Build {
  Letters : LettersTbl;
  Initial : State;
  Next : State → Char → State;
  IsRequired : State → bool;
}.
Arguments Build {State}.
Arguments Letters {State}.
Arguments Initial {State}.
Arguments Next {State}.
Arguments IsRequired {State}.
End DetermineTask.

(** Sink calls of a determination task. *)
Inductive DetermineEvent (State : Type) :=
  | AcceptStates (newstates : list State)
  | Connect (from to : nat) (letter : Char).
Arguments AcceptStates {State}.
Arguments Connect {State}.

(** The local tables of [Determine], with the remaining budget. *)
Record Tables (State : Type) `{Countable State} := MkTables {
  states : list State;
  invstates : gmap State nat;
  transitions : list (list nat);
  stateIndices : list nat;
  maxSize : nat;
}.
Arguments MkTables {State _ _}.
Arguments states {State _ _}.
Arguments invstates {State _ _}.
Arguments transitions {State _ _}.
Arguments stateIndices {State _ _}.
Arguments maxSize {State _ _}.

(** How a loop of the model ends: normally; by giving up ([return
    task.Failure()] in [Determine], a failed [Y_ASSERT] in [Minimize]); or
    because the fuel of the model ran out, which the termination theorems
    exclude. *)
Inductive Outcome (A : Type) :=
  | Done (a : A)
  | Failed
  | OutOfFuel.
Arguments Done {A}.
Arguments Failed {A}.
Arguments OutOfFuel {A}.

Section Determine.
Context {State : Type} `{Countable State}.
Variable task : DetermineTask.t State.

Import DetermineTask.

(** [states.push_back(newState)] with the matching [invstates.insert],
    paid for by one unit of budget. *)
Definition push_state (newState : State) (budget : nat) (w : Tables State)
  : Tables State :=
  MkTables (states w ++ [newState])
           (<[newState := length (states w)]> (invstates w))
           (transitions w) (stateIndices w) budget.

(** The inner loop [for (auto&& letter : task.Letters())] for the state
    [cur = states[stateIdx]] (which [push_back] never changes).  [None] is
    the early [return task.Failure()]. *)
Fixpoint Determine_row (cur : State) (letters : LettersTbl)
    (w : Tables State) (row : list nat) : option (Tables State * list nat) :=
  match letters with
  | [] => Some (w, row)
  | (letter, (cidx, _)) :: rest =>
      let newState := Next task cur letter in
      match invstates w !! newState with
      | Some i => Determine_row cur rest w (<[cidx := i]> row)
      | None =>
          match maxSize w with
          | 0 => None
          | S budget =>
              Determine_row cur rest (push_state newState budget w)
                            (<[cidx := length (states w)]> row)
          end
      end
  end.

(** [transitions.push_back(row); stateIndices.push_back(stateIdx)]. *)
Definition push_row (row : list nat) (stateIdx : nat) (w : Tables State)
  : Tables State :=
  MkTables (states w) (invstates w)
           (transitions w ++ [row]) (stateIndices w ++ [stateIdx])
           (maxSize w).

(** The outer loop [for (stateIdx = 0; stateIdx < states.size(); ++stateIdx)]. *)
Fixpoint Determine_bfs (fuel : nat) (stateIdx : nat) (w : Tables State)
  : Outcome (Tables State) :=
  match fuel with
  | 0 => OutOfFuel
  | S fuel' =>
      match states w !! stateIdx with
      | None => Done w
      | Some cur =>
          if negb (IsRequired task cur) then
            Determine_bfs fuel' (S stateIdx) w
          else
            match Determine_row cur (Letters task) w
                    (replicate (length (Letters task)) 0) with
            | None => Failed
            | Some (w', row) =>
                Determine_bfs fuel' (S stateIdx) (push_row row stateIdx w')
            end
      end
  end.

(** [invletters[letter.second.first] = letter.first] for every class. *)
Definition invletters : list Char :=
  foldl (λ inv letter, <[letter.2.1 := letter.1]> inv)
        (replicate (length (Letters task)) 0) (Letters task).

(** The [Connect] calls of one row, [j] and [l] advancing together. *)
Definition Connect_row (w : Tables State) (from : nat) (row : list nat)
  : list (DetermineEvent State) :=
  zip_with (λ j l, Connect (stateIndices w !!! from) j l) row invletters.

(** [task.AcceptStates(states)] and then the [Connect] loop over
    [transitions], [from] counting the rows. *)
Definition Determine_emit (w : Tables State) : list (DetermineEvent State) :=
  AcceptStates (states w) :: mjoin (imap (Connect_row w) (transitions w)).

Definition Determine_init (budget : nat) : Tables State :=
  MkTables [Initial task] {[Initial task := 0]} [] [] budget.

(** [Determine(task, maxSize)], [budget] being [maxSize]: the result and
    the trace of sink calls.  Every pass of the outer loop either moves
    [stateIdx] past a state that was paid for or is the last one, so
    [maxSize + 2] passes always suffice (see [Determine_total]). *)
Definition Determine (budget : nat)
  : option (Result * list (DetermineEvent State)) :=
  match Determine_bfs (budget + 2) 0 (Determine_init budget) with
  | Done w => Some (Success, Determine_emit w)
  | Failed => Some (Failure, [])
  | OutOfFuel => None
  end.

End Determine.

(** *** The scenarios of the interface description, run on the model *)

Module Scenarios.
Import DetermineTask.

(** One class holding every symbol needed, a single self-looping state. *)
Definition identity : DetermineTask.t nat :=
  Build [(0, (0, [0; 1; 2]))] 0 (λ _ _, 0) (λ _, true).

(** Chain [0 → 1 → 2 → 2] under a single class. *)
Definition chain : DetermineTask.t nat :=
  Build [(0, (0, [0]))] 0 (λ s _, Nat.min 2 (S s)) (λ _, true).

(** Subset construction over [q0 --a--> {q0,q1}], [q1 --a--> ∅],
    [q0 --b--> q0]; subsets are bit masks, [a] is 97 and [b] is 98. *)
Definition subsets : DetermineTask.t nat :=
  Build [(97, (0, [97])); (98, (1, [98]))] 1
        (λ s c, if decide (c = 97) then (if Nat.odd s then 3 else 0)
                else (if Nat.odd s then 1 else 0))
        (λ _, true).

(** Three states [0 → 1 → 2 → 0] (and [0 → 2 → 1 → 0] on the second
    symbol); state [1] is not required, which leaves a gap in front of the
    row of state [2]. *)
Definition pruned : DetermineTask.t nat :=
  Build [(0, (0, [0])); (1, (1, [1]))] 0
        (λ s c, if decide (c = 0) then (s + 1) `mod` 3 else (s + 2) `mod` 3)
        (λ s, negb (Nat.eqb s 1)).

(** An initial state that is not required. *)
Definition idle : DetermineTask.t nat :=
  Build [(0, (0, [0]))] 7 (λ s _, S s) (λ _, false).

(** The subset construction again, the classes iterated in the order
    [a], [b] but indexed the other way round. *)
Definition swapped : DetermineTask.t nat :=
  Build [(97, (1, [97])); (98, (0, [98]))] 1
        (λ s c, if decide (c = 97) then (if Nat.odd s then 3 else 0)
                else (if Nat.odd s then 1 else 0))
        (λ _, true).
End Scenarios.

(** *** Specification-level notions for [Determine] *)

Section DetermineSpec.
Context {State : Type} `{Countable State}.
Variable task : DetermineTask.t State.
Import DetermineTask.

(** The states the traversal can meet: the initial one, and the successors
    of required states under the representative of some class. *)
Inductive reach : State → Prop :=
  | reach_initial : reach (Initial task)
  | reach_next s letter cls :
      reach s → IsRequired task s = true →
      (letter, cls) ∈ Letters task →
      reach (Next task s letter).

(** The class indices of the alphabet partition are dense:
    a rearrangement of [0 .. K-1]. *)
Definition LettersOK : Prop :=
  (λ e : Char * (nat * list Char), e.2.1) <$> Letters task
  ≡ₚ seq 0 (length (Letters task)).

(** The representative symbol of the class with index [c]. *)
Definition class_rep (c : nat) : Char :=
  from_option fst 0
    (find (λ e : Char * (nat * list Char), bool_decide (e.2.1 = c))
          (Letters task)).

(** The position of a state in a vector of states. *)
Definition index_of (sts : list State) (s : State) : nat :=
  from_option fst 0 (list_find (λ x, x = s) sts).

(** [IsRequired(sts[i])]. *)
Definition required_at (sts : list State) (i : nat) : bool :=
  from_option (IsRequired task) false (sts !! i).

(** The [Connect] calls owed to the state with index [i]: none if it is
    not required, else one per class index, ascending. *)
Definition connects_of (sts : list State) (i : nat)
  : list (DetermineEvent State) :=
  match sts !! i with
  | Some s =>
      if IsRequired task s then
        (λ c, Connect i (index_of sts (Next task s (class_rep c)))
                      (class_rep c))
          <$> seq 0 (length (Letters task))
      else []
  | None => []
  end.

(** The whole trace of a successful drive over the states [sts]. *)
Definition expected_trace (sts : list State) : list (DetermineEvent State) :=
  AcceptStates sts :: (seq 0 (length sts) ≫= connects_of sts).

(** The from-indices of the [Connect] calls of a trace, in call order. *)
Definition connect_from (e : DetermineEvent State) : option nat :=
  match e with
  | Connect from _ _ => Some from
  | AcceptStates _ => None
  end.

Definition from_indices (tr : list (DetermineEvent State)) : list nat :=
  omap connect_from tr.

(** The edges announced by the [Connect] calls of a trace. *)
Definition edge (tr : list (DetermineEvent State)) (i j : nat) : Prop :=
  ∃ letter, Connect i j letter ∈ tr.

(** Indices reachable from index 0 along such edges. *)
Inductive reach_idx (tr : list (DetermineEvent State)) : nat → Prop :=
  | reach_idx_0 : reach_idx tr 0
  | reach_idx_step i j : reach_idx tr i → edge tr i j → reach_idx tr j.

(** Invariants of the tables that hold at every point of the traversal
    started with budget [budget0]. *)
Record Core (budget0 : nat) (w : Tables State) : Prop := MkCore {
  core_initial : states w !! 0 = Some (Initial task);
  core_nodup : NoDup (states w);
  core_inv : ∀ s i, invstates w !! s = Some i ↔ states w !! i = Some s;
  core_budget : length (states w) + maxSize w = S budget0;
  core_reach : ∀ s, s ∈ states w → reach s;
  core_parent : ∀ j s', states w !! j = Some s' →
      j = 0 ∨ ∃ i s letter cls,
        i < j ∧ states w !! i = Some s ∧ IsRequired task s = true ∧
        (letter, cls) ∈ Letters task ∧ Next task s letter = s';
}.

(** What a finished row for the state with index [i] looks like. *)
Definition RowOK (w : Tables State) (i : nat) (row : list nat) : Prop :=
  ∃ s, states w !! i = Some s ∧ IsRequired task s = true ∧
       length row = length (Letters task) ∧
       (∀ j, j ∈ row → j < length (states w)) ∧
       (LettersOK → ∀ e, e ∈ Letters task →
          ∃ j, row !! e.2.1 = Some j ∧
               states w !! j = Some (Next task s e.1)).

(** Invariant of the outer loop at the test of [stateIdx]. *)
Record Outer (budget0 : nat) (stateIdx : nat) (w : Tables State) : Prop :=
  MkOuter {
  outer_core : Core budget0 w;
  outer_idx : stateIdx ≤ length (states w);
  outer_indices :
    stateIndices w = filter (λ i, required_at (states w) i = true)
                            (seq 0 stateIdx);
  outer_length : length (transitions w) = length (stateIndices w);
  outer_rows : ∀ k i row, stateIndices w !! k = Some i →
      transitions w !! k = Some row → RowOK w i row;
  outer_closed : ∀ i s e, i < stateIdx → states w !! i = Some s →
      IsRequired task s = true → e ∈ Letters task →
      Next task s e.1 ∈ states w;
}.

(** Invariant of the inner loop for the state [cur] with index [stateIdx],
    before the letters [rest] are processed; [w0] are the tables at its
    start. *)
Record Inner (budget0 stateIdx : nat) (cur : State) (w0 : Tables State)
    (rest : LettersTbl) (w : Tables State) (row : list nat) : Prop :=
  MkInner {
  inner_core : Core budget0 w;
  inner_split : ∃ seen, Letters task = seen ++ rest ∧
      (∀ e, e ∈ seen → Next task cur e.1 ∈ states w) ∧
      (LettersOK → ∀ e, e ∈ seen →
          ∃ j, row !! e.2.1 = Some j ∧
               states w !! j = Some (Next task cur e.1));
  inner_cur : states w !! stateIdx = Some cur;
  inner_prefix : states w0 `prefix_of` states w;
  inner_transitions : transitions w = transitions w0;
  inner_indices : stateIndices w = stateIndices w0;
  inner_length : length row = length (Letters task);
  inner_bound : ∀ j, j ∈ row → j < length (states w);
}.

(** The same tables with [d] more units of budget. *)
Definition add_budget (d : nat) (w : Tables State) : Tables State :=
  MkTables (states w) (invstates w) (transitions w) (stateIndices w)
           (maxSize w + d).

End DetermineSpec.

(** ** Partition<T, Eq> *)

Section PartitionOps.
Context {T : Type} `{EqDecision T, Inhabited T}.

(** Modelled from the spec: the operations of [Partition<T, Eq>], whose
    header partition.h is not among the sources.  A partition is kept as
    the list of its classes [(representative, (classIndex, members))] in
    iteration order; the predicate a C++ partition carries is passed to the
    operation that uses it.  [Append(x)]: "insert x; if Eq(x, y) holds for
    some existing y, merge into y's class; else start a new class"; the new
    class gets the next class index and [x] as its representative. *)
Fixpoint Append_from (idx : nat) (Eq : T → T → bool) (x : T)
    (p : Partition T) : Partition T :=
  match p with
  | [] => [(x, (idx, [x]))]
  | c :: p' =>
      if existsb (Eq x) c.2.2 then (c.1, (c.2.1, c.2.2 ++ [x])) :: p'
      else c :: Append_from (S idx) Eq x p'
  end.

(** Modelled from the spec: [Append(x)] on a partition whose classes are
    indexed from 0. *)
Definition Append (Eq : T → T → bool) (x : T) (p : Partition T)
  : Partition T :=
  Append_from 0 Eq x p.

(** Modelled from the spec: one class re-partitioned under a predicate,
    its members appended one by one to an empty partition. *)
Definition regroup (Eq : T → T → bool) (members : list T) : Partition T :=
  foldl (λ p x, Append Eq x p) [] members.

(** Modelled from the spec: class indices "are dense in [0, K)"; after a
    split they are assigned afresh, in iteration order. *)
Definition reindex (p : Partition T) : Partition T :=
  imap (λ i c, (c.1, (i, c.2.2))) p.

(** Modelled from the spec: [Split(newEq)]: "for each current class,
    re-partition its members under newEq". *)
Definition Split (newEq : T → T → bool) (p : Partition T) : Partition T :=
  reindex (p ≫= λ c, regroup newEq c.2.2).

(** Modelled from the spec: [Representative(x)]: "returns a canonical
    member of x's class"; for an [x] that was never appended the spec is
    silent and the model returns the default value of [T]. *)
Definition Representative (p : Partition T) (x : T) : T :=
  from_option fst inhabitant
    (find (λ c : T * (nat * list T), bool_decide (x ∈ c.2.2)) p).

(** All members, class after class. *)
Definition members (p : Partition T) : list T := p ≫= λ c, c.2.2.

(** Two elements lie in one class of the partition. *)
Definition SameClass (p : Partition T) (a b : T) : Prop :=
  ∃ c, c ∈ p ∧ a ∈ c.2.2 ∧ b ∈ c.2.2.

(** Every class starts with its representative and carries its position
    as class index. *)
Definition PartWF (p : Partition T) : Prop :=
  Forall (λ c : T * (nat * list T), head c.2.2 = Some c.1) p ∧
  (λ c : T * (nat * list T), c.2.1) <$> p = seq 0 (length p).

(** [Eq] is an equivalence relation on the elements satisfying [D]. *)
Definition EquivOn (D : T → Prop) (Eq : T → T → bool) : Prop :=
  (∀ a, D a → Eq a a = true) ∧
  (∀ a b, D a → D b → Eq a b = true → Eq b a = true) ∧
  (∀ a b c, D a → D b → D c →
     Eq a b = true → Eq b c = true → Eq a c = true).

(** The members of each class are pairwise related by [Eq]. *)
Definition ClassesBy (Eq : T → T → bool) (p : Partition T) : Prop :=
  ∀ c a b, c ∈ p → a ∈ c.2.2 → b ∈ c.2.2 → Eq a b = true.

(** [q] refines [p]: every class of [q] lies within a class of [p]. *)
Definition Refines (q p : Partition T) : Prop :=
  ∀ c, c ∈ q → ∃ c', c' ∈ p ∧ c.2.2 ⊆ c'.2.2.

End PartitionOps.

(** ** Minimize *)

Module MinimizeTask.
(** The minimization task interface, without its sink. *)
Record t := Build {
  IsDetermined : bool;
  Size : nat;
  Letters : LettersTbl;
  Next : nat → Char → nat;
  SameClasses : nat → nat → bool;
}.
End MinimizeTask.

(** Sink calls of a minimization task. *)
Inductive MinimizeEvent :=
  | AcceptPartition (p : Partition nat).

Section Minimize.
(** The size of the full alphabet, a constant of the library that
    determine.h only uses. *)
Variable MaxChar : nat.

Import MinimizeTask.

(** [MinimizeEquality::Next]. *)
Definition MinimizeEquality_Next (m_tbl : list nat) (state : nat)
    (letter : Char) : nat :=
  m_tbl !!! (state * MaxChar + letter).

(** [MinimizeEquality::operator()]; a null [m_prev] or [m_task] is [None]. *)
Definition MinimizeEquality (m_tbl : list nat) (m_letters : list Char)
    (m_prev : option (list nat)) (m_task : option MinimizeTask.t)
    (a b : nat) : bool :=
  if from_option (λ task, negb (SameClasses task a b)) false m_task
  then false
  else
    match m_prev with
    | Some prev =>
        if bool_decide (prev !!! a ≠ prev !!! b) then false
        else
          forallb (λ letter,
                     bool_decide
                       (prev !!! MinimizeEquality_Next m_tbl a letter
                        = prev !!! MinimizeEquality_Next m_tbl b letter))
                  m_letters
    | None => true
    end.

(** [UpdateStateClassMap]: the new map and whether it changed; [None] is
    the failed [Y_ASSERT(!clMap.empty())]. *)
Definition UpdateStateClassMap (clMap : list nat)
    (stPartition : Partition nat) : option (bool * list nat) :=
  if bool_decide (clMap = []) then None
  else
    Some (foldl
            (λ (acc : bool * list nat) st,
               let cl := Representative stPartition st in
               if bool_decide (acc.2 !!! st ≠ cl)
               then (true, <[st := cl]> acc.2)
               else acc)
            (false, clMap) (seq 0 (length clMap))).

Section Task.
Variable task : MinimizeTask.t.

(** [detTran[from * MaxChar + letter] = next] for the members of one
    class. *)
Definition fill_members (from next : nat) (letters : list Char)
    (detTran : list nat) : list nat :=
  foldl (λ tbl letter, <[from * MaxChar + letter := next]> tbl)
        detTran letters.

(** The body of [for (auto&& letters : task.Letters())]. *)
Definition fill_class (letters : Char * (nat * list Char))
    (detTran : list nat) : list nat :=
  foldl (λ tbl from,
           fill_members from (Next task from letters.1) letters.2.2 tbl)
        detTran (seq 0 (Size task)).

Definition detTran : list nat :=
  foldl (λ tbl letters, fill_class letters tbl)
        (replicate (Size task * MaxChar) 0) (Letters task).

Definition distinctLetters : list Char := (Letters task).*1.

(** The initial partition: every state appended under the predicate
    that only consults the task. *)
Definition initial_partition : Partition nat :=
  foldl (λ last state,
           Append (MinimizeEquality detTran distinctLetters None
                                    (Some task)) state last)
        [] (seq 0 (Size task)).

(** [while (UpdateStateClassMap(stateClassMap, last)) last.Split(...)],
    counting the rounds.  The predicate handed to [Split] points to
    [stateClassMap] as [UpdateStateClassMap] has just left it. *)
Fixpoint Minimize_loop (fuel : nat) (stateClassMap : list nat)
    (last : Partition nat) (rounds : nat)
  : Outcome (Partition nat * nat) :=
  match fuel with
  | 0 => OutOfFuel
  | S fuel' =>
      match UpdateStateClassMap stateClassMap last with
      | None => Failed
      | Some (true, clMap) =>
          Minimize_loop fuel' clMap
            (Split (MinimizeEquality detTran distinctLetters
                                     (Some clMap) None) last)
            (S rounds)
      | Some (false, _) => Done (last, rounds)
      end
  end.

(** [Minimize(task)]: the result and the trace of sink calls, or
    [Failed] for a failed assertion, or [OutOfFuel]. *)
Definition Minimize (fuel : nat) : Outcome (Result * list MinimizeEvent) :=
  if negb (IsDetermined task) then Done (Failure, [])
  else
    match Minimize_loop fuel (replicate (Size task) 0)
                        initial_partition 0 with
    | Done (last, _) => Done (Success, [AcceptPartition last])
    | Failed => Failed
    | OutOfFuel => OutOfFuel
    end.

End Task.
End Minimize.

Module MinScenarios.
Import MinimizeTask.

(** Four states over [a = 0], [b = 1], full alphabet of size 2; states 0
    and 1 accept, 2 and 3 do not, and each pair behaves alike. *)
Definition ends_in_a : MinimizeTask.t :=
  Build true 4 [(0, (0, [0])); (1, (1, [1]))]
        (λ s c, if decide (c = 0) then (if decide (s < 2) then 0 else 1)
                else (if decide (s < 2) then 2 else 3))
        (λ a b, bool_decide (bool_decide (a < 2) = bool_decide (b < 2))).

(** A chain [0 → 1 → 2 → 3 → 3] over one symbol, only state 3 accepting:
    no two states are equivalent. *)
Definition countdown : MinimizeTask.t :=
  Build true 4 [(0, (0, [0]))] (λ s _, Nat.min 3 (S s))
        (λ a b, bool_decide (bool_decide (a = 3) = bool_decide (b = 3))).

Definition not_determined : MinimizeTask.t :=
  Build false 4 [(0, (0, [0]))] (λ s _, s) (λ _ _, true).
End MinScenarios.

(** *** Specification-level notions for [Minimize] *)

Section MinimizeSpec.
Variable MaxChar : nat.
Variable task : MinimizeTask.t.
Import MinimizeTask.

(** The alphabet partition is one: every class holds its representative,
    no symbol occurs twice, and all symbols are below [MaxChar]. *)
Definition AlphabetOK : Prop :=
  (∀ e, e ∈ Letters task → e.1 ∈ e.2.2) ∧
  NoDup (members (Letters task)) ∧
  (∀ letter, letter ∈ members (Letters task) → letter < MaxChar).

(** [Next] stays within the states of the automaton. *)
Definition NextClosed : Prop :=
  ∀ from e, from < Size task → e ∈ Letters task →
    Next task from e.1 < Size task.

(** [SameClasses] is an equivalence relation on the states. *)
Definition SameClassesEquiv : Prop :=
  EquivOn (λ a, a < Size task) (SameClasses task).

(** What the refinement loop maintains: the partition covers exactly the
    states, each once, and its classes are well formed. *)
Definition PartInv (p : Partition nat) : Prop :=
  PartWF p ∧ members p ≡ₚ seq 0 (Size task).

(** The class map a partition induces. *)
Definition class_map (p : Partition nat) : list nat :=
  Representative p <$> seq 0 (Size task).

(** What holds of the map and the partition whenever the loop tests its
    condition. *)
Definition LoopInv (clMap : list nat) (last : Partition nat) : Prop :=
  PartInv last ∧ length clMap = Size task ∧
  ClassesBy (SameClasses task) last ∧
  (clMap = replicate (Size task) 0 ∨
   ClassesBy (MinimizeEquality MaxChar (detTran MaxChar task)
                               (distinctLetters task) (Some clMap) None)
             last).

End MinimizeSpec.

Section PartitionJoin.
Context {T : Type} `{EqDecision T, Inhabited T}.

(** Members related by [Eq] share a class. *)
Definition JoinsBy (Eq : T → T → bool) (p : Partition T) : Prop :=
  ∀ a b, a ∈ members p → b ∈ members p → Eq a b = true → SameClass p a b.

End PartitionJoin.

(** *** Distances from the initial state *)

Section DetermineDepth.
Context {State : Type} `{Countable State}.
Variable task : DetermineTask.t State.
Import DetermineTask.

(** [within n s]: the state [s] is met after at most [n] steps from the
    initial state, each step leaving a required state under the
    representative of a class. *)
Inductive within : nat → State → Prop :=
  | within_initial n : within n (Initial task)
  | within_step n s letter cls :
      within n s → IsRequired task s = true →
      (letter, cls) ∈ Letters task →
      within (S n) (Next task s letter).

(** [ds] lists the distances of the states [sts] while the traversal is at
    index [idx]: each entry is the least number of steps to its state, the
    entries ascend, every state within the distance of the state at [idx]
    is listed, and no listed state is more than one step further. *)
Definition Depths (idx : nat) (sts : list State) (ds : list nat) : Prop :=
  length ds = length sts ∧
  (∀ j s d, sts !! j = Some s → ds !! j = Some d →
     within d s ∧ ∀ n, within n s → d ≤ n) ∧
  (∀ i j di dj, i ≤ j → ds !! i = Some di → ds !! j = Some dj → di ≤ dj) ∧
  (∀ d, ds !! idx = Some d →
     (∀ s m, within m s → m ≤ d → s ∈ sts) ∧
     (∀ j dj, ds !! j = Some dj → dj ≤ S d)).

End DetermineDepth.

Module DetScenarios.
Import DetermineTask.

(** The subset construction of [Scenarios.subsets] with larger classes and
    a [Next] that differs away from the representatives. *)
Definition subsets_wide : DetermineTask.t nat :=
  Build [(97, (0, [97; 65])); (98, (1, [98; 66; 67]))] 1
        (λ s c, if decide (c = 97) then (if Nat.odd s then 3 else 0)
                else if decide (c = 98) then (if Nat.odd s then 1 else 0)
                else 42)
        (λ _, true).
End DetScenarios.

Module MoreScenarios.
Import MinimizeTask.

(** Three states that the task does not tell apart, on a cycle. *)
Definition all_alike : MinimizeTask.t :=
  Build true 3 [(0, (0, [0; 1]))] (λ s _, (s + 1) `mod` 3) (λ _ _, true).

(** A determined automaton without states. *)
Definition no_states : MinimizeTask.t :=
  Build true 0 [(0, (0, [0]))] (λ s _, s) (λ _ _, true).

(** [MinScenarios.ends_in_a] with other class indices, and with [Next] and
    [SameClasses] changed outside the states and the representatives. *)
Definition ends_in_a_variant : MinimizeTask.t :=
  Build true 4 [(0, (7, [0])); (1, (3, [1]))]
        (λ s c, if decide (s < 4 ∧ c < 2)
                then Next MinScenarios.ends_in_a s c else 99)
        (λ a b, if decide (a < 4 ∧ b < 4)
                then SameClasses MinScenarios.ends_in_a a b else false).
End MoreScenarios.

(** *** Words: running a task and an emitted table *)

Section DetermineWords.
Context {State : Type} `{Countable State}.
Variable task : DetermineTask.t State.
Import DetermineTask.

(** The state the task reaches from [s] along a word of symbols. *)
Fixpoint task_run (s : State) (w : list Char) : State :=
  match w with
  | [] => s
  | letter :: w' => task_run (Next task s letter) w'
  end.

(** Along the word every state that is left is required and every symbol
    is the representative of a class. *)
Fixpoint path_ok (s : State) (w : list Char) : Prop :=
  match w with
  | [] => True
  | letter :: w' =>
      IsRequired task s = true ∧ letter ∈ (Letters task).*1 ∧
      path_ok (Next task s letter) w'
  end.

(** The to-index of the first [Connect(i, _, letter)] call of a trace. *)
Definition trace_step (tr : list (DetermineEvent State)) (i : nat)
    (letter : Char) : option nat :=
  head (omap (λ e, match e with
                   | Connect from to l =>
                       if decide (from = i ∧ l = letter) then Some to
                       else None
                   | AcceptStates _ => None
                   end) tr).

(** The index reached from [i] along a word in the table a trace announces. *)
Fixpoint trace_run (tr : list (DetermineEvent State)) (i : nat)
    (w : list Char) : option nat :=
  match w with
  | [] => Some i
  | letter :: w' =>
      match trace_step tr i letter with
      | Some j => trace_run tr j w'
      | None => None
      end
  end.

End DetermineWords.

Section MinimizeWords.
Variable task : MinimizeTask.t.
Import MinimizeTask.

(** The state a determined automaton reaches from [s] along a word. *)
Fixpoint min_run (s : nat) (w : list Char) : nat :=
  match w with
  | [] => s
  | letter :: w' => min_run (Next task s letter) w'
  end.

(** Two states cannot be told apart: along every word of representative
    symbols they reach states that [SameClasses] identifies. *)
Definition Indistinguishable (a b : nat) : Prop :=
  ∀ w, Forall (λ letter, letter ∈ (Letters task).*1) w →
       SameClasses task (min_run a w) (min_run b w) = true.

End MinimizeWords.

(** * Properties of [Determine] *)

Section DetermineLoops.
Context {State : Type} `{Countable State}.
Variable task : DetermineTask.t State.
Import DetermineTask.

(** Invariant rule for the inner loop: a predicate kept by both branches
    of the body holds when the loop is left normally. *)
Lemma Determine_row_rule
    (I : LettersTbl → Tables State → list nat → Prop) (cur : State) :
  (∀ letter cidx ms rest w row i,
      I ((letter, (cidx, ms)) :: rest) w row →
      invstates w !! Next task cur letter = Some i →
      I rest w (<[cidx := i]> row)) →
  (∀ letter cidx ms rest w row budget,
      I ((letter, (cidx, ms)) :: rest) w row →
      invstates w !! Next task cur letter = None →
      maxSize w = S budget →
      I rest (push_state (Next task cur letter) budget w)
        (<[cidx := length (states w)]> row)) →
  ∀ letters w row w' row',
    I letters w row →
    Determine_row task cur letters w row = Some (w', row') →
    I [] w' row'.
Proof.
  intros Hhit Hmiss letters.
  induction letters as [|[letter [cidx ms]] rest IH]; intros w row w' row' HI Hrun.
  - simpl in Hrun. by simplify_eq.
  - simpl in Hrun.
    destruct (invstates w !! Next task cur letter) as [i|] eqn:Hfind.
    + eapply IH; [|done]. by eapply Hhit.
    + destruct (maxSize w) as [|budget] eqn:Hbudget; [done|].
      eapply IH; [|done]. by eapply Hmiss.
Qed.

(** The inner loop gives up only at a state that is not in the table while
    the budget is used up. *)
Lemma Determine_row_fails
    (I : LettersTbl → Tables State → list nat → Prop) (cur : State) :
  (∀ letter cidx ms rest w row i,
      I ((letter, (cidx, ms)) :: rest) w row →
      invstates w !! Next task cur letter = Some i →
      I rest w (<[cidx := i]> row)) →
  (∀ letter cidx ms rest w row budget,
      I ((letter, (cidx, ms)) :: rest) w row →
      invstates w !! Next task cur letter = None →
      maxSize w = S budget →
      I rest (push_state (Next task cur letter) budget w)
        (<[cidx := length (states w)]> row)) →
  ∀ letters w row,
    I letters w row →
    Determine_row task cur letters w row = None →
    ∃ letter cls rest w1 row1,
      I ((letter, cls) :: rest) w1 row1 ∧
      invstates w1 !! Next task cur letter = None ∧
      maxSize w1 = 0.
Proof.
  intros Hhit Hmiss letters.
  induction letters as [|[letter [cidx ms]] rest IH]; intros w row HI Hrun.
  - done.
  - simpl in Hrun.
    destruct (invstates w !! Next task cur letter) as [i|] eqn:Hfind.
    + eapply IH; [|done]. by eapply Hhit.
    + destruct (maxSize w) as [|budget] eqn:Hbudget.
      * by exists letter, (cidx, ms), rest, w, row.
      * eapply IH; [|done]. by eapply Hmiss.
Qed.

(** Invariant rule for the outer loop. *)
Lemma Determine_bfs_rule (I : nat → Tables State → Prop) :
  (∀ idx w cur, I idx w → states w !! idx = Some cur →
      IsRequired task cur = false → I (S idx) w) →
  (∀ idx w cur w' row, I idx w → states w !! idx = Some cur →
      IsRequired task cur = true →
      Determine_row task cur (Letters task) w
        (replicate (length (Letters task)) 0) = Some (w', row) →
      I (S idx) (push_row row idx w')) →
  ∀ fuel idx w,
    I idx w →
    match Determine_bfs task fuel idx w with
    | Done w' => ∃ idx', I idx' w' ∧ states w' !! idx' = None
    | Failed => ∃ idx' w1 cur, I idx' w1 ∧ states w1 !! idx' = Some cur ∧
                  IsRequired task cur = true ∧
                  Determine_row task cur (Letters task) w1
                    (replicate (length (Letters task)) 0) = None
    | OutOfFuel => True
    end.
Proof.
  intros Hskip Hrow fuel.
  induction fuel as [|fuel IH]; intros idx w HI; [done|].
  simpl. destruct (states w !! idx) as [cur|] eqn:Hcur; [|by eauto].
  destruct (IsRequired task cur) eqn:Hreq; simpl.
  - destruct (Determine_row task cur (Letters task) w _) as [[w' row]|] eqn:Hr.
    + apply IH. by eapply Hrow.
    + by eauto 10.
  - apply IH. by eapply Hskip.
Qed.

End DetermineLoops.

Section DetermineInvariants.
Context {State : Type} `{Countable State}.
Variable task : DetermineTask.t State.
Variable budget0 : nat.
Import DetermineTask.

Lemma LettersOK_lt e : LettersOK task → e ∈ Letters task → e.2.1 < (length (Letters task)).
Proof.
  intros Hok He.
  assert (e.2.1 ∈ seq 0 (length (Letters task))) as Hin.
  { rewrite <-Hok. by apply (list_elem_of_fmap_2 (λ e : Char * (nat * list Char), e.2.1)). }
  apply elem_of_seq in Hin. lia.
Qed.

Lemma LettersOK_NoDup : LettersOK task → NoDup ((λ e : Char * (nat * list Char), e.2.1) <$> Letters task).
Proof. intros Hok. rewrite Hok. apply NoDup_seq. Qed.

Lemma LettersOK_split_ne seen e rest e' :
  LettersOK task → Letters task = seen ++ e :: rest → e' ∈ seen →
  e'.2.1 ≠ e.2.1.
Proof.
  intros Hok Hsplit He' Heq.
  pose proof (LettersOK_NoDup Hok) as Hnd.
  rewrite Hsplit, fmap_app, fmap_cons in Hnd.
  apply NoDup_app in Hnd as (_ & Hdisj & _).
  apply (Hdisj e'.2.1); [by apply (list_elem_of_fmap_2 (λ e : Char * (nat * list Char), e.2.1))|].
  rewrite Heq. left.
Qed.

Lemma Core_init : Core task budget0 (Determine_init task budget0).
Proof.
  split; simpl.
  - done.
  - apply NoDup_singleton.
  - intros s i. rewrite lookup_singleton_Some.
    split.
    + by intros [<- <-].
    + intros Hl. destruct i as [|i]; simpl in Hl; by simplify_eq.
  - done.
  - intros s ->%list_elem_of_singleton. constructor.
  - intros [|j] s' Hl; [by left|done].
Qed.

Lemma Core_nonempty w : Core task budget0 w → 0 < length (states w).
Proof. intros Hc. eapply lookup_lt_Some, core_initial, Hc. Qed.

Lemma Core_fresh w s :
  Core task budget0 w → invstates w !! s = None → s ∉ states w.
Proof.
  intros Hc Hnone [i Hi]%list_elem_of_lookup_1.
  apply (core_inv _ _ _ Hc) in Hi. congruence.
Qed.

Lemma Core_push w idx cur letter cls budget :
  Core task budget0 w →
  states w !! idx = Some cur → IsRequired task cur = true →
  (letter, cls) ∈ Letters task →
  invstates w !! Next task cur letter = None →
  maxSize w = S budget →
  Core task budget0 (push_state (Next task cur letter) budget w).
Proof.
  intros Hc Hcur Hreq Hletter Hnone Hbudget.
  pose proof (Core_fresh _ _ Hc Hnone) as Hfresh.
  split; simpl.
  - apply lookup_app_l_Some, Hc.
  - apply NoDup_app. split_and!; [apply Hc| |apply NoDup_singleton].
    intros x Hx ->%list_elem_of_singleton. done.
  - intros s i. destruct (decide (s = Next task cur letter)) as [->|Hne].
    + rewrite lookup_insert_eq. split.
      * intros [= <-]. by rewrite lookup_app_r, Nat.sub_diag.
      * intros Hl. apply lookup_snoc_Some in Hl as [[Hlt Hl]|[-> _]]; [|done].
        exfalso. apply Hfresh. by eapply list_elem_of_lookup_2.
    + rewrite lookup_insert_ne by done.
      rewrite (core_inv _ _ _ Hc), lookup_snoc_Some. split.
      * intros Hl. left. split; [by eapply lookup_lt_Some|done].
      * intros [[_ Hl]|[_ Heq]]; [done|]. by destruct Hne.
  - rewrite length_app. simpl. pose proof (core_budget _ _ _ Hc). lia.
  - intros s [Hs| ->%list_elem_of_singleton]%elem_of_app.
    + by apply Hc.
    + eapply reach_next; [|done..].
      eapply core_reach; [done|]. by eapply list_elem_of_lookup_2.
  - intros j s' Hl. apply lookup_snoc_Some in Hl as [[Hlt Hl]|[-> <-]].
    + destruct (core_parent _ _ _ Hc _ _ Hl)
        as [->|(i & s & l & c & ? & ? & ? & ? & ?)]; [by left|].
      right. exists i, s, l, c. split_and!; try done.
      by apply lookup_app_l_Some.
    + right. exists idx, cur, letter, cls. split_and!; try done.
      * by eapply lookup_lt_Some.
      * by apply lookup_app_l_Some.
Qed.

(** The inner loop starts within its invariant. *)
Lemma Inner_start idx cur w :
  Core task budget0 w → states w !! idx = Some cur →
  Inner task budget0 idx cur w (Letters task) w (replicate (length (Letters task)) 0).
Proof.
  intros Hc Hcur. split; try done.
  - exists []. split_and!; [done|..].
    + by intros e ?%elem_of_nil.
    + by intros _ e ?%elem_of_nil.
  - by rewrite length_replicate.
  - intros j ->%elem_of_replicate_inv. by eapply Core_nonempty.
Qed.

Lemma elem_of_list_insert_inv (l : list nat) i x y :
  y ∈ <[i := x]> l → y = x ∨ y ∈ l.
Proof.
  intros [k Hk]%list_elem_of_lookup_1.
  apply list_lookup_insert_Some in Hk as [(-> & -> & _)|[_ Hk]]; [by left|].
  right. by eapply list_elem_of_lookup_2.
Qed.

Lemma Inner_hit idx cur w0 letter cidx ms rest w row i :
  IsRequired task cur = true →
  Inner task budget0 idx cur w0 ((letter, (cidx, ms)) :: rest) w row →
  invstates w !! Next task cur letter = Some i →
  Inner task budget0 idx cur w0 rest w (<[cidx := i]> row).
Proof.
  intros Hreq [Hc (seen & Hsplit & Hseen & Hrow) Hcur Hpre Htr Hix Hlen Hbound] Hfind.
  apply (core_inv _ _ _ Hc) in Hfind.
  split; try done.
  - exists (seen ++ [(letter, (cidx, ms))]). split_and!.
    + by rewrite Hsplit, <-app_assoc.
    + intros e [He| ->%list_elem_of_singleton]%elem_of_app; [by apply Hseen|].
      by eapply list_elem_of_lookup_2.
    + intros Hok e [He| ->%list_elem_of_singleton]%elem_of_app.
      * destruct (Hrow Hok e He) as (j & Hj & Hst). exists j. split; [|done].
        rewrite list_lookup_insert_ne; [done|].
        intros Heq. by eapply (LettersOK_split_ne seen _ rest e).
      * exists i. split; [|done]. simpl.
        apply list_lookup_insert_eq. rewrite Hlen.
        apply (LettersOK_lt (letter, (cidx, ms))); [done|].
        rewrite Hsplit. apply elem_of_app. right. left.
  - by rewrite length_insert.
  - intros j [->|Hj]%elem_of_list_insert_inv; [|by apply Hbound].
    by eapply lookup_lt_Some.
Qed.

Lemma Inner_miss idx cur w0 letter cidx ms rest w row budget :
  IsRequired task cur = true →
  Inner task budget0 idx cur w0 ((letter, (cidx, ms)) :: rest) w row →
  invstates w !! Next task cur letter = None →
  maxSize w = S budget →
  Inner task budget0 idx cur w0 rest
    (push_state (Next task cur letter) budget w)
    (<[cidx := length (states w)]> row).
Proof.
  intros Hreq [Hc (seen & Hsplit & Hseen & Hrow) Hcur Hpre Htr Hix Hlen Hbound]
    Hnone Hbudget.
  assert ((letter, (cidx, ms)) ∈ Letters task) as Hin.
  { rewrite Hsplit. apply elem_of_app. right. left. }
  split; simpl; try done.
  - by eapply Core_push.
  - exists (seen ++ [(letter, (cidx, ms))]). split_and!.
    + by rewrite Hsplit, <-app_assoc.
    + intros e [He| ->%list_elem_of_singleton]%elem_of_app.
      * apply elem_of_app. left. by apply Hseen.
      * apply elem_of_app. right. left.
    + intros Hok e [He| ->%list_elem_of_singleton]%elem_of_app.
      * destruct (Hrow Hok e He) as (j & Hj & Hst). exists j. split.
        -- rewrite list_lookup_insert_ne; [done|].
           intros Heq. by eapply (LettersOK_split_ne seen _ rest e).
        -- by apply lookup_app_l_Some.
      * exists (length (states w)). split.
        -- simpl. apply list_lookup_insert_eq. rewrite Hlen.
           by apply (LettersOK_lt (letter, (cidx, ms))).
        -- by rewrite lookup_app_r, Nat.sub_diag.
  - by apply lookup_app_l_Some.
  - etrans; [done|]. by apply prefix_app_r.
  - by rewrite length_insert.
  - intros j Hj. rewrite length_app. simpl.
    apply elem_of_list_insert_inv in Hj as [->|Hj]; [lia|].
    apply Hbound in Hj. lia.
Qed.

Lemma filter_ext_elem {A} (P1 P2 : A → Prop)
    `{!∀ x, Decision (P1 x), !∀ x, Decision (P2 x)} (l : list A) :
  (∀ x, x ∈ l → P1 x ↔ P2 x) → filter P1 l = filter P2 l.
Proof.
  induction l as [|a l IH]; intros Hiff; [done|].
  rewrite !filter_cons. rewrite IH by (intros; apply Hiff; by right).
  destruct (decide (P1 a)) as [HP|HP], (decide (P2 a)) as [HQ|HQ]; try done.
  - destruct HQ. apply Hiff; [left|done].
  - destruct HP. apply Hiff; [left|done].
Qed.

Lemma required_at_prefix (sts sts' : list State) i :
  sts `prefix_of` sts' → i < length sts →
  required_at task sts' i = required_at task sts i.
Proof.
  intros [ext ->] Hlt. unfold required_at. by rewrite lookup_app_l.
Qed.

Lemma required_filter_prefix (sts sts' : list State) n :
  sts `prefix_of` sts' → n ≤ length sts →
  filter (λ i, required_at task sts' i = true) (seq 0 n)
  = filter (λ i, required_at task sts i = true) (seq 0 n).
Proof.
  intros Hpre Hn. apply filter_ext_elem.
  intros i Hi%elem_of_seq.
  rewrite (required_at_prefix sts sts'); [done..|lia].
Qed.

Lemma RowOK_prefix w w' i row :
  states w `prefix_of` states w' → RowOK task w i row → RowOK task w' i row.
Proof.
  intros Hpre (s & Hs & Hreq & Hlen & Hbound & Hrow).
  exists s. split_and!; try done.
  - by eapply prefix_lookup_Some.
  - intros j Hj. apply Hbound in Hj. apply prefix_length in Hpre. lia.
  - intros Hok e He. destruct (Hrow Hok e He) as (j & Hj & Hst).
    exists j. split; [done|]. by eapply prefix_lookup_Some.
Qed.

Lemma Outer_init : Outer task budget0 0 (Determine_init task budget0).
Proof.
  split; simpl; try done.
  - apply Core_init.
  - lia.
  - intros; lia.
Qed.

Lemma Outer_skip idx w cur :
  Outer task budget0 idx w → states w !! idx = Some cur →
  IsRequired task cur = false → Outer task budget0 (S idx) w.
Proof.
  intros [Hc Hidx Hix Hlen Hrows Hclosed] Hcur Hreq.
  split; try done.
  - by eapply lookup_lt_Some.
  - rewrite seq_S, filter_app, <-Hix. simpl.
    rewrite filter_cons_False, filter_nil, app_nil_r; [done|].
    unfold required_at. rewrite Hcur. simpl. congruence.
  - intros i s e Hi Hs Hr He.
    destruct (decide (i = idx)) as [->|Hne]; [congruence|].
    eapply Hclosed; [|done..]. lia.
Qed.

Lemma Determine_row_Inner idx cur w w' row :
  Core task budget0 w → states w !! idx = Some cur →
  IsRequired task cur = true →
  Determine_row task cur (Letters task) w
    (replicate (length (Letters task)) 0) = Some (w', row) →
  Inner task budget0 idx cur w [] w' row.
Proof.
  intros Hc Hcur Hreq Hrun.
  eapply (Determine_row_rule task (Inner task budget0 idx cur w) cur);
    [..|by apply Inner_start|done].
  - intros. by eapply Inner_hit.
  - intros. by eapply Inner_miss.
Qed.

Lemma Outer_row idx w cur w' row :
  Outer task budget0 idx w → states w !! idx = Some cur →
  IsRequired task cur = true →
  Determine_row task cur (Letters task) w
    (replicate (length (Letters task)) 0) = Some (w', row) →
  Outer task budget0 (S idx) (push_row row idx w').
Proof.
  intros [Hc Hidx Hix Hlen Hrows Hclosed] Hcur Hreq Hrun.
  destruct (Determine_row_Inner _ _ _ _ _ Hc Hcur Hreq Hrun)
    as [Hc' (seen & Hsplit & Hseen & Hrow) Hcur' Hpre Htr' Hix' Hlen' Hbound'].
  rewrite app_nil_r in Hsplit. subst seen.
  assert (RowOK task w' idx row) as Hnew.
  { exists cur. split_and!; done. }
  split; unfold push_row; cbn [states invstates transitions stateIndices maxSize].
  - destruct Hc'. by split.
  - by eapply lookup_lt_Some.
  - rewrite seq_S, filter_app, Hix', Hix. simpl.
    rewrite (required_filter_prefix (states w) (states w')) by done. f_equal.
    rewrite filter_cons_True, filter_nil; [done|].
    unfold required_at. by rewrite Hcur'.
  - rewrite !length_app, Htr', Hix'. simpl. lia.
  - intros k i r Hk Hr.
    apply lookup_snoc_Some in Hk as [[Hklt Hk]|[Hkeq <-]].
    + rewrite lookup_app_l in Hr by (rewrite Htr', Hlen; by rewrite Hix' in Hklt).
      rewrite Hix' in Hk. rewrite Htr' in Hr.
      eapply (RowOK_prefix w); [done|]. by eapply Hrows.
    + rewrite lookup_app_r in Hr by (rewrite Htr', Hlen, <-Hix'; lia).
      rewrite Htr', Hlen, <-Hix', Hkeq, Nat.sub_diag in Hr.
      simpl in Hr. by simplify_eq.
  - intros i s e Hi Hs Hr He.
    destruct (decide (i = idx)) as [->|Hne].
    + rewrite Hcur' in Hs. simplify_eq. by apply Hseen.
    + assert (i < idx) as Hlt by lia.
      assert (states w !! i = Some s) as Hs0.
      { destruct Hpre as [ext Hext]. rewrite Hext in Hs.
        rewrite lookup_app_l in Hs; [done|lia]. }
      destruct Hpre as [ext Hext]. rewrite Hext.
      apply elem_of_app. left. by eapply Hclosed.
Qed.

End DetermineInvariants.

Section DetermineRuns.
Context {State : Type} `{Countable State}.
Variable task : DetermineTask.t State.
Import DetermineTask.

(** The inner loop trades budget for states one to one. *)
Lemma Determine_row_measure cur letters w row w' row' :
  Determine_row task cur letters w row = Some (w', row') →
  length (states w') + maxSize w' = length (states w) + maxSize w ∧
  length (states w) ≤ length (states w').
Proof.
  intros Hrun.
  apply (Determine_row_rule task
           (λ _ w1 _, length (states w1) + maxSize w1
                      = length (states w) + maxSize w ∧
                      length (states w) ≤ length (states w1)) cur)
    with (letters := letters) (w := w) (row := row) (row' := row');
    [..|done|done].
  - done.
  - intros letter cidx ms rest w1 row1 budget [Hsum Hle] _ Hb. simpl.
    rewrite length_app. simpl. lia.
Qed.

(** The outer loop never runs out of fuel when given at least the states
    still to visit plus the states that can still be bought, plus one. *)
Lemma Determine_bfs_terminates fuel idx w :
  idx ≤ length (states w) →
  length (states w) + maxSize w + 1 - idx ≤ fuel →
  Determine_bfs task fuel idx w ≠ OutOfFuel.
Proof.
  revert idx w. induction fuel as [|fuel IH]; intros idx w Hidx Hfuel; [lia|].
  simpl. destruct (states w !! idx) as [cur|] eqn:Hcur; [|done].
  apply lookup_lt_Some in Hcur as Hlt.
  destruct (IsRequired task cur); simpl.
  - destruct (Determine_row task cur (Letters task) w _) as [[w' row]|] eqn:Hr;
      [|done].
    apply Determine_row_measure in Hr as [Hsum Hle].
    apply IH; simpl; lia.
  - apply IH; lia.
Qed.

(** More fuel does not change a run that ended. *)
Lemma Determine_bfs_fuel_mono fuel fuel' idx w :
  fuel ≤ fuel' → Determine_bfs task fuel idx w ≠ OutOfFuel →
  Determine_bfs task fuel' idx w = Determine_bfs task fuel idx w.
Proof.
  revert fuel' idx w. induction fuel as [|fuel IH]; intros fuel' idx w Hle Hrun;
    [done|].
  destruct fuel' as [|fuel']; [lia|]. simpl in *.
  destruct (states w !! idx) as [cur|]; [|done].
  destruct (negb (IsRequired task cur)).
  - apply IH; [lia|done].
  - destruct (Determine_row task cur (Letters task) w _) as [[w' row]|]; [|done].
    apply IH; [lia|done].
Qed.

(** A row that could be paid for is built the same way with more budget. *)
Lemma Determine_row_add_budget d cur letters w row w' row' :
  Determine_row task cur letters w row = Some (w', row') →
  Determine_row task cur letters (add_budget d w) row
  = Some (add_budget d w', row').
Proof.
  revert w row. induction letters as [|[letter [cidx ms]] rest IH];
    intros w row Hrun; simpl in *.
  - by simplify_eq.
  - destruct (invstates w !! Next task cur letter) as [i|]; [by apply IH|].
    destruct (maxSize w) as [|budget] eqn:Hb; [done|]. simpl.
    apply IH in Hrun. exact Hrun.
Qed.

Lemma Determine_bfs_add_budget d fuel idx w w' :
  Determine_bfs task fuel idx w = Done w' →
  Determine_bfs task fuel idx (add_budget d w) = Done (add_budget d w').
Proof.
  revert idx w. induction fuel as [|fuel IH]; intros idx w Hrun; [done|].
  simpl in *. destruct (states w !! idx) as [cur|]; [|by simplify_eq].
  destruct (negb (IsRequired task cur)); [by apply IH|].
  destruct (Determine_row task cur (Letters task) w _) as [[w1 row]|] eqn:Hr;
    [|done].
  rewrite (Determine_row_add_budget d _ _ _ _ _ _ Hr).
  by apply IH in Hrun.
Qed.

Lemma Determine_emit_add_budget d w :
  Determine_emit task (add_budget d w) = Determine_emit task w.
Proof. done. Qed.

(** [Determine] always returns. *)
Lemma Determine_total budget : is_Some (Determine task budget).
Proof.
  unfold Determine.
  pose proof (Determine_bfs_terminates (budget + 2) 0
                (Determine_init task budget)) as Hterm.
  destruct (Determine_bfs task (budget + 2) 0 _); [by eexists..|].
  destruct Hterm; [simpl; lia..|done].
Qed.

(** A successful drive ends with tables satisfying the outer invariant, all
    of whose states have been visited. *)
Lemma Determine_Success_inv budget tr :
  Determine task budget = Some (Success, tr) →
  ∃ w, Outer task budget (length (states w)) w ∧ tr = Determine_emit task w.
Proof.
  unfold Determine. intros Hrun.
  pose proof (Determine_bfs_rule task (Outer task budget)
                (Outer_skip task budget) (Outer_row task budget)
                (budget + 2) 0 _ (Outer_init task budget)) as Hinv.
  destruct (Determine_bfs task (budget + 2) 0 _) as [w| |]; simplify_eq.
  destruct Hinv as (idx' & Hout & Hnone).
  exists w. split; [|done].
  apply lookup_ge_None in Hnone. pose proof (outer_idx _ _ _ _ Hout).
  by replace (length (states w)) with idx' by lia.
Qed.

(** A failed drive has met more distinct states than the budget allows. *)
Lemma Determine_Failure_inv budget tr :
  Determine task budget = Some (Failure, tr) →
  tr = [] ∧
  ∃ l, NoDup l ∧ (∀ s, s ∈ l → reach task s) ∧ length l = budget + 2.
Proof.
  unfold Determine. intros Hrun.
  pose proof (Determine_bfs_rule task (Outer task budget)
                (Outer_skip task budget) (Outer_row task budget)
                (budget + 2) 0 _ (Outer_init task budget)) as Hinv.
  destruct (Determine_bfs task (budget + 2) 0 _) as [w| |]; simplify_eq.
  split; [done|].
  destruct Hinv as (idx' & w1 & cur & Hout & Hcur & Hreq & Hrow).
  destruct (Determine_row_fails task (Inner task budget idx' cur w1) cur)
    with (letters := Letters task) (w := w1)
         (row := replicate (length (Letters task)) 0)
    as (letter & cls & rest & w2 & row2 & Hin & Hnone & Hzero).
  - intros. by eapply Inner_hit.
  - intros. by eapply Inner_miss.
  - apply Inner_start; [apply Hout|done].
  - done.
  - destruct Hin as [Hc (seen & Hsplit & _) Hcur2 _ _ _ _ _].
    exists (states w2 ++ [Next task cur letter]). split_and!.
    + apply NoDup_app. split_and!; [apply Hc| |apply NoDup_singleton].
      intros x Hx ->%list_elem_of_singleton. by eapply Core_fresh.
    + intros s [Hs| ->%list_elem_of_singleton]%elem_of_app.
      * by eapply core_reach.
      * eapply reach_next; [|done|].
        -- eapply core_reach; [done|]. by eapply list_elem_of_lookup_2.
        -- rewrite Hsplit. apply elem_of_app. right. left.
    + rewrite length_app. simpl. pose proof (core_budget _ _ _ Hc). lia.
Qed.

(** After a successful drive every reachable state is in the table. *)
Lemma Outer_complete budget w s :
  Outer task budget (length (states w)) w → reach task s → s ∈ states w.
Proof.
  intros Hout Hreach. induction Hreach as [|s letter cls _ IH Hreq Hin].
  - eapply list_elem_of_lookup_2, core_initial, Hout.
  - apply list_elem_of_lookup_1 in IH as [i Hi].
    apply (outer_closed _ _ _ _ Hout i s (letter, cls)); try done.
    by eapply lookup_lt_Some.
Qed.

End DetermineRuns.

Section DetermineTrace.
Context {State : Type} `{Countable State}.
Variable task : DetermineTask.t State.
Import DetermineTask.

Lemma mjoin_imap_bind {E F} (post : list E → list F)
    (f : nat → list nat → list E) (g : nat → list F)
    (trs : list (list nat)) (ixs : list nat) :
  post [] = [] → (∀ a b, post (a ++ b) = post a ++ post b) →
  length trs = length ixs →
  (∀ k i row, ixs !! k = Some i → trs !! k = Some row → post (f k row) = g i) →
  post (mjoin (imap f trs)) = ixs ≫= g.
Proof.
  intros Hnil Happ. revert f ixs.
  induction trs as [|row trs IH]; intros f [|i ixs] Hlen Hpt; simplify_eq/=;
    [done|].
  rewrite Happ. f_equal.
  - by apply (Hpt 0).
  - apply IH; [done|]. intros k i' row' Hi Hr. by apply (Hpt (S k)).
Qed.

Lemma bind_filter_nil {A B} (P : A → Prop) `{!∀ x, Decision (P x)}
    (g : A → list B) (l : list A) :
  (∀ x, ¬ P x → g x = []) → filter P l ≫= g = l ≫= g.
Proof.
  intros Hg. induction l as [|a l IH]; [done|].
  rewrite filter_cons. destruct (decide (P a)) as [HP|HP].
  - by rewrite !bind_cons, IH.
  - by rewrite bind_cons, Hg, IH.
Qed.

Lemma invletters_length : length (invletters task) = length (Letters task).
Proof.
  unfold invletters.
  assert (∀ (ls : LettersTbl) (inv : list Char),
            length (foldl (λ inv letter, <[letter.2.1 := letter.1]> inv) inv ls)
            = length inv) as Hgen.
  { induction ls as [|e ls IH]; intros inv; simpl; [done|].
    by rewrite IH, length_insert. }
  by rewrite Hgen, length_replicate.
Qed.

Lemma invletters_lookup e :
  LettersOK task → e ∈ Letters task → invletters task !! e.2.1 = Some e.1.
Proof.
  intros Hok. unfold invletters.
  assert (∀ (rest seen : LettersTbl) (inv : list Char),
            Letters task = seen ++ rest →
            length inv = length (Letters task) →
            (∀ e, e ∈ seen → inv !! e.2.1 = Some e.1) →
            ∀ e, e ∈ Letters task →
              foldl (λ inv letter, <[letter.2.1 := letter.1]> inv) inv rest
              !! e.2.1 = Some e.1) as Hgen.
  { induction rest as [|a rest IH]; intros seen inv Hsplit Hlen Hseen e0 He0.
    - rewrite app_nil_r in Hsplit. subst seen. simpl. by apply Hseen.
    - simpl. apply (IH (seen ++ [a])); [by rewrite Hsplit, <-app_assoc| |
                                        |done].
      + by rewrite length_insert.
      + intros e1 [He1| ->%list_elem_of_singleton]%elem_of_app.
        * rewrite list_lookup_insert_ne; [by apply Hseen|].
          intros Heq. by eapply (LettersOK_split_ne task seen a rest e1).
        * apply list_lookup_insert_eq. rewrite Hlen.
          apply LettersOK_lt; [done|]. rewrite Hsplit.
          apply elem_of_app. right. left. }
  apply (Hgen _ []); [done|by rewrite length_replicate|].
  by intros e0 ?%elem_of_nil.
Qed.

Lemma LettersOK_unique e e' :
  LettersOK task → e ∈ Letters task → e' ∈ Letters task →
  e.2.1 = e'.2.1 → e = e'.
Proof.
  intros Hnd%LettersOK_NoDup. revert Hnd.
  induction (Letters task) as [|a l IH]; intros Hnd He He' Heq.
  - by apply elem_of_nil in He.
  - rewrite fmap_cons in Hnd. apply NoDup_cons in Hnd as [Hnotin Hnd].
    apply elem_of_cons in He as [->|He], He' as [->|He']; try done.
    + destruct Hnotin. rewrite Heq.
      by apply (list_elem_of_fmap_2 (λ e : Char * (nat * list Char), e.2.1)).
    + destruct Hnotin. rewrite <-Heq.
      by apply (list_elem_of_fmap_2 (λ e : Char * (nat * list Char), e.2.1)).
    + by apply IH.
Qed.

Lemma class_rep_spec e :
  LettersOK task → e ∈ Letters task → class_rep task e.2.1 = e.1.
Proof.
  intros Hok He. unfold class_rep.
  destruct (find _ (Letters task)) as [e'|] eqn:Hfind.
  - apply find_some in Hfind as [Hin Hidx].
    apply bool_decide_eq_true in Hidx. apply list_elem_of_In in Hin.
    simpl. f_equal. by apply LettersOK_unique.
  - apply list_elem_of_In in He.
    apply (find_none _ _ Hfind) in He.
    by apply bool_decide_eq_false in He.
Qed.

Lemma LettersOK_class c :
  LettersOK task → c < length (Letters task) →
  ∃ e, e ∈ Letters task ∧ e.2.1 = c.
Proof.
  intros Hok Hc.
  assert (c ∈ (λ e : Char * (nat * list Char), e.2.1) <$> Letters task) as Hin.
  { rewrite Hok. apply elem_of_seq. lia. }
  apply list_elem_of_fmap in Hin as (e & -> & He). by exists e.
Qed.

Lemma index_of_lookup (sts : list State) j x :
  NoDup sts → sts !! j = Some x → index_of sts x = j.
Proof.
  intros Hnd Hj. unfold index_of.
  destruct (list_find _ sts) as [[i y]|] eqn:Hfind; simpl.
  - apply list_find_Some in Hfind as (Hi & -> & _).
    by eapply NoDup_lookup.
  - apply list_find_None in Hfind.
    rewrite Forall_forall in Hfind.
    destruct (Hfind x); [by eapply list_elem_of_lookup_2|done].
Qed.

(** The [Connect] calls of a finished row are those owed to its state. *)
Lemma Connect_row_expected budget w k i row :
  LettersOK task → Outer task budget (length (states w)) w →
  stateIndices w !! k = Some i → transitions w !! k = Some row →
  Connect_row task w k row = connects_of task (states w) i.
Proof.
  intros Hok Hout Hk Hrow.
  destruct (outer_rows _ _ _ _ Hout k i row Hk Hrow)
    as (s & Hs & Hreq & Hlen & Hbound & Hcontent).
  unfold Connect_row, connects_of.
  rewrite (list_lookup_total_correct _ _ _ Hk), Hs, Hreq.
  apply list_eq. intros c.
  rewrite lookup_zip_with, list_lookup_fmap.
  destruct (decide (c < length (Letters task))) as [Hc|Hc].
  - destruct (LettersOK_class c Hok Hc) as (e & He & <-).
    destruct (Hcontent Hok e He) as (j & Hj & Hst).
    rewrite Hj, (invletters_lookup e Hok He), lookup_seq_lt by done. simpl.
    rewrite (class_rep_spec e Hok He).
    by rewrite (index_of_lookup _ _ _ (core_nodup _ _ _ (outer_core _ _ _ _ Hout)) Hst).
  - rewrite lookup_seq_ge by lia.
    by rewrite (lookup_ge_None_2 row c) by lia.
Qed.

(** The trace of a successful drive, in closed form. *)
Lemma Determine_emit_expected budget w :
  LettersOK task → Outer task budget (length (states w)) w →
  Determine_emit task w = expected_trace task (states w).
Proof.
  intros Hok Hout. unfold Determine_emit, expected_trace. f_equal.
  rewrite <-(bind_filter_nil (λ i, required_at task (states w) i = true)).
  - rewrite <-(outer_indices _ _ _ _ Hout).
    apply (mjoin_imap_bind id); [done|done|apply Hout|].
    intros k i row Hk Hrow. by eapply Connect_row_expected.
  - intros i Hi. unfold required_at in Hi. unfold connects_of.
    destruct (states w !! i) as [s|]; [|done]. simpl in Hi.
    by destruct (IsRequired task s).
Qed.

(** Where a [Connect] call of the emitted trace comes from. *)
Lemma Connect_in_emit w i j l :
  Connect i j l ∈ Determine_emit task w →
  ∃ k row, transitions w !! k = Some row ∧ stateIndices w !!! k = i ∧ j ∈ row.
Proof.
  unfold Determine_emit. intros [?|Hin]%elem_of_cons; [done|].
  apply list_elem_of_join in Hin as (evs & Hin & Hevs).
  apply elem_of_lookup_imap in Hevs as (k & row & -> & Hrow).
  exists k, row. split; [done|].
  unfold Connect_row in Hin.
  apply elem_of_lookup_zip_with in Hin as (c & j' & l' & Heq & Hj & _).
  simplify_eq. split; [done|]. by eapply list_elem_of_lookup_2.
Qed.

(** The from-indices of the emitted trace: the recorded discovery index of
    each row, once per class. *)
Lemma from_indices_emit budget w :
  Outer task budget (length (states w)) w →
  from_indices (Determine_emit task w)
  = filter (λ i, required_at task (states w) i = true)
           (seq 0 (length (states w)))
    ≫= λ i, replicate (length (Letters task)) i.
Proof.
  intros Hout. unfold from_indices, Determine_emit. simpl.
  rewrite <-(outer_indices _ _ _ _ Hout).
  apply (mjoin_imap_bind (omap connect_from)); [done|apply omap_app|apply Hout|].
  intros k i row Hk Hrow.
  destruct (outer_rows _ _ _ _ Hout k i row Hk Hrow) as (s & _ & _ & Hlen & _).
  unfold Connect_row. rewrite (list_lookup_total_correct _ _ _ Hk).
  pose proof invletters_length as Hinv. rewrite <-Hlen in Hinv |- *.
  clear -Hinv. revert Hinv. generalize (invletters task).
  induction row as [|j row IH]; intros [|l ls] Hl; simplify_eq/=; [done|].
  f_equal. by apply IH.
Qed.

End DetermineTrace.

Section DetermineResults.
Context {State : Type} `{Countable State}.
Variable task : DetermineTask.t State.
Import DetermineTask.

Lemma index_of_elem (sts : list State) x :
  x ∈ sts → sts !! index_of sts x = Some x.
Proof.
  intros Hx. unfold index_of.
  destruct (list_find _ sts) as [[i y]|] eqn:Hfind; simpl.
  - by apply list_find_Some in Hfind as (Hi & -> & _).
  - apply list_find_None in Hfind. rewrite Forall_forall in Hfind.
    by destruct (Hfind x).
Qed.

(** The [Connect] calls of the closed-form trace, one by one. *)
Lemma Connect_in_expected sts i j l :
  Connect i j l ∈ expected_trace task sts ↔
  ∃ s c, sts !! i = Some s ∧ IsRequired task s = true ∧
         c < length (Letters task) ∧ l = class_rep task c ∧
         j = index_of sts (Next task s l).
Proof.
  unfold expected_trace. rewrite elem_of_cons, list_elem_of_bind. split.
  - intros [?|(i' & Hin & Hi')]; [done|].
    unfold connects_of in Hin.
    destruct (sts !! i') as [s|] eqn:Hs; [|by apply elem_of_nil in Hin].
    destruct (IsRequired task s) eqn:Hreq; [|by apply elem_of_nil in Hin].
    apply list_elem_of_fmap in Hin as (c & Heq & Hc%elem_of_seq).
    simplify_eq. exists s, c. split_and!; try done. lia.
  - intros (s & c & Hs & Hreq & Hc & -> & ->). right.
    exists i. split.
    + unfold connects_of. rewrite Hs, Hreq.
      apply list_elem_of_fmap. exists c. split; [done|].
      apply elem_of_seq. lia.
    + apply elem_of_seq. apply lookup_lt_Some in Hs. lia.
Qed.

End DetermineResults.

(** ** The claims about [Determine] *)

(** C1: [Determine] always returns; it returns [Failure] exactly when more
    than [maxSize] states beyond the initial one can be reached, that is
    when there are more than [maxSize + 1] pairwise distinct reachable
    states; and a failed drive has called no sink. *)
Theorem C1_failure_iff_budget_exceeded {State} `{Countable State}
    (task : DetermineTask.t State) (budget : nat) :
  is_Some (Determine task budget) ∧
  (∀ tr, Determine task budget = Some (Failure, tr) → tr = []) ∧
  (Determine task budget = Some (Failure, []) ↔
   ∃ l, NoDup l ∧ (∀ s, s ∈ l → reach task s) ∧ budget + 1 < length l).
Proof.
  split_and!.
  - apply Determine_total.
  - intros tr Hrun. by apply Determine_Failure_inv in Hrun as [-> _].
  - split.
    + intros (_ & l & Hnd & Hreach & Hlen)%Determine_Failure_inv.
      exists l. split_and!; [done..|lia].
    + intros (l & Hnd & Hreach & Hlen).
      destruct (Determine_total task budget) as [[[] tr] Hrun].
      * apply Determine_Success_inv in Hrun as (w & Hout & _).
        assert (l ⊆+ states w) as Hsub.
        { apply NoDup_submseteq; [done|].
          intros s Hs. by eapply Outer_complete, Hreach. }
        apply submseteq_length in Hsub.
        pose proof (core_budget _ _ _ (outer_core _ _ _ _ Hout)). lia.
      * apply Determine_Failure_inv in Hrun as Hinv. by destruct Hinv as [-> _].
Qed.

(** C2: after a successful drive the vector handed to [AcceptStates] starts
    with [task.Initial()], whatever [IsRequired] answers for it. *)
Theorem C2_initial_placement {State} `{Countable State}
    (task : DetermineTask.t State) (budget : nat) tr :
  Determine task budget = Some (Success, tr) →
  ∃ sts conn, tr = AcceptStates sts :: conn ∧
              sts !! 0 = Some (DetermineTask.Initial task).
Proof.
  intros (w & Hout & ->)%Determine_Success_inv.
  exists (states w). eexists. split; [done|].
  apply (core_initial _ _ _ (outer_core _ _ _ _ Hout)).
Qed.

(** C3: with dense class indices, the trace of a successful drive is one
    [AcceptStates] call followed, for each state of its vector in index
    (discovery) order, by nothing if the state is not required and else by
    one [Connect] call per class index in ascending order, carrying the
    state's index, the index of its successor under the representative of
    the class, and that representative. *)
Theorem C3_trace_order {State} `{Countable State}
    (task : DetermineTask.t State) (budget : nat) tr :
  LettersOK task →
  Determine task budget = Some (Success, tr) →
  ∃ sts, tr = expected_trace task sts ∧
    ∀ i s c, sts !! i = Some s → DetermineTask.IsRequired task s = true →
      c < length (DetermineTask.Letters task) →
      length (connects_of task sts i) = length (DetermineTask.Letters task) ∧
      connects_of task sts i !! c
      = Some (Connect i (index_of sts (DetermineTask.Next task s
                                         (class_rep task c)))
                      (class_rep task c)) ∧
      sts !! index_of sts (DetermineTask.Next task s (class_rep task c))
      = Some (DetermineTask.Next task s (class_rep task c)).
Proof.
  intros Hok (w & Hout & ->)%Determine_Success_inv.
  exists (states w). split; [by eapply Determine_emit_expected|].
  intros i s c Hs Hreq Hc. unfold connects_of. rewrite Hs, Hreq.
  split_and!.
  - by rewrite length_fmap, length_seq.
  - by rewrite list_lookup_fmap, lookup_seq_lt.
  - apply index_of_elem.
    destruct (LettersOK_class task c Hok Hc) as (e & He & <-).
    rewrite (class_rep_spec task e Hok He).
    apply (outer_closed _ _ _ _ Hout i s e); try done.
    by eapply lookup_lt_Some.
Qed.

(** C6: after a successful drive every to-index of a [Connect] call is an
    index into the vector handed to [AcceptStates], and (class indices being
    dense) every index of that vector is reachable from index 0 along the
    edges the [Connect] calls announce. *)
Theorem C6_reachability_closure {State} `{Countable State}
    (task : DetermineTask.t State) (budget : nat) tr :
  Determine task budget = Some (Success, tr) →
  ∃ sts conn, tr = AcceptStates sts :: conn ∧
    (∀ i j l, Connect i j l ∈ tr → j < length sts) ∧
    (LettersOK task → ∀ j, j < length sts → reach_idx tr j).
Proof.
  intros (w & Hout & ->)%Determine_Success_inv.
  exists (states w). eexists. split; [done|]. split.
  - intros i j l (k & row & Hrow & Hk & Hj)%Connect_in_emit.
    assert (is_Some (stateIndices w !! k)) as [i' Hi'].
    { apply lookup_lt_is_Some. rewrite <-(outer_length _ _ _ _ Hout).
      by eapply lookup_lt_Some. }
    destruct (outer_rows _ _ _ _ Hout k i' row Hi' Hrow)
      as (s & _ & _ & _ & Hbound & _).
    by apply Hbound.
  - intros Hok j. rewrite (Determine_emit_expected task budget w Hok Hout).
    induction j as [j IH] using lt_wf_ind. intros Hj.
    apply lookup_lt_is_Some in Hj as [s' Hs'].
    destruct (core_parent _ _ _ (outer_core _ _ _ _ Hout) j s' Hs')
      as [->|(i & s & letter & cls & Hij & Hs & Hreq & Hin & Hnext)];
      [constructor|].
    apply reach_idx_step with (i := i).
    + apply IH; [done|]. by eapply lookup_lt_Some.
    + exists letter. apply Connect_in_expected.
      exists s, cls.1. split_and!; try done.
      * by apply (LettersOK_lt task (letter, cls)).
      * symmetry. apply (class_rep_spec task (letter, cls) Hok Hin).
      * rewrite Hnext. symmetry. apply index_of_lookup; [|done].
        apply (core_nodup _ _ _ (outer_core _ _ _ _ Hout)).
Qed.

(** C7: a drive that succeeds within a budget succeeds within every larger
    budget, with the same sink calls in the same order. *)
Theorem C7_budget_monotone {State} `{Countable State}
    (task : DetermineTask.t State) (m1 m2 : nat) tr :
  m1 ≤ m2 →
  Determine task m1 = Some (Success, tr) →
  Determine task m2 = Some (Success, tr).
Proof.
  intros Hle. unfold Determine.
  destruct (Determine_bfs task (m1 + 2) 0 _) as [w| |] eqn:Hrun; [|done..].
  intros [= <-].
  apply (Determine_bfs_add_budget task (m2 - m1)) in Hrun.
  replace (add_budget (m2 - m1) (Determine_init task m1))
    with (Determine_init task m2) in Hrun
    by (unfold add_budget, Determine_init; simpl; f_equal; lia).
  rewrite (Determine_bfs_fuel_mono task (m1 + 2) (m2 + 2)), Hrun;
    [done|lia|by rewrite Hrun].
Qed.

(** C9: in a successful drive the from-indices of the [Connect] calls are,
    row after row, the discovery indices of the required states (each once
    per class), not the positions of the rows; every from-index denotes a
    required state of the vector handed to [AcceptStates], every to-index
    (class indices being dense) the successor of that very state; and the
    vector holds every reachable state, required or not. *)
Theorem C9_from_is_discovery_index {State} `{Countable State}
    (task : DetermineTask.t State) (budget : nat) tr :
  Determine task budget = Some (Success, tr) →
  ∃ sts conn, tr = AcceptStates sts :: conn ∧
    from_indices tr
    = (filter (λ i, required_at task sts i = true) (seq 0 (length sts))
       ≫= λ i, replicate (length (DetermineTask.Letters task)) i) ∧
    (∀ i j l, Connect i j l ∈ tr →
       ∃ s, sts !! i = Some s ∧ DetermineTask.IsRequired task s = true ∧
            (LettersOK task →
             sts !! j = Some (DetermineTask.Next task s l))) ∧
    (∀ s, reach task s → s ∈ sts).
Proof.
  intros (w & Hout & ->)%Determine_Success_inv.
  exists (states w). eexists. split; [done|]. split_and!.
  - by eapply from_indices_emit.
  - intros i j l Hin.
    apply Connect_in_emit in Hin as Hin'.
    destruct Hin' as (k & row & Hrow & Hk & Hj).
    assert (is_Some (stateIndices w !! k)) as [i' Hi'].
    { apply lookup_lt_is_Some. rewrite <-(outer_length _ _ _ _ Hout).
      by eapply lookup_lt_Some. }
    rewrite (list_lookup_total_correct _ _ _ Hi') in Hk. subst i'.
    destruct (outer_rows _ _ _ _ Hout k i row Hi' Hrow)
      as (s & Hs & Hreq & _).
    exists s. split_and!; [done..|]. intros Hok.
    rewrite (Determine_emit_expected task budget w Hok Hout) in Hin.
    apply Connect_in_expected in Hin
      as (s' & c & Hs' & _ & Hc & -> & ->).
    assert (s' = s) as -> by congruence. apply index_of_elem.
    destruct (LettersOK_class task c Hok Hc) as (e & He & <-).
    rewrite (class_rep_spec task e Hok He).
    apply (outer_closed _ _ _ _ Hout i s e); try done.
    by eapply lookup_lt_Some.
  - intros s Hs. by eapply Outer_complete.
Qed.

(** C10: the vector handed to [AcceptStates] by a successful drive has no
    repeated state, and its indices correspond one to one to the reachable
    states. *)
Theorem C10_states_distinct {State} `{Countable State}
    (task : DetermineTask.t State) (budget : nat) tr :
  Determine task budget = Some (Success, tr) →
  ∃ sts conn, tr = AcceptStates sts :: conn ∧
    NoDup sts ∧
    (∀ s, reach task s ↔ ∃ i, sts !! i = Some s) ∧
    (∀ i j s, sts !! i = Some s → sts !! j = Some s → i = j).
Proof.
  intros (w & Hout & ->)%Determine_Success_inv.
  pose proof (core_nodup _ _ _ (outer_core _ _ _ _ Hout)) as Hnd.
  exists (states w). eexists. split; [done|]. split_and!.
  - done.
  - intros s. rewrite <-list_elem_of_lookup. split.
    + by eapply Outer_complete.
    + apply (core_reach _ _ _ (outer_core _ _ _ _ Hout)).
  - intros i j s Hi Hj. by eapply NoDup_lookup.
Qed.

(** *** The scenarios, run *)

Example scenario_identity :
  Determine Scenarios.identity 0
  = Some (Success, [AcceptStates [0]; Connect 0 0 0]).
Proof. vm_compute. reflexivity. Qed.

Example scenario_overflow :
  Determine Scenarios.chain 1 = Some (Failure, []).
Proof. vm_compute. reflexivity. Qed.

Example scenario_chain_fits :
  Determine Scenarios.chain 2
  = Some (Success, [AcceptStates [0; 1; 2];
                    Connect 0 1 0; Connect 1 2 0; Connect 2 2 0]).
Proof. vm_compute. reflexivity. Qed.

Example scenario_subsets :
  Determine Scenarios.subsets 10
  = Some (Success, [AcceptStates [1; 3];
                    Connect 0 1 97; Connect 0 0 98;
                    Connect 1 1 97; Connect 1 0 98]).
Proof. vm_compute. reflexivity. Qed.

Example scenario_swapped :
  Determine Scenarios.swapped 10
  = Some (Success, [AcceptStates [1; 3];
                    Connect 0 0 98; Connect 0 1 97;
                    Connect 1 0 98; Connect 1 1 97]).
Proof. vm_compute. reflexivity. Qed.

(** The row of state [2] is the second row, yet its calls carry index 2. *)
Example scenario_pruned :
  Determine Scenarios.pruned 5
  = Some (Success, [AcceptStates [0; 1; 2];
                    Connect 0 1 0; Connect 0 2 1;
                    Connect 2 0 0; Connect 2 1 1]).
Proof. vm_compute. reflexivity. Qed.

Example scenario_idle :
  Determine Scenarios.idle 0 = Some (Success, [AcceptStates [7]]).
Proof. vm_compute. reflexivity. Qed.

Lemma C2_initial_placement_witness :
  ∃ sts conn, [AcceptStates [7]] = AcceptStates sts :: conn ∧
              sts !! 0 = Some 7.
Proof.
  apply (C2_initial_placement Scenarios.idle 0). vm_compute. reflexivity.
Defined.

Lemma C3_trace_order_witness :
  ∃ sts, [AcceptStates [1; 3]; Connect 0 0 98; Connect 0 1 97;
          Connect 1 0 98; Connect 1 1 97]
         = expected_trace Scenarios.swapped sts ∧
    ∀ i s c, sts !! i = Some s →
      DetermineTask.IsRequired Scenarios.swapped s = true →
      c < length (DetermineTask.Letters Scenarios.swapped) →
      length (connects_of Scenarios.swapped sts i)
      = length (DetermineTask.Letters Scenarios.swapped) ∧
      connects_of Scenarios.swapped sts i !! c
      = Some (Connect i
                (index_of sts (DetermineTask.Next Scenarios.swapped s
                                 (class_rep Scenarios.swapped c)))
                (class_rep Scenarios.swapped c)) ∧
      sts !! index_of sts (DetermineTask.Next Scenarios.swapped s
                             (class_rep Scenarios.swapped c))
      = Some (DetermineTask.Next Scenarios.swapped s
                (class_rep Scenarios.swapped c)).
Proof.
  apply (C3_trace_order Scenarios.swapped 10).
  - apply perm_swap.
  - vm_compute. reflexivity.
Defined.

Lemma C6_reachability_closure_witness :
  ∃ sts conn,
    [AcceptStates [0; 1; 2]; Connect 0 1 0; Connect 0 2 1;
     Connect 2 0 0; Connect 2 1 1] = AcceptStates sts :: conn ∧
    (∀ i j l,
       Connect i j l ∈ [AcceptStates [0; 1; 2]; Connect 0 1 0; Connect 0 2 1;
                        Connect 2 0 0; Connect 2 1 1] → j < length sts) ∧
    (LettersOK Scenarios.pruned → ∀ j, j < length sts →
       reach_idx [AcceptStates [0; 1; 2]; Connect 0 1 0; Connect 0 2 1;
                  Connect 2 0 0; Connect 2 1 1] j).
Proof.
  apply (C6_reachability_closure Scenarios.pruned 5). vm_compute. reflexivity.
Defined.

Lemma C7_budget_monotone_witness :
  Determine Scenarios.chain 7
  = Some (Success, [AcceptStates [0; 1; 2];
                    Connect 0 1 0; Connect 1 2 0; Connect 2 2 0]).
Proof.
  apply (C7_budget_monotone Scenarios.chain 2 7).
  - lia.
  - vm_compute. reflexivity.
Defined.

Lemma C9_from_is_discovery_index_witness :
  ∃ sts conn,
    [AcceptStates [0; 1; 2]; Connect 0 1 0; Connect 0 2 1;
     Connect 2 0 0; Connect 2 1 1] = AcceptStates sts :: conn ∧
    from_indices [AcceptStates [0; 1; 2]; Connect 0 1 0; Connect 0 2 1;
                  Connect 2 0 0; Connect 2 1 1]
    = (filter (λ i, required_at Scenarios.pruned sts i = true)
              (seq 0 (length sts))
       ≫= λ i, replicate (length (DetermineTask.Letters Scenarios.pruned)) i) ∧
    (∀ i j l,
       Connect i j l ∈ [AcceptStates [0; 1; 2]; Connect 0 1 0; Connect 0 2 1;
                        Connect 2 0 0; Connect 2 1 1] →
       ∃ s, sts !! i = Some s ∧
            DetermineTask.IsRequired Scenarios.pruned s = true ∧
            (LettersOK Scenarios.pruned →
             sts !! j = Some (DetermineTask.Next Scenarios.pruned s l))) ∧
    (∀ s, reach Scenarios.pruned s → s ∈ sts).
Proof.
  apply (C9_from_is_discovery_index Scenarios.pruned 5).
  vm_compute. reflexivity.
Defined.

Lemma C10_states_distinct_witness :
  ∃ sts conn,
    [AcceptStates [1; 3]; Connect 0 1 97; Connect 0 0 98;
     Connect 1 1 97; Connect 1 0 98] = AcceptStates sts :: conn ∧
    NoDup sts ∧
    (∀ s, reach Scenarios.subsets s ↔ ∃ i, sts !! i = Some s) ∧
    (∀ i j s, sts !! i = Some s → sts !! j = Some s → i = j).
Proof.
  apply (C10_states_distinct Scenarios.subsets 10). vm_compute. reflexivity.
Defined.

(** * Properties of the partition operations *)

Section PartitionFacts.
Context {T : Type} `{EqDecision T, Inhabited T}.
Implicit Types (p q : Partition T) (c : T * (nat * list T)).
Implicit Types (Eq : T → T → bool) (D : T → Prop).

Lemma members_cons c p : members (c :: p) = c.2.2 ++ members p.
Proof. done. Qed.

Lemma members_app p q : members (p ++ q) = members p ++ members q.
Proof. apply bind_app. Qed.

Lemma elem_of_members p x : x ∈ members p ↔ ∃ c, c ∈ p ∧ x ∈ c.2.2.
Proof.
  unfold members. rewrite list_elem_of_bind.
  split; intros (c & Hc1 & Hc2); by exists c.
Qed.

Lemma ClassesBy_cons Eq c p :
  ClassesBy Eq (c :: p) ↔
  (∀ a b, a ∈ c.2.2 → b ∈ c.2.2 → Eq a b = true) ∧ ClassesBy Eq p.
Proof.
  unfold ClassesBy. split.
  - intros Hall. split.
    + intros a b. apply Hall. left.
    + intros c' a b Hc'. apply Hall. by right.
  - intros [Hc Hp] c' a b [->|Hc']%elem_of_cons; [apply Hc|by apply Hp].
Qed.

Lemma ClassesBy_app Eq p q :
  ClassesBy Eq (p ++ q) ↔ ClassesBy Eq p ∧ ClassesBy Eq q.
Proof.
  unfold ClassesBy. split.
  - intros Hall. split; intros c a b Hc; apply Hall, elem_of_app; auto.
  - intros [Hp Hq] c a b [Hc|Hc]%elem_of_app; [by apply Hp|by apply Hq].
Qed.

Lemma Append_from_length idx Eq x p :
  length p ≤ length (Append_from idx Eq x p) ≤ S (length p).
Proof.
  revert idx. induction p as [|c p IH]; intros idx; simpl; [lia|].
  destruct (existsb (Eq x) c.2.2); simpl; [lia|].
  specialize (IH (S idx)). lia.
Qed.

Lemma Append_from_members idx Eq x p :
  members (Append_from idx Eq x p) ≡ₚ members p ++ [x].
Proof.
  revert idx. induction p as [|c p IH]; intros idx; simpl; [done|].
  destruct (existsb (Eq x) c.2.2).
  - rewrite !members_cons. simpl.
    rewrite <-!app_assoc. f_equiv. apply Permutation_app_comm.
  - rewrite !members_cons, IH. by rewrite app_assoc.
Qed.

Lemma Append_from_heads idx Eq x p :
  Forall (λ c, head c.2.2 = Some c.1) p →
  Forall (λ c, head c.2.2 = Some c.1) (Append_from idx Eq x p).
Proof.
  revert idx. induction p as [|c p IH]; intros idx Hp; simpl.
  - by repeat constructor.
  - apply Forall_cons in Hp as [Hc Hp].
    destruct (existsb (Eq x) c.2.2).
    + constructor; [|done]. simpl.
      destruct (c.2.2); [done|by simplify_eq/=].
    + constructor; [done|by apply IH].
Qed.

Lemma Append_from_indexed idx Eq x p :
  (λ c, c.2.1) <$> p = seq idx (length p) →
  (λ c, c.2.1) <$> Append_from idx Eq x p
  = seq idx (length (Append_from idx Eq x p)).
Proof.
  revert idx. induction p as [|c p IH]; intros idx Hp; simpl; [done|].
  simpl in Hp. injection Hp as Hc Hp.
  destruct (existsb (Eq x) c.2.2); simpl.
  - by rewrite Hc, Hp.
  - by rewrite Hc, IH.
Qed.

Lemma Append_from_ClassesBy D idx Eq x p :
  EquivOn D Eq → D x → (∀ y, y ∈ members p → D y) →
  ClassesBy Eq p → ClassesBy Eq (Append_from idx Eq x p).
Proof.
  intros (Hrefl & Hsym & Htrans) Hx. revert idx.
  induction p as [|c p IH]; intros idx HD Hp; simpl.
  - apply ClassesBy_cons. split; [|done]. simpl.
    intros a b ->%list_elem_of_singleton ->%list_elem_of_singleton. by apply Hrefl.
  - apply ClassesBy_cons in Hp as [Hc Hp].
    assert (∀ y, y ∈ c.2.2 → D y) as HDc.
    { intros y Hy. apply HD. rewrite members_cons. apply elem_of_app. by left. }
    destruct (existsb (Eq x) c.2.2) eqn:Hex.
    + apply ClassesBy_cons. split; [|done]. simpl.
      apply existsb_exists in Hex as (y & Hy%list_elem_of_In & Hxy).
      intros a b [Ha| ->%list_elem_of_singleton]%elem_of_app
                 [Hb| ->%list_elem_of_singleton]%elem_of_app.
      * by apply Hc.
      * apply (Htrans a y x); auto.
      * apply (Htrans x y b); auto.
      * by apply Hrefl.
    + apply ClassesBy_cons. split; [done|]. apply IH; [|done].
      intros y Hy. apply HD. rewrite members_cons. apply elem_of_app. by right.
Qed.

(** Appending the members of a list one by one. *)
Lemma foldl_Append_length Eq ms p :
  length p ≤ length (foldl (λ p x, Append Eq x p) p ms).
Proof.
  revert p. induction ms as [|x ms IH]; intros p; simpl; [done|].
  etrans; [|apply IH]. apply Append_from_length.
Qed.

Lemma foldl_Append_members Eq ms p :
  members (foldl (λ p x, Append Eq x p) p ms) ≡ₚ members p ++ ms.
Proof.
  revert p. induction ms as [|x ms IH]; intros p; simpl.
  - by rewrite app_nil_r.
  - rewrite IH. unfold Append. rewrite Append_from_members.
    by rewrite <-app_assoc.
Qed.

Lemma foldl_Append_WF Eq ms p :
  PartWF p → PartWF (foldl (λ p x, Append Eq x p) p ms).
Proof.
  revert p. induction ms as [|x ms IH]; intros p [Hh Hi]; simpl; [done|].
  apply IH. split.
  - by apply Append_from_heads.
  - by apply Append_from_indexed.
Qed.

Lemma foldl_Append_ClassesBy D Eq ms p :
  EquivOn D Eq → (∀ y, y ∈ ms → D y) → (∀ y, y ∈ members p → D y) →
  ClassesBy Eq p → ClassesBy Eq (foldl (λ p x, Append Eq x p) p ms).
Proof.
  intros Heq. revert p. induction ms as [|x ms IH]; intros p Hms HD Hp; simpl;
    [done|].
  apply IH.
  - intros y Hy. apply Hms. by right.
  - intros y Hy. unfold Append in Hy. rewrite Append_from_members in Hy.
    apply elem_of_app in Hy as [Hy| ->%list_elem_of_singleton]; [by apply HD|].
    apply Hms. left.
  - eapply Append_from_ClassesBy; [done| |done..]. apply Hms. left.
Qed.

(** A class that stays in one piece stays as it is. *)
Lemma foldl_Append_single Eq ms r i ms0 :
  length (foldl (λ p x, Append Eq x p) [(r, (i, ms0))] ms) = 1 →
  foldl (λ p x, Append Eq x p) [(r, (i, ms0))] ms = [(r, (i, ms0 ++ ms))].
Proof.
  revert ms0. induction ms as [|x ms IH]; intros ms0 Hlen; simpl in *.
  - by rewrite app_nil_r.
  - unfold Append in *. simpl in *.
    destruct (existsb (Eq x) ms0).
    + rewrite IH by done. by rewrite <-app_assoc.
    + pose proof (foldl_Append_length Eq ms
                    [(r, (i, ms0)); (x, (1, [x]))]) as Hge.
      unfold Append in Hge. simpl in Hge. lia.
Qed.

Lemma regroup_members Eq ms : members (regroup Eq ms) ≡ₚ ms.
Proof. unfold regroup. by rewrite foldl_Append_members. Qed.

Lemma regroup_WF Eq ms : PartWF (regroup Eq ms).
Proof. apply foldl_Append_WF. by split. Qed.

Lemma regroup_ClassesBy D Eq ms :
  EquivOn D Eq → (∀ y, y ∈ ms → D y) → ClassesBy Eq (regroup Eq ms).
Proof.
  intros Heq Hms. eapply foldl_Append_ClassesBy; try done.
  - by intros y ?%elem_of_nil.
  - by intros c a b ?%elem_of_nil.
Qed.

Lemma regroup_nonempty Eq x ms : 1 ≤ length (regroup Eq (x :: ms)).
Proof.
  unfold regroup. simpl. etrans; [|apply foldl_Append_length]. done.
Qed.

Lemma regroup_single Eq x ms :
  length (regroup Eq (x :: ms)) = 1 →
  regroup Eq (x :: ms) = [(x, (0, x :: ms))].
Proof.
  unfold regroup. simpl. unfold Append at 2 4. simpl.
  intros Hlen. by rewrite foldl_Append_single.
Qed.

(** Re-indexing touches nothing but the class indices. *)
Lemma reindex_lookup q k :
  reindex q !! k = (λ c, (c.1, (k, c.2.2))) <$> q !! k.
Proof. unfold reindex. apply list_lookup_imap. Qed.

Lemma elem_of_reindex q c :
  c ∈ reindex q → ∃ c', c' ∈ q ∧ c.1 = c'.1 ∧ c.2.2 = c'.2.2.
Proof.
  intros [k Hk]%list_elem_of_lookup_1. rewrite reindex_lookup in Hk.
  destruct (q !! k) as [c'|] eqn:Hq; simplify_eq/=.
  exists c'. split; [by eapply list_elem_of_lookup_2|done].
Qed.

Lemma members_reindex q : members (reindex q) = members q.
Proof.
  unfold reindex, members.
  generalize (λ i : nat, i). intros g.
  change (imap (λ i c, (c.1, (i, c.2.2))) q)
    with (imap (λ i c, (c.1, (id i, c.2.2))) q).
  generalize (@id nat). clear g. intros g. revert g.
  induction q as [|c q IH]; intros g; [done|].
  rewrite imap_cons, !bind_cons. simpl. f_equal. apply (IH (g ∘ S)).
Qed.

Lemma reindex_WF q :
  Forall (λ c, head c.2.2 = Some c.1) q → PartWF (reindex q).
Proof.
  intros Hq. split.
  - apply Forall_lookup. intros k c Hk. rewrite reindex_lookup in Hk.
    destruct (q !! k) as [c'|] eqn:Hq'; simplify_eq/=.
    by eapply (Forall_lookup_1 _ _ _ _ Hq).
  - apply list_eq. intros k.
    rewrite list_lookup_fmap, reindex_lookup. unfold reindex.
    rewrite length_imap.
    destruct (q !! k) as [c'|] eqn:Hq'; simpl.
    + rewrite lookup_seq_lt; [done|]. by eapply lookup_lt_Some.
    + rewrite lookup_seq_ge; [done|]. by apply lookup_ge_None.
Qed.

Lemma reindex_shape q q' :
  (λ c, (c.1, c.2.2)) <$> q = (λ c, (c.1, c.2.2)) <$> q' →
  reindex q = reindex q'.
Proof.
  intros Hshape. apply list_eq. intros k. rewrite !reindex_lookup.
  apply (f_equal (λ l, l !! k)) in Hshape.
  rewrite !list_lookup_fmap in Hshape.
  destruct (q !! k) as [[r [i ms]]|], (q' !! k) as [[r' [i' ms']]|];
    by simplify_eq/=.
Qed.

Lemma reindex_id p : PartWF p → reindex p = p.
Proof.
  intros [_ Hidx]. apply list_eq. intros k. rewrite reindex_lookup.
  apply (f_equal (λ l, l !! k)) in Hidx.
  rewrite list_lookup_fmap in Hidx.
  destruct (p !! k) as [[r [i ms]]|] eqn:Hp; simpl in *; [|done].
  rewrite lookup_seq_lt in Hidx by by eapply lookup_lt_Some.
  by simplify_eq/=.
Qed.

Lemma ClassesBy_Refines Eq q p :
  Refines q p → ClassesBy Eq p → ClassesBy Eq q.
Proof.
  intros Href Hp c a b Hc Ha Hb.
  destruct (Href c Hc) as (c' & Hc' & Hsub).
  apply (Hp c'); [done|by apply Hsub..].
Qed.

(** Every class re-partitioned under [Eq]. *)
Lemma bind_regroup_members Eq p :
  members (p ≫= λ c, regroup Eq c.2.2) ≡ₚ members p.
Proof.
  induction p as [|c p IH]; [done|].
  rewrite bind_cons, members_app, members_cons, IH.
  by rewrite regroup_members.
Qed.

Lemma bind_regroup_heads Eq p :
  Forall (λ c, head c.2.2 = Some c.1) (p ≫= λ c, regroup Eq c.2.2).
Proof.
  induction p as [|c p IH]; [done|].
  rewrite bind_cons. apply Forall_app. split; [|done].
  apply regroup_WF.
Qed.

Lemma bind_regroup_ClassesBy D Eq p :
  EquivOn D Eq → (∀ y, y ∈ members p → D y) →
  ClassesBy Eq (p ≫= λ c, regroup Eq c.2.2).
Proof.
  intros Heq. induction p as [|c p IH]; intros HD.
  - by intros c a b ?%elem_of_nil.
  - rewrite bind_cons. apply ClassesBy_app. split.
    + eapply regroup_ClassesBy; [done|].
      intros y Hy. apply HD. rewrite members_cons. apply elem_of_app. by left.
    + apply IH. intros y Hy. apply HD.
      rewrite members_cons. apply elem_of_app. by right.
Qed.

Lemma bind_regroup_Refines Eq p :
  Refines (p ≫= λ c, regroup Eq c.2.2) p.
Proof.
  intros c (c' & Hc & Hc')%list_elem_of_bind.
  exists c'. split; [done|]. intros x Hx.
  rewrite <-(regroup_members Eq c'.2.2). apply elem_of_members. by exists c.
Qed.

Lemma bind_regroup_length Eq p :
  Forall (λ c, head c.2.2 = Some c.1) p →
  length p ≤ length (p ≫= λ c, regroup Eq c.2.2) ∧
  (length (p ≫= λ c, regroup Eq c.2.2) = length p →
   (λ c, (c.1, c.2.2)) <$> (p ≫= λ c, regroup Eq c.2.2)
   = (λ c, (c.1, c.2.2)) <$> p).
Proof.
  induction p as [|[r [i ms]] p IH]; intros Hp; [done|].
  apply Forall_cons in Hp as [Hc Hp]. destruct (IH Hp) as [Hle Hsame].
  simpl in Hc. destruct ms as [|x ms]; [done|]. simpl in Hc. simplify_eq.
  rewrite bind_cons, length_app. simpl.
  pose proof (regroup_nonempty Eq r ms) as Hne. split; [lia|].
  intros Hlen. rewrite fmap_app, Hsame by lia.
  rewrite (regroup_single Eq r ms) by lia. done.
Qed.

(** The facts about [Split] the refinement loop relies on. *)
Lemma Split_length Eq p : PartWF p → length p ≤ length (Split Eq p).
Proof.
  intros [Hh _]. unfold Split, reindex. rewrite length_imap.
  by apply bind_regroup_length.
Qed.

Lemma Split_same Eq p :
  PartWF p → length (Split Eq p) = length p → Split Eq p = p.
Proof.
  intros Hwf Hlen. unfold Split in *. unfold reindex in Hlen.
  rewrite length_imap in Hlen.
  rewrite <-(reindex_id p Hwf) at 2. apply reindex_shape.
  apply bind_regroup_length; [apply Hwf|done].
Qed.

Lemma Split_WF Eq p : PartWF (Split Eq p).
Proof. apply reindex_WF, bind_regroup_heads. Qed.

Lemma Split_members Eq p : members (Split Eq p) ≡ₚ members p.
Proof. unfold Split. by rewrite members_reindex, bind_regroup_members. Qed.

Lemma Split_Refines Eq p : Refines (Split Eq p) p.
Proof.
  intros c (c' & Hc' & _ & Hms)%elem_of_reindex.
  destruct (bind_regroup_Refines Eq p c' Hc') as (c0 & Hc0 & Hsub).
  exists c0. split; [done|]. by rewrite Hms.
Qed.

Lemma Split_ClassesBy D Eq p :
  EquivOn D Eq → (∀ y, y ∈ members p → D y) → ClassesBy Eq (Split Eq p).
Proof.
  intros Heq HD c a b (c' & Hc' & _ & Hms)%elem_of_reindex.
  rewrite Hms. by apply (bind_regroup_ClassesBy D Eq p Heq HD c').
Qed.

(** Representatives and classes. *)
Lemma class_unique p c c' x :
  NoDup (members p) → c ∈ p → c' ∈ p → x ∈ c.2.2 → x ∈ c'.2.2 → c = c'.
Proof.
  induction p as [|c0 p IH]; intros Hnd Hc Hc' Hx Hx'.
  - by apply elem_of_nil in Hc.
  - rewrite members_cons in Hnd. apply NoDup_app in Hnd as (_ & Hdisj & Hnd).
    apply elem_of_cons in Hc as [->|Hc], Hc' as [->|Hc']; try done.
    + destruct (Hdisj x Hx). apply elem_of_members. by exists c'.
    + destruct (Hdisj x Hx'). apply elem_of_members. by exists c.
    + by apply IH.
Qed.

Lemma Representative_class p c x :
  NoDup (members p) → c ∈ p → x ∈ c.2.2 → Representative p x = c.1.
Proof.
  intros Hnd Hc Hx. unfold Representative.
  destruct (find _ p) as [c'|] eqn:Hfind; simpl.
  - apply find_some in Hfind as [Hc'%list_elem_of_In Hx'%bool_decide_eq_true].
    f_equal. by eapply class_unique.
  - apply list_elem_of_In in Hc. apply (find_none _ _ Hfind) in Hc.
    by apply bool_decide_eq_false in Hc.
Qed.

Lemma SameClass_Representative p a b :
  NoDup (members p) → SameClass p a b →
  Representative p a = Representative p b.
Proof.
  intros Hnd (c & Hc & Ha & Hb).
  by rewrite (Representative_class p c a), (Representative_class p c b).
Qed.

Lemma Representative_SameClass p a b :
  NoDup (members p) → Forall (λ c, head c.2.2 = Some c.1) p →
  a ∈ members p → b ∈ members p →
  Representative p a = Representative p b → SameClass p a b.
Proof.
  intros Hnd Hh (ca & Hca & Ha)%elem_of_members (cb & Hcb & Hb)%elem_of_members.
  rewrite (Representative_class p ca a), (Representative_class p cb b) by done.
  intros Heq.
  assert (ca.1 ∈ ca.2.2) as Hra.
  { apply head_Some_elem_of. by eapply (proj1 (Forall_forall _ _) Hh). }
  assert (ca.1 ∈ cb.2.2) as Hrb.
  { rewrite Heq. apply head_Some_elem_of.
    by eapply (proj1 (Forall_forall _ _) Hh). }
  assert (ca = cb) as -> by by eapply class_unique.
  by exists cb.
Qed.

End PartitionFacts.

(** * Properties of [Minimize] *)

Section MinimizeFacts.
Variable MaxChar : nat.
Variable task : MinimizeTask.t.
Import MinimizeTask.

Lemma MinimizeEquality_task tbl letters a b :
  MinimizeEquality MaxChar tbl letters None (Some task) a b
  = SameClasses task a b.
Proof. unfold MinimizeEquality. simpl. by destruct (SameClasses task a b). Qed.

Lemma MinimizeEquality_prev tbl letters prev a b :
  MinimizeEquality MaxChar tbl letters (Some prev) None a b = true ↔
  prev !!! a = prev !!! b ∧
  ∀ letter, letter ∈ letters →
    prev !!! MinimizeEquality_Next MaxChar tbl a letter
    = prev !!! MinimizeEquality_Next MaxChar tbl b letter.
Proof.
  unfold MinimizeEquality. simpl. case_bool_decide as Hab.
  - split; [done|]. by intros [? _].
  - rewrite forallb_forall. split.
    + intros Hall. split; [done|]. intros letter Hl%list_elem_of_In.
      by apply Hall, bool_decide_eq_true in Hl.
    + intros [_ Hall] letter Hl%list_elem_of_In.
      by apply bool_decide_eq_true, Hall.
Qed.

Lemma MinimizeEquality_prev_equiv tbl letters prev :
  EquivOn (λ _, True)
          (MinimizeEquality MaxChar tbl letters (Some prev) None).
Proof.
  split_and!.
  - intros a _. by apply MinimizeEquality_prev.
  - intros a b _ _ [Hab Hall]%MinimizeEquality_prev.
    apply MinimizeEquality_prev. split; [done|].
    intros letter Hl. symmetry. by apply Hall.
  - intros a b c _ _ _ [Hab Hall]%MinimizeEquality_prev
                       [Hbc Hall']%MinimizeEquality_prev.
    apply MinimizeEquality_prev. split; [congruence|].
    intros letter Hl. etrans; [by apply Hall|by apply Hall'].
Qed.

(** [UpdateStateClassMap] rewrites the map to the representatives and
    reports whether that changed it. *)
Lemma UpdateStateClassMap_spec clMap p ch m :
  UpdateStateClassMap clMap p = Some (ch, m) →
  clMap ≠ [] ∧
  m = Representative p <$> seq 0 (length clMap) ∧
  (ch = false ↔ clMap = m).
Proof.
  unfold UpdateStateClassMap. case_bool_decide as Hne; [done|].
  intros [= Hfold]. split; [done|].
  set (f := λ (acc : bool * list nat) st,
              let cl := Representative p st in
              if bool_decide (acc.2 !!! st ≠ cl)
              then (true, <[st := cl]> acc.2) else acc) in Hfold.
  set (run := λ k, foldl f (false, clMap) (seq 0 k)).
  assert (∀ k, k ≤ length clMap →
            length (run k).2 = length clMap ∧
            (∀ i, i < k → (run k).2 !! i = Some (Representative p i)) ∧
            (∀ i, k ≤ i → (run k).2 !! i = clMap !! i) ∧
            ((run k).1 = false ↔
             ∀ i, i < k → clMap !! i = Some (Representative p i))) as Hinv.
  { induction k as [|k IH]; intros Hk.
    - simpl. split_and!; [done|intros; lia|done|]. split; [intros; lia|done].
    - destruct IH as (Hlen & Hlow & Hhigh & Hflag); [lia|].
      assert ((run k).2 !! k = clMap !! k) as Hk' by by apply Hhigh.
      destruct (lookup_lt_is_Some_2 clMap k) as [v Hv]; [lia|].
      rewrite Hv in Hk'.
      assert (run (S k)
              = if bool_decide (v ≠ Representative p k)
                then (true, <[k := Representative p k]> (run k).2)
                else run k) as ->.
      { unfold run. rewrite seq_S, foldl_app. simpl. unfold f at 1. simpl.
        fold (run k). by rewrite (list_lookup_total_correct _ _ _ Hk'). }
      case_bool_decide as Hcase; simpl.
      + split_and!.
        * by rewrite length_insert.
        * intros i Hi. destruct (decide (i = k)) as [->|Hik].
          -- apply list_lookup_insert_eq. lia.
          -- rewrite list_lookup_insert_ne by done. apply Hlow. lia.
        * intros i Hi. rewrite list_lookup_insert_ne by lia. apply Hhigh. lia.
        * split; [done|]. intros Hall. specialize (Hall k).
          rewrite Hv in Hall. destruct Hcase.
          assert (Some v = Some (Representative p k)) as [= ->]
            by (apply Hall; lia).
          done.
      + subst v. split_and!.
        * done.
        * intros i Hi. destruct (decide (i = k)) as [->|Hik]; [done|].
          apply Hlow. lia.
        * intros i Hi. apply Hhigh. lia.
        * rewrite Hflag. split.
          -- intros Hall i Hi. destruct (decide (i = k)) as [->|Hik]; [done|].
             apply Hall. lia.
          -- intros Hall i Hi. apply Hall. lia. }
  specialize (Hinv (length clMap) (reflexivity _)).
  unfold run in Hinv. rewrite Hfold in Hinv. simpl in Hinv.
  destruct Hinv as (Hlen & Hlow & _ & Hflag).
  assert (m = Representative p <$> seq 0 (length clMap)) as Hm.
  { apply list_eq. intros i. rewrite list_lookup_fmap.
    destruct (decide (i < length clMap)) as [Hi|Hi].
    - rewrite lookup_seq_lt by done. by apply Hlow.
    - rewrite lookup_seq_ge by lia. apply lookup_ge_None. lia. }
  split; [done|]. rewrite Hflag. split.
  - intros Hall. apply list_eq. intros i.
    destruct (decide (i < length clMap)) as [Hi|Hi].
    + rewrite Hall, Hlow by done. done.
    + rewrite !(lookup_ge_None_2 _ i) by lia. done.
  - intros Heq i Hi. rewrite Heq at 1. by apply Hlow.
Qed.

Lemma UpdateStateClassMap_is_Some clMap p :
  clMap ≠ [] → is_Some (UpdateStateClassMap clMap p).
Proof. intros Hne. unfold UpdateStateClassMap. by rewrite bool_decide_eq_false_2. Qed.

(** The transition table. *)
Lemma offset_inj (from a letter letter' : nat) :
  letter < MaxChar → letter' < MaxChar →
  from * MaxChar + letter' = a * MaxChar + letter →
  from = a ∧ letter' = letter.
Proof.
  intros Hl Hl' Heq.
  apply (Nat.div_mod_unique MaxChar); [done..|]. lia.
Qed.

Lemma fill_members_length from next ms tbl :
  length (fill_members MaxChar from next ms tbl) = length tbl.
Proof.
  revert tbl. induction ms as [|letter ms IH]; intros tbl; simpl; [done|].
  unfold fill_members in *. simpl. by rewrite IH, length_insert.
Qed.

Lemma fill_members_other from next ms tbl k :
  (∀ letter, letter ∈ ms → k ≠ from * MaxChar + letter) →
  fill_members MaxChar from next ms tbl !! k = tbl !! k.
Proof.
  revert tbl. induction ms as [|letter ms IH]; intros tbl Hk; [done|].
  unfold fill_members in *. simpl. rewrite IH.
  - apply list_lookup_insert_ne. intros Heq. by apply (Hk letter); [left|].
  - intros l Hl. apply Hk. by right.
Qed.

Lemma fill_members_hit from next ms tbl letter :
  letter ∈ ms → from * MaxChar + letter < length tbl →
  fill_members MaxChar from next ms tbl !! (from * MaxChar + letter)
  = Some next.
Proof.
  revert tbl. induction ms as [|l ms IH]; intros tbl Hin Hlt.
  - by apply elem_of_nil in Hin.
  - unfold fill_members in *. simpl.
    destruct (decide (letter ∈ ms)) as [Hms|Hms].
    + apply IH; [done|]. by rewrite length_insert.
    + apply elem_of_cons in Hin as [->|Hin]; [|done].
      fold (fill_members MaxChar from next ms
              (<[from * MaxChar + l := next]> tbl)).
      rewrite fill_members_other.
      * by apply list_lookup_insert_eq.
      * intros l' Hl' Heq. assert (l' = l) as -> by lia. done.
Qed.

Lemma fill_froms_length (rep : Char) ms froms tbl :
  length (foldl (λ tbl from,
                   fill_members MaxChar from (Next task from rep) ms tbl)
                tbl froms) = length tbl.
Proof.
  revert tbl. induction froms as [|f froms IH]; intros tbl; simpl; [done|].
  by rewrite IH, fill_members_length.
Qed.

Lemma fill_froms_other (rep : Char) ms froms tbl k :
  (∀ from letter, from ∈ froms → letter ∈ ms →
     k ≠ from * MaxChar + letter) →
  foldl (λ tbl from, fill_members MaxChar from (Next task from rep) ms tbl)
        tbl froms !! k = tbl !! k.
Proof.
  revert tbl. induction froms as [|f froms IH]; intros tbl Hk; simpl; [done|].
  rewrite IH.
  - apply fill_members_other. intros l Hl. apply Hk; [left|done].
  - intros from l Hf Hl. apply Hk; [by right|done].
Qed.

Lemma fill_froms_hit (rep : Char) ms froms tbl a letter :
  a ∈ froms → letter ∈ ms → (∀ l, l ∈ ms → l < MaxChar) →
  a * MaxChar + letter < length tbl →
  foldl (λ tbl from, fill_members MaxChar from (Next task from rep) ms tbl)
        tbl froms !! (a * MaxChar + letter) = Some (Next task a rep).
Proof.
  intros Ha Hl Hms. revert tbl Ha.
  induction froms as [|f froms IH]; intros tbl Ha Hlt.
  - by apply elem_of_nil in Ha.
  - simpl. destruct (decide (a ∈ froms)) as [Hin|Hin].
    + apply IH; [done|]. by rewrite fill_members_length.
    + apply elem_of_cons in Ha as [->|Ha]; [|done].
      rewrite fill_froms_other.
      * by apply fill_members_hit.
      * intros from l Hfrom Hl' Heq.
        destruct (offset_inj from f letter l) as [-> _]; auto.
Qed.

Lemma fill_class_length e tbl :
  length (fill_class MaxChar task e tbl) = length tbl.
Proof. apply fill_froms_length. Qed.

Lemma fill_classes_length (ls : LettersTbl) tbl :
  length (foldl (λ tbl letters, fill_class MaxChar task letters tbl) tbl ls)
  = length tbl.
Proof.
  revert tbl. induction ls as [|e ls IH]; intros tbl; simpl; [done|].
  by rewrite IH, fill_class_length.
Qed.

Lemma fill_classes_other (ls : LettersTbl) tbl a letter :
  (∀ l, l ∈ members ls → l < MaxChar) → letter < MaxChar →
  letter ∉ members ls →
  foldl (λ tbl letters, fill_class MaxChar task letters tbl) tbl ls
  !! (a * MaxChar + letter) = tbl !! (a * MaxChar + letter).
Proof.
  revert tbl. induction ls as [|e ls IH]; intros tbl Hms Hl Hnotin; simpl;
    [done|].
  rewrite members_cons in Hms, Hnotin. rewrite IH.
  - apply fill_froms_other. intros from l Hfrom Hl' Heq.
    destruct (offset_inj from a letter l) as [_ ->]; auto.
    + apply Hms, elem_of_app. by left.
    + apply Hnotin, elem_of_app. by left.
  - intros l Hl'. apply Hms, elem_of_app. by right.
  - done.
  - intros Hin. apply Hnotin, elem_of_app. by right.
Qed.

Lemma fill_classes_hit (ls : LettersTbl) tbl a e letter :
  NoDup (members ls) → (∀ l, l ∈ members ls → l < MaxChar) →
  a < Size task → e ∈ ls → letter ∈ e.2.2 →
  a * MaxChar + letter < length tbl →
  foldl (λ tbl letters, fill_class MaxChar task letters tbl) tbl ls
  !! (a * MaxChar + letter) = Some (Next task a e.1).
Proof.
  intros Hnd Hms Ha. revert tbl Hnd Hms.
  induction ls as [|e0 ls IH]; intros tbl Hnd Hms He Hl Hlt.
  - by apply elem_of_nil in He.
  - simpl. rewrite members_cons in Hnd, Hms.
    apply NoDup_app in Hnd as (_ & Hdisj & Hnd).
    assert (∀ l, l ∈ members ls → l < MaxChar) as Hms'.
    { intros l Hl'. apply Hms, elem_of_app. by right. }
    destruct (decide (e ∈ ls)) as [Hin|Hin].
    + apply IH; try done. by rewrite fill_class_length.
    + apply elem_of_cons in He as [->|He]; [|done].
      rewrite fill_classes_other; [|done| |by apply Hdisj].
      * apply fill_froms_hit; try done.
        -- apply elem_of_seq. lia.
        -- intros l Hl'. apply Hms, elem_of_app. by left.
      * apply Hms, elem_of_app. by left.
Qed.

Lemma detTran_length : length (detTran MaxChar task) = Size task * MaxChar.
Proof. unfold detTran. by rewrite fill_classes_length, length_replicate. Qed.

(** On the symbols of a class the table holds the successor under the
    representative of that class. *)
Lemma detTran_hit a e letter :
  AlphabetOK MaxChar task → a < Size task →
  e ∈ Letters task → letter ∈ e.2.2 →
  MinimizeEquality_Next MaxChar (detTran MaxChar task) a letter
  = Next task a e.1.
Proof.
  intros (_ & Hnd & Hms) Ha He Hl.
  unfold MinimizeEquality_Next. apply list_lookup_total_correct.
  unfold detTran. apply fill_classes_hit; try done.
  rewrite length_replicate.
  assert (letter < MaxChar).
  { apply Hms, elem_of_members. by exists e. }
  nia.
Qed.

(** On the symbols of no class the table keeps its initial zero. *)
Lemma detTran_other a letter :
  AlphabetOK MaxChar task → a < Size task → letter < MaxChar →
  letter ∉ members (Letters task) →
  MinimizeEquality_Next MaxChar (detTran MaxChar task) a letter = 0.
Proof.
  intros (_ & Hnd & Hms) Ha Hl Hnotin.
  unfold MinimizeEquality_Next. apply list_lookup_total_correct.
  unfold detTran. rewrite fill_classes_other by done.
  apply lookup_replicate_2. nia.
Qed.

End MinimizeFacts.

Section MinimizeLoop.
Variable MaxChar : nat.
Variable task : MinimizeTask.t.
Import MinimizeTask.

Lemma heads_length_members (p : Partition nat) :
  Forall (λ c, head c.2.2 = Some c.1) p → length p ≤ length (members p).
Proof.
  induction p as [|[r [i ms]] p IH]; intros Hp; [done|].
  apply Forall_cons in Hp as [Hc Hp]. rewrite members_cons, length_app.
  simpl in *. destruct ms; [done|]. simpl. specialize (IH Hp). lia.
Qed.

Lemma PartInv_members p x :
  PartInv task p → x ∈ members p ↔ x < Size task.
Proof. intros [_ Hperm]. rewrite Hperm, elem_of_seq. lia. Qed.

Lemma PartInv_NoDup p : PartInv task p → NoDup (members p).
Proof. intros [_ Hperm]. rewrite Hperm. apply NoDup_seq. Qed.

Lemma PartInv_length p : PartInv task p → length p ≤ Size task.
Proof.
  intros [[Hh _] Hperm]. etrans; [by apply heads_length_members|].
  by rewrite Hperm, length_seq.
Qed.

Lemma PartInv_nonempty p : PartInv task p → 0 < Size task → 1 ≤ length p.
Proof.
  intros [_ Hperm] Hsize. destruct p; [|simpl; lia].
  apply Permutation_length in Hperm. rewrite length_seq in Hperm.
  simpl in Hperm. lia.
Qed.

Lemma initial_partition_Inv : PartInv task (initial_partition MaxChar task).
Proof.
  unfold initial_partition. split.
  - apply foldl_Append_WF. by split.
  - by rewrite foldl_Append_members.
Qed.

Lemma initial_partition_ClassesBy :
  SameClassesEquiv task →
  ClassesBy (SameClasses task) (initial_partition MaxChar task).
Proof.
  intros (Hrefl & Hsym & Htrans).
  set (Eq := MinimizeEquality MaxChar (detTran MaxChar task)
               (distinctLetters task) None (Some task)).
  assert (ClassesBy Eq (initial_partition MaxChar task)) as Hby.
  { unfold initial_partition.
    apply (foldl_Append_ClassesBy (λ a, a < Size task)).
    - unfold Eq. split_and!.
      + intros a Ha. rewrite MinimizeEquality_task. by apply Hrefl.
      + intros a b Ha Hb. rewrite !MinimizeEquality_task. by apply Hsym.
      + intros a b c Ha Hb Hc. rewrite !MinimizeEquality_task.
        by apply Htrans.
    - intros y Hy%elem_of_seq. lia.
    - by intros y ?%elem_of_nil.
    - by intros c a b ?%elem_of_nil. }
  intros c a b Hc Ha Hb. specialize (Hby c a b Hc Ha Hb).
  unfold Eq in Hby. by rewrite MinimizeEquality_task in Hby.
Qed.

Lemma Split_Inv Eq p : PartInv task p → PartInv task (Split Eq p).
Proof.
  intros [_ Hperm]. split; [apply Split_WF|]. by rewrite Split_members.
Qed.

Lemma class_map_length p : length (class_map task p) = Size task.
Proof. unfold class_map. by rewrite length_fmap, length_seq. Qed.

Lemma class_map_lookup p a :
  a < Size task → class_map task p !!! a = Representative p a.
Proof.
  intros Ha. apply list_lookup_total_correct. unfold class_map.
  by rewrite list_lookup_fmap, lookup_seq_lt.
Qed.

Lemma LoopInv_initial :
  SameClassesEquiv task →
  LoopInv MaxChar task (replicate (Size task) 0)
          (initial_partition MaxChar task).
Proof.
  intros Heq. split_and!.
  - apply initial_partition_Inv.
  - by rewrite length_replicate.
  - by apply initial_partition_ClassesBy.
  - by left.
Qed.

(** When the loop is left, the map is the class map of the partition and
    the invariant holds of both. *)
Lemma Minimize_loop_inv fuel clMap last rounds P n :
  LoopInv MaxChar task clMap last →
  Minimize_loop MaxChar task fuel clMap last rounds = Done (P, n) →
  LoopInv MaxChar task (class_map task P) P.
Proof.
  revert clMap last rounds.
  induction fuel as [|fuel IH]; intros clMap last rounds Hinv Hrun; [done|].
  simpl in Hrun.
  destruct (UpdateStateClassMap clMap last) as [[ch m]|] eqn:Hupd; [|done].
  apply UpdateStateClassMap_spec in Hupd as (Hne & Hm & Hch).
  destruct Hinv as (Hpart & Hlen & Hsame & Hprev).
  rewrite Hlen in Hm. fold (class_map task last) in Hm.
  destruct ch.
  - eapply IH; [|done]. split_and!.
    + by apply Split_Inv.
    + subst m. apply class_map_length.
    + eapply ClassesBy_Refines; [apply Split_Refines|done].
    + right. apply (Split_ClassesBy (λ _, True)); [|done].
      apply MinimizeEquality_prev_equiv.
  - simplify_eq. assert (clMap = class_map task P) as <- by by apply Hch.
    by split_and!.
Qed.

(** At the fixpoint, states of one class have their successors, under every
    representative symbol, in one class. *)
Lemma LoopInv_fixpoint P a b e :
  AlphabetOK MaxChar task → NextClosed task →
  LoopInv MaxChar task (class_map task P) P →
  SameClass P a b → e ∈ Letters task →
  SameClass P (Next task a e.1) (Next task b e.1).
Proof.
  intros Hok Hclosed (Hpart & _ & _ & Hprev) Hab He.
  assert (a < Size task ∧ b < Size task) as [Ha Hb].
  { destruct Hab as (c & Hc & Hca & Hcb).
    split; apply (PartInv_members P); try done; apply elem_of_members; eauto. }
  pose proof (Hclosed a e Ha He) as Hna.
  pose proof (Hclosed b e Hb He) as Hnb.
  apply Representative_SameClass.
  - by apply PartInv_NoDup.
  - apply Hpart.
  - by apply (PartInv_members P).
  - by apply (PartInv_members P).
  - rewrite <-!class_map_lookup by done.
    destruct Hprev as [Hzero|Hby].
    + rewrite Hzero. by rewrite !lookup_total_replicate_2.
    + destruct Hab as (c & Hc & Hca & Hcb).
      specialize (Hby c a b Hc Hca Hcb).
      apply MinimizeEquality_prev in Hby as [_ Hall].
      specialize (Hall e.1).
      assert (e.1 ∈ e.2.2) as Hrep by by apply Hok.
      rewrite !(detTran_hit MaxChar task _ e e.1) in Hall by done.
      apply Hall. unfold distinctLetters.
      by apply (list_elem_of_fmap_2 fst).
Qed.

(** More fuel does not change a run that ended. *)
Lemma Minimize_loop_fuel_mono fuel fuel' clMap last rounds r :
  fuel ≤ fuel' →
  Minimize_loop MaxChar task fuel clMap last rounds = Done r →
  Minimize_loop MaxChar task fuel' clMap last rounds = Done r.
Proof.
  revert fuel' clMap last rounds.
  induction fuel as [|fuel IH]; intros fuel' clMap last rounds Hle Hrun;
    [done|].
  destruct fuel' as [|fuel']; [lia|]. simpl in *.
  destruct (UpdateStateClassMap clMap last) as [[[] m]|]; try done.
  apply IH; [lia|done].
Qed.

(** One round: the partition is refined, and either stays as it is or
    gains a class. *)
Lemma Split_round Eq p :
  PartInv task p →
  PartInv task (Split Eq p) ∧ Refines (Split Eq p) p ∧
  (Split Eq p = p ∨ length p < length (Split Eq p)).
Proof.
  intros Hinv. split_and!.
  - by apply Split_Inv.
  - apply Split_Refines.
  - destruct Hinv as [Hwf _].
    pose proof (Split_length Eq p Hwf) as Hle.
    destruct (decide (length (Split Eq p) = length p)) as [Heq|Hne].
    + left. by apply Split_same.
    + right. lia.
Qed.

(** The loop ends within the number of classes that can still be split
    off, plus one round if the map is not yet that of the partition. *)
Lemma Minimize_loop_terminates fuel clMap last rounds :
  0 < Size task → PartInv task last → length clMap = Size task →
  (Size task - length last)
  + (if decide (clMap = class_map task last) then 0 else 1) < fuel →
  ∃ P n, Minimize_loop MaxChar task fuel clMap last rounds = Done (P, n) ∧
         n ≤ rounds + (Size task - length last)
                    + (if decide (clMap = class_map task last) then 0 else 1).
Proof.
  intros Hsize. revert clMap last rounds.
  induction fuel as [|fuel IH]; intros clMap last rounds Hinv Hlen Hfuel; [lia|].
  simpl.
  destruct (UpdateStateClassMap_is_Some clMap last) as [[ch m] Hupd].
  { intros ->. simpl in Hlen. lia. }
  rewrite Hupd.
  apply UpdateStateClassMap_spec in Hupd as (_ & Hm & Hch).
  rewrite Hlen in Hm. fold (class_map task last) in Hm. subst m.
  destruct ch.
  - destruct (decide (clMap = class_map task last)) as [Heq|_].
    { apply Hch in Heq. done. }
    set (Eq := MinimizeEquality MaxChar (detTran MaxChar task)
                 (distinctLetters task) (Some (class_map task last)) None).
    destruct (Split_round Eq last Hinv) as (Hinv' & _ & Hcase).
    pose proof (PartInv_length _ Hinv') as Hbound.
    destruct (IH (class_map task last) (Split Eq last) (S rounds))
      as (P & n & Hrun & Hn); [done|apply class_map_length| |].
    + destruct Hcase as [->|Hlt].
      * rewrite decide_True by done. lia.
      * destruct (decide _); lia.
    + exists P, n. split; [done|].
      destruct Hcase as [Hsame|Hlt].
      * rewrite Hsame in Hn. rewrite decide_True in Hn by done. lia.
      * destruct (decide _); lia.
  - exists last, rounds. split; [done|]. lia.
Qed.

End MinimizeLoop.

(** ** The claims about [Minimize] *)

(** C4: after a successful [Minimize] (the task's [SameClasses] being an
    equivalence, its alphabet partition a partition of symbols below
    [MaxChar], its [Next] closed over the states), two states of one class
    of the partition handed to [AcceptPartition] satisfy [SameClasses], and
    their successors under the representative of every alphabet class lie
    in one class of that partition, and so do, for every symbol below
    [MaxChar], their successors as the transition table of the driver
    records them, which for the symbols of a class are the task's [Next]
    under the representative of the class. *)
Theorem C4_minimize_sound (MaxChar : nat) (task : MinimizeTask.t)
    (fuel : nat) (tr : list MinimizeEvent) :
  SameClassesEquiv task → AlphabetOK MaxChar task → NextClosed task →
  Minimize MaxChar task fuel = Done (Success, tr) →
  ∃ P, tr = [AcceptPartition P] ∧
    ∀ a b, SameClass P a b →
      MinimizeTask.SameClasses task a b = true ∧
      (∀ e, e ∈ MinimizeTask.Letters task →
         SameClass P (MinimizeTask.Next task a e.1)
                     (MinimizeTask.Next task b e.1)) ∧
      (∀ e letter, e ∈ MinimizeTask.Letters task → letter ∈ e.2.2 →
         MinimizeEquality_Next MaxChar (detTran MaxChar task) a letter
         = MinimizeTask.Next task a e.1 ∧
         MinimizeEquality_Next MaxChar (detTran MaxChar task) b letter
         = MinimizeTask.Next task b e.1) ∧
      (∀ letter, letter < MaxChar →
         SameClass P
           (MinimizeEquality_Next MaxChar (detTran MaxChar task) a letter)
           (MinimizeEquality_Next MaxChar (detTran MaxChar task) b letter)).
Proof.
  intros Heq Hok Hclosed. unfold Minimize.
  destruct (MinimizeTask.IsDetermined task); simpl; [|done].
  destruct (Minimize_loop MaxChar task fuel _ _ 0) as [[P n]| |] eqn:Hrun;
    [|done..].
  intros [= <-]. exists P. split; [done|].
  pose proof (Minimize_loop_inv MaxChar task _ _ _ _ _ _
                (LoopInv_initial MaxChar task Heq) Hrun) as Hinv.
  intros a b Hab.
  assert (a < MinimizeTask.Size task ∧ b < MinimizeTask.Size task) as [Ha Hb].
  { destruct Hab as (c & Hc & Hca & Hcb). destruct Hinv as (Hpart & _).
    split; apply (PartInv_members task P); try done;
      apply elem_of_members; eauto. }
  split_and!.
  - destruct Hinv as (_ & _ & Hsame & _).
    destruct Hab as (c & Hc & Hca & Hcb). by apply (Hsame c).
  - intros e He. by apply (LoopInv_fixpoint MaxChar task).
  - intros e letter He Hl. by rewrite !(detTran_hit MaxChar task _ e letter).
  - intros letter Hl.
    destruct (decide (letter ∈ members (MinimizeTask.Letters task)))
      as [Hin|Hin].
    + apply elem_of_members in Hin as (e & He & Hle).
      rewrite !(detTran_hit MaxChar task _ e letter) by done.
      by apply (LoopInv_fixpoint MaxChar task).
    + rewrite !detTran_other by done.
      destruct Hinv as (Hpart & _).
      assert (0 ∈ members P) as (c & Hc & H0)%elem_of_members.
      { apply (PartInv_members task P); [done|lia]. }
      by exists c.
Qed.

(** C5: for a task that is not determined [Minimize] returns [Failure]
    with no sink called, whatever the rest of the task and however little
    the loop would be allowed to run. *)
Theorem C5_not_determined (MaxChar : nat) (task : MinimizeTask.t)
    (fuel : nat) :
  MinimizeTask.IsDetermined task = false →
  Minimize MaxChar task fuel = Done (Failure, []).
Proof. intros Hdet. unfold Minimize. by rewrite Hdet. Qed.

(** C8: the refinement loop of [Minimize] ends after at most [Size] rounds
    (given more fuel than that, and with the same result for any larger
    amount), so that [Minimize] returns [Success] for a determined task; the
    loop starts from a partition of the states, and each round leaves a
    partition of the states that refines the previous one and either equals
    it or has more classes, of which there are never more than [Size]; a
    round after which the class map changed has added a class. *)
Theorem C8_refinement_terminates (MaxChar : nat) (task : MinimizeTask.t)
    (fuel : nat) :
  0 < MinimizeTask.Size task → MinimizeTask.Size task < fuel →
  (∃ P n,
     Minimize_loop MaxChar task fuel
       (replicate (MinimizeTask.Size task) 0)
       (initial_partition MaxChar task) 0 = Done (P, n) ∧
     n ≤ MinimizeTask.Size task ∧
     (∀ fuel', fuel ≤ fuel' →
        Minimize_loop MaxChar task fuel'
          (replicate (MinimizeTask.Size task) 0)
          (initial_partition MaxChar task) 0 = Done (P, n)) ∧
     (MinimizeTask.IsDetermined task = true →
      Minimize MaxChar task fuel = Done (Success, [AcceptPartition P]))) ∧
  PartInv task (initial_partition MaxChar task) ∧
  (∀ p, PartInv task p → length p ≤ MinimizeTask.Size task) ∧
  (∀ p, PartInv task p →
     let p' := Split (MinimizeEquality MaxChar (detTran MaxChar task)
                        (distinctLetters task) (Some (class_map task p)) None)
                     p in
     PartInv task p' ∧ Refines p' p ∧ (p' = p ∨ length p < length p') ∧
     ∀ m, UpdateStateClassMap (class_map task p) p' = Some (true, m) →
          length p < length p').
Proof.
  intros Hsize Hfuel. split_and!.
  - pose proof (initial_partition_Inv MaxChar task) as Hinv.
    pose proof (PartInv_nonempty task _ Hinv Hsize) as Hne.
    destruct (Minimize_loop_terminates MaxChar task fuel
                (replicate (MinimizeTask.Size task) 0)
                (initial_partition MaxChar task) 0 Hsize Hinv)
      as (P & n & Hrun & Hn).
    + by rewrite length_replicate.
    + destruct (decide _); lia.
    + exists P, n. split_and!.
      * done.
      * destruct (decide _); lia.
      * intros fuel' Hle.
        by apply (Minimize_loop_fuel_mono MaxChar task fuel fuel').
      * intros Hdet. unfold Minimize. by rewrite Hdet, Hrun.
  - apply initial_partition_Inv.
  - apply PartInv_length.
  - intros p Hinv p'.
    destruct (Split_round task
                (MinimizeEquality MaxChar (detTran MaxChar task)
                   (distinctLetters task) (Some (class_map task p)) None)
                p Hinv) as (Hinv' & Href & Hcase).
    split_and!; try done.
    intros m (_ & Hm & Hch)%UpdateStateClassMap_spec.
    destruct Hcase as [Hsame|Hlt]; [|done].
    exfalso. rewrite class_map_length in Hm.
    fold (class_map task p') in Hm. unfold p' in Hm at 1.
    rewrite Hsame in Hm. subst m.
    by assert (true = false) by by apply Hch.
Qed.

(** *** The scenarios, run *)

Example scenario_collapse :
  Minimize 2 MinScenarios.ends_in_a 5
  = Done (Success, [AcceptPartition [(0, (0, [0; 1])); (2, (1, [2; 3]))]]).
Proof. vm_compute. reflexivity. Qed.

Example scenario_collapse_rounds :
  Minimize_loop 2 MinScenarios.ends_in_a 5 (replicate 4 0)
                (initial_partition 2 MinScenarios.ends_in_a) 0
  = Done ([(0, (0, [0; 1])); (2, (1, [2; 3]))], 1).
Proof. vm_compute. reflexivity. Qed.

Example scenario_countdown :
  Minimize_loop 1 MinScenarios.countdown 5 (replicate 4 0)
                (initial_partition 1 MinScenarios.countdown) 0
  = Done ([(0, (0, [0])); (1, (1, [1])); (2, (2, [2])); (3, (3, [3]))], 3).
Proof. vm_compute. reflexivity. Qed.

Example scenario_not_determined :
  Minimize 2 MinScenarios.not_determined 0 = Done (Failure, []).
Proof. vm_compute. reflexivity. Qed.

Lemma ends_in_a_SameClassesEquiv : SameClassesEquiv MinScenarios.ends_in_a.
Proof.
  split_and!; simpl.
  - intros a _. by apply bool_decide_eq_true.
  - intros a b _ _ Hab%bool_decide_eq_true. by apply bool_decide_eq_true.
  - intros a b c _ _ _ Hab%bool_decide_eq_true Hbc%bool_decide_eq_true.
    apply bool_decide_eq_true. congruence.
Defined.

Lemma ends_in_a_AlphabetOK : AlphabetOK 2 MinScenarios.ends_in_a.
Proof.
  split_and!; simpl.
  - intros e He. repeat (apply elem_of_cons in He as [->|He]); simpl;
      [left..|by apply elem_of_nil in He].
  - apply (bool_decide_unpack _). vm_compute. reflexivity.
  - intros letter Hl. repeat (apply elem_of_cons in Hl as [->|Hl]);
      [lia..|by apply elem_of_nil in Hl].
Defined.

Lemma ends_in_a_NextClosed : NextClosed MinScenarios.ends_in_a.
Proof.
  intros from e Hfrom He. simpl.
  repeat case_decide; lia.
Defined.

Lemma C4_minimize_sound_witness :
  ∃ P, [AcceptPartition [(0, (0, [0; 1])); (2, (1, [2; 3]))]]
       = [AcceptPartition P] ∧
    ∀ a b, SameClass P a b →
      MinimizeTask.SameClasses MinScenarios.ends_in_a a b = true ∧
      (∀ e, e ∈ MinimizeTask.Letters MinScenarios.ends_in_a →
         SameClass P (MinimizeTask.Next MinScenarios.ends_in_a a e.1)
                     (MinimizeTask.Next MinScenarios.ends_in_a b e.1)) ∧
      (∀ e letter, e ∈ MinimizeTask.Letters MinScenarios.ends_in_a →
         letter ∈ e.2.2 →
         MinimizeEquality_Next 2 (detTran 2 MinScenarios.ends_in_a) a letter
         = MinimizeTask.Next MinScenarios.ends_in_a a e.1 ∧
         MinimizeEquality_Next 2 (detTran 2 MinScenarios.ends_in_a) b letter
         = MinimizeTask.Next MinScenarios.ends_in_a b e.1) ∧
      (∀ letter, letter < 2 →
         SameClass P
           (MinimizeEquality_Next 2 (detTran 2 MinScenarios.ends_in_a)
                                  a letter)
           (MinimizeEquality_Next 2 (detTran 2 MinScenarios.ends_in_a)
                                  b letter)).
Proof.
  apply (C4_minimize_sound 2 MinScenarios.ends_in_a 5).
  - apply ends_in_a_SameClassesEquiv.
  - apply ends_in_a_AlphabetOK.
  - apply ends_in_a_NextClosed.
  - vm_compute. reflexivity.
Defined.

Lemma C5_not_determined_witness :
  Minimize 2 MinScenarios.not_determined 0 = Done (Failure, []).
Proof.
  apply (C5_not_determined 2 MinScenarios.not_determined 0). reflexivity.
Defined.

Lemma C8_refinement_terminates_witness :
  (∃ P n,
     Minimize_loop 2 MinScenarios.ends_in_a 5
       (replicate (MinimizeTask.Size MinScenarios.ends_in_a) 0)
       (initial_partition 2 MinScenarios.ends_in_a) 0 = Done (P, n) ∧
     n ≤ MinimizeTask.Size MinScenarios.ends_in_a ∧
     (∀ fuel', 5 ≤ fuel' →
        Minimize_loop 2 MinScenarios.ends_in_a fuel'
          (replicate (MinimizeTask.Size MinScenarios.ends_in_a) 0)
          (initial_partition 2 MinScenarios.ends_in_a) 0 = Done (P, n)) ∧
     (MinimizeTask.IsDetermined MinScenarios.ends_in_a = true →
      Minimize 2 MinScenarios.ends_in_a 5
      = Done (Success, [AcceptPartition P]))) ∧
  PartInv MinScenarios.ends_in_a
          (initial_partition 2 MinScenarios.ends_in_a) ∧
  (∀ p, PartInv MinScenarios.ends_in_a p →
        length p ≤ MinimizeTask.Size MinScenarios.ends_in_a) ∧
  (∀ p, PartInv MinScenarios.ends_in_a p →
     let p' := Split (MinimizeEquality 2 (detTran 2 MinScenarios.ends_in_a)
                        (distinctLetters MinScenarios.ends_in_a)
                        (Some (class_map MinScenarios.ends_in_a p)) None)
                     p in
     PartInv MinScenarios.ends_in_a p' ∧ Refines p' p ∧
     (p' = p ∨ length p < length p') ∧
     ∀ m, UpdateStateClassMap (class_map MinScenarios.ends_in_a p) p'
          = Some (true, m) →
          length p < length p').
Proof.
  apply (C8_refinement_terminates 2 MinScenarios.ends_in_a 5); simpl; lia.
Defined.

(** * Further properties of [Determine] *)

Section DetermineMore.
Context {State : Type} `{Countable State}.
Variable task : DetermineTask.t State.
Import DetermineTask.

Lemma Determine_success_mono m1 m2 tr :
  m1 ≤ m2 →
  Determine task m1 = Some (Success, tr) →
  Determine task m2 = Some (Success, tr).
Proof.
  intros Hle. unfold Determine.
  destruct (Determine_bfs task (m1 + 2) 0 _) as [w| |] eqn:Hrun; [|done..].
  intros [= <-].
  apply (Determine_bfs_add_budget task (m2 - m1)) in Hrun.
  replace (add_budget (m2 - m1) (Determine_init task m1))
    with (Determine_init task m2) in Hrun
    by (unfold add_budget, Determine_init; simpl; f_equal; lia).
  rewrite (Determine_bfs_fuel_mono task (m1 + 2) (m2 + 2)), Hrun;
    [done|lia|by rewrite Hrun].
Qed.

Lemma Determine_success_same m m' tr tr' :
  Determine task m = Some (Success, tr) →
  Determine task m' = Some (Success, tr') → tr = tr'.
Proof.
  intros Hm Hm'. destruct (decide (m ≤ m')) as [Hle|Hgt].
  - apply (Determine_success_mono m m') in Hm; [congruence|done].
  - apply (Determine_success_mono m' m) in Hm'; [congruence|lia].
Qed.

(** All reachable states equal the initial one when it is not left. *)
Lemma reach_stuck s :
  (IsRequired task (Initial task) = false ∨
   ∀ e, e ∈ Letters task → Next task (Initial task) e.1 = Initial task) →
  reach task s → s = Initial task.
Proof.
  intros Hstuck Hreach. induction Hreach as [|s letter cls _ -> Hreq Hin];
    [done|].
  destruct Hstuck as [Hnot|Hloop]; [congruence|].
  apply (Hloop (letter, cls) Hin).
Qed.

Lemma all_Connect_emit w :
  Forall (λ e, ∃ i j l, e = Connect i j l)
         (mjoin (imap (Connect_row task w) (transitions w))).
Proof.
  apply Forall_forall. intros e (evs & He & Hevs)%list_elem_of_join.
  apply elem_of_lookup_imap in Hevs as (k & row & -> & _).
  unfold Connect_row in He.
  apply elem_of_lookup_zip_with in He as (c & j & l & -> & _). eauto.
Qed.

Lemma omap_connect_from_length (conn : list (DetermineEvent State)) :
  Forall (λ e, ∃ i j l, e = Connect i j l) conn →
  length (omap connect_from conn) = length conn.
Proof.
  induction 1 as [|e conn (i & j & l & ->) _ IH]; [done|].
  simpl. by f_equal.
Qed.

Lemma bind_replicate_length (k : nat) (l : list nat) :
  length (l ≫= λ i, replicate k i) = k * length l.
Proof.
  induction l as [|i l IH]; [simpl; lia|].
  rewrite bind_cons, length_app, length_replicate, IH. simpl. lia.
Qed.

(** The first matching call of a trace. *)
Lemma trace_step_Some (tr : list (DetermineEvent State)) i letter j :
  trace_step tr i letter = Some j → Connect i j letter ∈ tr.
Proof.
  unfold trace_step. intros Hhead%head_Some_elem_of.
  apply list_elem_of_omap in Hhead as (e & He & Hmatch).
  destruct e as [|from to l]; [done|].
  case_decide as Hd; [|done]. destruct Hd as [-> ->]. by simplify_eq.
Qed.

Lemma trace_step_is_Some (tr : list (DetermineEvent State)) i letter j :
  Connect i j letter ∈ tr → is_Some (trace_step tr i letter).
Proof.
  intros Hin. unfold trace_step.
  destruct (omap _ tr) as [|j' l] eqn:Homap; [|by eexists].
  exfalso. apply (elem_of_nil j). rewrite <-Homap.
  apply list_elem_of_omap. exists (Connect i j letter). split; [done|].
  simpl. by rewrite decide_True.
Qed.

(** Along a word whose states are required, the closed-form table follows
    the task. *)
Lemma trace_run_expected budget w word i s :
  LettersOK task → Outer task budget (length (states w)) w →
  states w !! i = Some s → path_ok task s word →
  ∃ j, trace_run (expected_trace task (states w)) i word = Some j ∧
       states w !! j = Some (task_run task s word).
Proof.
  intros Hok Hout. revert i s.
  induction word as [|letter word IH]; intros i s Hi Hpath; simpl.
  - by exists i.
  - destruct Hpath as (Hreq & Hletter & Hpath).
    apply list_elem_of_fmap in Hletter as (e & -> & He).
    assert (Next task s e.1 ∈ states w) as Hnext.
    { apply (outer_closed _ _ _ _ Hout i s e); try done.
      by eapply lookup_lt_Some. }
    destruct (trace_step_is_Some (expected_trace task (states w)) i e.1
                (index_of (states w) (Next task s e.1))) as [j Hj].
    { apply Connect_in_expected. exists s, e.2.1. split_and!; try done.
      - by apply LettersOK_lt.
      - symmetry. by apply class_rep_spec. }
    rewrite Hj. apply trace_step_Some in Hj.
    apply Connect_in_expected in Hj as (s' & c & Hs' & _ & _ & _ & ->).
    assert (s' = s) as -> by congruence.
    apply (IH _ (Next task s e.1)); [|done]. by apply index_of_elem.
Qed.

End DetermineMore.

(** X1: a drive that succeeds within budget [m] has found at most [m + 1]
    states, and the number found is the exact threshold: every budget that
    leaves room for them succeeds with the same sink calls, every smaller
    budget fails without a sink call. *)
Theorem X1_budget_threshold {State} `{Countable State}
    (task : DetermineTask.t State) (m : nat) tr :
  Determine task m = Some (Success, tr) →
  ∃ sts conn, tr = AcceptStates sts :: conn ∧
    length sts ≤ m + 1 ∧
    ∀ m', (length sts ≤ m' + 1 → Determine task m' = Some (Success, tr)) ∧
          (m' + 1 < length sts → Determine task m' = Some (Failure, [])).
Proof.
  intros Hrun. destruct (Determine_Success_inv task m tr Hrun) as (w & Hout & ->).
  pose proof (core_budget _ _ _ (outer_core _ _ _ _ Hout)) as Hbudget.
  exists (states w). eexists. split; [done|]. split; [lia|].
  intros m'. destruct (Determine_total task m') as [[[] tr'] Hrun']; split.
  - intros _. by rewrite (Determine_success_same task m m' _ _ Hrun Hrun').
  - intros Hlt. exfalso.
    pose proof (Determine_success_same task m m' _ _ Hrun Hrun') as <-.
    destruct (Determine_Success_inv task m' _ Hrun') as (w' & Hout' & Heq).
    injection Heq as Hst _.
    pose proof (core_budget _ _ _ (outer_core _ _ _ _ Hout')) as Hbudget'.
    rewrite <-Hst in Hbudget'. lia.
  - intros Hle. exfalso.
    apply Determine_Failure_inv in Hrun' as (_ & l & Hnd & Hreach & Hlen).
    assert (l ⊆+ states w) as Hsub.
    { apply NoDup_submseteq; [done|].
      intros s Hs. by eapply Outer_complete, Hreach. }
    apply submseteq_length in Hsub. lia.
  - intros _. apply Determine_Failure_inv in Hrun' as Hinv.
    by destruct Hinv as [-> _].
Qed.

(** X2: with budget zero [Determine] succeeds exactly when the initial state
    is never left: it is not required, or each representative symbol leads
    from it back to itself. *)
Theorem X2_zero_budget {State} `{Countable State}
    (task : DetermineTask.t State) :
  (∃ tr, Determine task 0 = Some (Success, tr)) ↔
  (DetermineTask.IsRequired task (DetermineTask.Initial task) = false ∨
   ∀ e, e ∈ DetermineTask.Letters task →
     DetermineTask.Next task (DetermineTask.Initial task) e.1
     = DetermineTask.Initial task).
Proof.
  split.
  - intros [tr (w & Hout & _)%Determine_Success_inv].
    pose proof (outer_core _ _ _ _ Hout) as Hc.
    pose proof (core_budget _ _ _ Hc) as Hbudget.
    pose proof (core_initial _ _ _ Hc) as H0.
    destruct (states w) as [|s0 [|s1 sts]] eqn:Hst;
      [done| |simpl in Hbudget; lia].
    simpl in H0. injection H0 as ->.
    destruct (DetermineTask.IsRequired task (DetermineTask.Initial task))
      eqn:Hreq; [right|by left].
    intros e He.
    assert (DetermineTask.Next task (DetermineTask.Initial task) e.1
            ∈ states w) as Hin.
    { apply (outer_closed _ _ _ _ Hout 0 (DetermineTask.Initial task) e);
        rewrite ?Hst; simpl; try done. lia. }
    rewrite Hst in Hin. by apply list_elem_of_singleton in Hin.
  - intros Hstuck.
    destruct (Determine_total task 0) as [[[] tr] Hrun]; [by exists tr|].
    exfalso.
    apply Determine_Failure_inv in Hrun as (_ & l & Hnd & Hreach & Hlen).
    destruct l as [|a [|b [|c l]]]; simplify_eq/=.
    assert (a = DetermineTask.Initial task) as Ha.
    { apply reach_stuck; [done|]. apply Hreach. left. }
    assert (b = DetermineTask.Initial task) as Hb.
    { apply reach_stuck; [done|]. apply Hreach. right. left. }
    apply NoDup_cons in Hnd as [Hnotin _]. apply Hnotin.
    rewrite Ha, Hb. left.
Qed.

(** X3: when the initial state is not required, or the alphabet has no
    class, nothing is expanded: [Determine] succeeds under every budget, and
    its only sink call is [AcceptStates] with the initial state alone. *)
Theorem X3_nothing_to_expand {State} `{Countable State}
    (task : DetermineTask.t State) (budget : nat) :
  DetermineTask.IsRequired task (DetermineTask.Initial task) = false ∨
  DetermineTask.Letters task = [] →
  Determine task budget
  = Some (Success, [AcceptStates [DetermineTask.Initial task]]).
Proof.
  intros Hcase. unfold Determine.
  replace (budget + 2) with (S (S budget)) by lia. simpl.
  destruct (DetermineTask.IsRequired task (DetermineTask.Initial task))
    eqn:Hreq; simpl; [|done].
  destruct Hcase as [?|Hnil]; [done|].
  unfold Determine_emit, Connect_row, invletters. rewrite Hnil. done.
Qed.

(** X4: the sink calls of a successful drive are one [AcceptStates] call
    followed by [Connect] calls only, as many as there are alphabet classes
    times required states in the vector, whatever the class indices are. *)
Theorem X4_call_count {State} `{Countable State}
    (task : DetermineTask.t State) (budget : nat) tr :
  Determine task budget = Some (Success, tr) →
  ∃ sts conn, tr = AcceptStates sts :: conn ∧
    Forall (λ e, ∃ i j l, e = Connect i j l) conn ∧
    length conn
    = length (DetermineTask.Letters task)
      * length (filter (λ i, required_at task sts i = true)
                       (seq 0 (length sts))).
Proof.
  intros (w & Hout & ->)%Determine_Success_inv.
  exists (states w). eexists. split; [done|].
  pose proof (all_Connect_emit task w) as Hall. split; [done|].
  rewrite <-(omap_connect_from_length _ Hall), <-bind_replicate_length.
  f_equal. exact (from_indices_emit task budget w Hout).
Qed.

(** X5: the table a successful drive announces simulates the task: along a
    word of representative symbols on which every state that is left is
    required, following the [Connect] calls from index 0 leads to the index
    whose state is the one the task reaches from its initial state. *)
Theorem X5_table_simulates_task {State} `{Countable State}
    (task : DetermineTask.t State) (budget : nat) tr :
  LettersOK task →
  Determine task budget = Some (Success, tr) →
  ∃ sts conn, tr = AcceptStates sts :: conn ∧
    ∀ w, path_ok task (DetermineTask.Initial task) w →
      ∃ j, trace_run tr 0 w = Some j ∧
           sts !! j = Some (task_run task (DetermineTask.Initial task) w).
Proof.
  intros Hok (w & Hout & ->)%Determine_Success_inv.
  exists (states w). eexists. split; [done|].
  intros word Hpath. rewrite (Determine_emit_expected task budget w Hok Hout).
  apply (trace_run_expected task budget); try done.
  apply (core_initial _ _ _ (outer_core _ _ _ _ Hout)).
Qed.

(** X6: in a successful drive every state but the initial one is announced
    as the successor of a state with a smaller index: each index above 0 is
    the to-index of a [Connect] call whose from-index is below it. *)
Theorem X6_discovered_from_smaller_index {State} `{Countable State}
    (task : DetermineTask.t State) (budget : nat) tr :
  LettersOK task →
  Determine task budget = Some (Success, tr) →
  ∃ sts conn, tr = AcceptStates sts :: conn ∧
    ∀ j, 0 < j < length sts → ∃ i letter, i < j ∧ Connect i j letter ∈ tr.
Proof.
  intros Hok (w & Hout & ->)%Determine_Success_inv.
  exists (states w). eexists. split; [done|].
  intros j [Hpos Hj]. rewrite (Determine_emit_expected task budget w Hok Hout).
  apply lookup_lt_is_Some in Hj as [s' Hs'].
  destruct (core_parent _ _ _ (outer_core _ _ _ _ Hout) j s' Hs')
    as [->|(i & s & letter & cls & Hij & Hs & Hreq & Hin & Hnext)]; [lia|].
  exists i, letter. split; [done|].
  apply Connect_in_expected. exists s, cls.1. split_and!; try done.
  - by apply (LettersOK_lt task (letter, cls)).
  - symmetry. apply (class_rep_spec task (letter, cls) Hok Hin).
  - rewrite Hnext. symmetry. apply index_of_lookup; [|done].
    apply (core_nodup _ _ _ (outer_core _ _ _ _ Hout)).
Qed.

Lemma X1_budget_threshold_witness :
  ∃ sts conn,
    [AcceptStates [0; 1; 2]; Connect 0 1 0; Connect 1 2 0; Connect 2 2 0]
    = AcceptStates sts :: conn ∧
    length sts ≤ 4 + 1 ∧
    ∀ m',
      (length sts ≤ m' + 1 →
       Determine Scenarios.chain m'
       = Some (Success, [AcceptStates [0; 1; 2]; Connect 0 1 0;
                         Connect 1 2 0; Connect 2 2 0])) ∧
      (m' + 1 < length sts →
       Determine Scenarios.chain m' = Some (Failure, [])).
Proof.
  apply (X1_budget_threshold Scenarios.chain 4). vm_compute. reflexivity.
Defined.

Lemma X3_nothing_to_expand_witness :
  Determine Scenarios.idle 3 = Some (Success, [AcceptStates [7]]).
Proof.
  apply (X3_nothing_to_expand Scenarios.idle 3). left. reflexivity.
Defined.

Lemma X4_call_count_witness :
  ∃ sts conn,
    [AcceptStates [0; 1; 2]; Connect 0 1 0; Connect 0 2 1;
     Connect 2 0 0; Connect 2 1 1] = AcceptStates sts :: conn ∧
    Forall (λ e, ∃ i j l, e = Connect i j l) conn ∧
    length conn
    = length (DetermineTask.Letters Scenarios.pruned)
      * length (filter (λ i, required_at Scenarios.pruned sts i = true)
                       (seq 0 (length sts))).
Proof.
  apply (X4_call_count Scenarios.pruned 5). vm_compute. reflexivity.
Defined.

Lemma X5_table_simulates_task_witness :
  ∃ sts conn,
    [AcceptStates [1; 3]; Connect 0 0 98; Connect 0 1 97;
     Connect 1 0 98; Connect 1 1 97] = AcceptStates sts :: conn ∧
    ∀ w, path_ok Scenarios.swapped
                 (DetermineTask.Initial Scenarios.swapped) w →
      ∃ j, trace_run [AcceptStates [1; 3]; Connect 0 0 98; Connect 0 1 97;
                      Connect 1 0 98; Connect 1 1 97] 0 w = Some j ∧
           sts !! j
           = Some (task_run Scenarios.swapped
                     (DetermineTask.Initial Scenarios.swapped) w).
Proof.
  apply (X5_table_simulates_task Scenarios.swapped 10).
  - apply perm_swap.
  - vm_compute. reflexivity.
Defined.

Lemma X6_discovered_from_smaller_index_witness :
  ∃ sts conn,
    [AcceptStates [0; 1; 2]; Connect 0 1 0; Connect 0 2 1;
     Connect 2 0 0; Connect 2 1 1] = AcceptStates sts :: conn ∧
    ∀ j, 0 < j < length sts →
      ∃ i letter, i < j ∧
        Connect i j letter ∈ [AcceptStates [0; 1; 2]; Connect 0 1 0;
                              Connect 0 2 1; Connect 2 0 0; Connect 2 1 1].
Proof.
  apply (X6_discovered_from_smaller_index Scenarios.pruned 5).
  - unfold LettersOK. simpl. reflexivity.
  - vm_compute. reflexivity.
Defined.

(** * Further properties of the partition operations *)

Section PartitionMore.
Context {T : Type} `{EqDecision T, Inhabited T}.
Implicit Types (p q : Partition T) (c : T * (nat * list T)).
Implicit Types (Eq : T → T → bool).

(** Members that are all related to a member of the only class join it. *)
Lemma foldl_Append_one Eq ms r i ms0 :
  r ∈ ms0 → (∀ y, y ∈ ms → Eq y r = true) →
  foldl (λ p x, Append Eq x p) [(r, (i, ms0))] ms = [(r, (i, ms0 ++ ms))].
Proof.
  revert ms0. induction ms as [|x ms IH]; intros ms0 Hr Hall; simpl.
  - by rewrite app_nil_r.
  - unfold Append at 2. simpl.
    assert (existsb (Eq x) ms0 = true) as ->.
    { apply existsb_exists. exists r. split; [by apply list_elem_of_In|].
      apply Hall. left. }
    rewrite IH.
    + by rewrite <-app_assoc.
    + apply elem_of_app. by left.
    + intros y Hy. apply Hall. by right.
Qed.

Lemma regroup_pairwise Eq x ms :
  (∀ a b, a ∈ x :: ms → b ∈ x :: ms → Eq a b = true) →
  regroup Eq (x :: ms) = [(x, (0, x :: ms))].
Proof.
  intros Hall. unfold regroup. simpl. unfold Append at 2. simpl.
  rewrite foldl_Append_one; [done|left|].
  intros y Hy. apply Hall; [by right|left].
Qed.

(** A partition whose classes already obey the predicate is left alone. *)
Lemma Split_fix Eq p : PartWF p → ClassesBy Eq p → Split Eq p = p.
Proof.
  intros Hwf Hby. apply Split_same; [done|].
  unfold Split, reindex. rewrite length_imap.
  destruct Hwf as [Hh _]. clear -Hh Hby.
  induction p as [|[r [i ms]] p IH]; [done|].
  apply Forall_cons in Hh as [Hc Hh].
  apply ClassesBy_cons in Hby as [Hby Hp].
  rewrite bind_cons, length_app, IH by done. simpl in *.
  destruct ms as [|x ms]; [done|].
  by rewrite regroup_pairwise.
Qed.

End PartitionMore.

(** * Further properties of [Minimize] *)

Section MinimizeMore.
Variable MaxChar : nat.
Variable task : MinimizeTask.t.
Import MinimizeTask.

(** [MinimizeEquality::operator()] in one formula. *)
Lemma MinimizeEquality_true tbl letters m_prev m_task a b :
  MinimizeEquality MaxChar tbl letters m_prev m_task a b = true ↔
  (∀ t, m_task = Some t → SameClasses t a b = true) ∧
  (∀ prev, m_prev = Some prev →
     prev !!! a = prev !!! b ∧
     ∀ letter, letter ∈ letters →
       prev !!! MinimizeEquality_Next MaxChar tbl a letter
       = prev !!! MinimizeEquality_Next MaxChar tbl b letter).
Proof.
  assert (MinimizeEquality MaxChar tbl letters m_prev m_task a b
          = from_option (λ t, SameClasses t a b) true m_task
            && MinimizeEquality MaxChar tbl letters m_prev None a b) as ->.
  { unfold MinimizeEquality. destruct m_task as [t|]; simpl; [|done].
    by destruct (SameClasses t a b). }
  rewrite andb_true_iff.
  assert (from_option (λ t, SameClasses t a b) true m_task = true ↔
          ∀ t, m_task = Some t → SameClasses t a b = true) as ->.
  { destruct m_task as [t|]; simpl.
    - split; [by intros ? ? [= <-]|by intros Ht; apply Ht].
    - split; [by intros _ ? [=]|done]. }
  destruct m_prev as [prev|].
  - rewrite MinimizeEquality_prev. split.
    + intros [Ht Hp]. split; [done|]. by intros ? [= <-].
    + intros [Ht Hp]. split; [done|]. by apply Hp.
  - split.
    + intros [Ht _]. split; [done|]. by intros ? [=].
    + intros [Ht _]. split; [done|reflexivity].
Qed.

Lemma replicate_zero_total (n i : nat) : replicate n 0 !!! i = 0.
Proof.
  destruct (decide (i < n)) as [Hi|Hi].
  - by apply lookup_total_replicate_2.
  - rewrite list_lookup_total_alt, (lookup_ge_None_2 _ i); [done|].
    rewrite length_replicate. lia.
Qed.

Lemma Forall_fill_members (P : nat → Prop) from next ms tbl :
  P next → Forall P tbl → Forall P (fill_members MaxChar from next ms tbl).
Proof.
  intros Hnext. revert tbl. unfold fill_members.
  induction ms as [|letter ms IH]; intros tbl Htbl; simpl; [done|].
  apply IH. by apply Forall_insert.
Qed.

Lemma Forall_fill_froms (P : nat → Prop) (rep : Char) ms froms tbl :
  (∀ from, from ∈ froms → P (Next task from rep)) → Forall P tbl →
  Forall P (foldl (λ tbl from,
                     fill_members MaxChar from (Next task from rep) ms tbl)
                  tbl froms).
Proof.
  revert tbl. induction froms as [|f froms IH]; intros tbl Hf Htbl; simpl;
    [done|].
  apply IH.
  - intros from Hfrom. apply Hf. by right.
  - apply Forall_fill_members; [|done]. apply Hf. left.
Qed.

Lemma Forall_detTran (P : nat → Prop) :
  P 0 →
  (∀ from e, from < Size task → e ∈ Letters task → P (Next task from e.1)) →
  Forall P (detTran MaxChar task).
Proof.
  intros H0 Hnext. unfold detTran.
  assert (∀ (ls : LettersTbl) tbl,
            (∀ e, e ∈ ls → e ∈ Letters task) → Forall P tbl →
            Forall P (foldl (λ tbl letters,
                               fill_class MaxChar task letters tbl) tbl ls))
    as Hgen.
  { induction ls as [|e ls IH]; intros tbl Hls Htbl; simpl; [done|].
    apply IH.
    - intros e' He'. apply Hls. by right.
    - apply Forall_fill_froms; [|done].
      intros from Hfrom%elem_of_seq. apply Hnext; [lia|]. apply Hls. left. }
  apply Hgen; [done|]. by apply Forall_replicate.
Qed.

(** Without states the assertion of [UpdateStateClassMap] fails at once. *)
Lemma Minimize_loop_no_states fuel :
  Size task = 0 →
  Minimize_loop MaxChar task (S fuel) (replicate (Size task) 0)
                (initial_partition MaxChar task) 0 = Failed.
Proof. intros Hsize. simpl. by rewrite Hsize. Qed.

(** The loop keeps the partition a partition of the states, and leaves
    with a map and a partition that a further round would not change. *)
Lemma Minimize_loop_stable fuel clMap last rounds P n :
  PartInv task last → length clMap = Size task →
  (clMap = replicate (Size task) 0 ∨
   ClassesBy (MinimizeEquality MaxChar (detTran MaxChar task)
                (distinctLetters task) (Some clMap) None) last) →
  Minimize_loop MaxChar task fuel clMap last rounds = Done (P, n) →
  0 < Size task ∧ PartInv task P ∧
  ClassesBy (MinimizeEquality MaxChar (detTran MaxChar task)
               (distinctLetters task) (Some (class_map task P)) None) P.
Proof.
  revert clMap last rounds.
  induction fuel as [|fuel IH]; intros clMap last rounds Hinv Hlen Hprev Hrun;
    [done|].
  simpl in Hrun.
  destruct (UpdateStateClassMap clMap last) as [[ch m]|] eqn:Hupd; [|done].
  apply UpdateStateClassMap_spec in Hupd as (Hne & Hm & Hch).
  rewrite Hlen in Hm. fold (class_map task last) in Hm.
  destruct ch.
  - eapply IH; [| | |done].
    + by apply Split_Inv.
    + subst m. apply class_map_length.
    + right. apply (Split_ClassesBy (λ _, True)); [|done].
      apply MinimizeEquality_prev_equiv.
  - simplify_eq. assert (clMap = class_map task P) as <- by by apply Hch.
    split_and!; [|done|].
    + destruct clMap; [done|]. simpl in Hlen. lia.
    + destruct Hprev as [->|Hby]; [|done].
      intros c a b _ _ _. apply MinimizeEquality_prev.
      split; [|intros letter _]; by rewrite !replicate_zero_total.
Qed.

End MinimizeMore.

Section MinimizeEdge.
Variable MaxChar : nat.
Variable task : MinimizeTask.t.
Import MinimizeTask.

(** States that the task never tells apart form a single initial class. *)
Lemma initial_partition_one :
  0 < Size task →
  (∀ a b, a < Size task → b < Size task → SameClasses task a b = true) →
  initial_partition MaxChar task = [(0, (0, seq 0 (Size task)))].
Proof.
  intros Hsize Hall. unfold initial_partition.
  assert (seq 0 (Size task) = 0 :: seq 1 (Size task - 1)) as ->.
  { destruct (Size task) as [|n]; [lia|]. simpl. by rewrite Nat.sub_0_r. }
  simpl. unfold Append at 2. simpl.
  rewrite foldl_Append_one; [done|left|].
  intros y Hy%elem_of_seq. rewrite MinimizeEquality_task. apply Hall; lia.
Qed.

Lemma Representative_one (n st : nat) :
  st < n → Representative [(0, (0, seq 0 n))] st = 0.
Proof.
  intros Hst. unfold Representative. simpl.
  rewrite bool_decide_eq_true_2; [done|]. apply elem_of_seq. lia.
Qed.

Lemma class_map_fixed p :
  0 < Size task →
  UpdateStateClassMap (class_map task p) p = Some (false, class_map task p).
Proof.
  intros Hsize.
  destruct (UpdateStateClassMap_is_Some (class_map task p) p) as [[ch m] Hupd].
  { intros Hnil. apply (f_equal length) in Hnil.
    rewrite class_map_length in Hnil. simpl in Hnil. lia. }
  rewrite Hupd.
  apply UpdateStateClassMap_spec in Hupd as (_ & Hm & Hch).
  rewrite class_map_length in Hm. fold (class_map task p) in Hm. subst m.
  by rewrite (proj2 Hch).
Qed.

End MinimizeEdge.

(** X7: [MinimizeEquality::operator()] is an equivalence relation on any
    set of states on which the task's [SameClasses] (when a task is given)
    is one, whatever the table, the letters and the previous class map; and
    when a previous class map is given, it only relates states that map
    holds in one class. *)
Theorem X7_MinimizeEquality_equivalence (MaxChar : nat) (D : nat → Prop)
    (tbl : list nat) (letters : list Char) (m_prev : option (list nat))
    (m_task : option MinimizeTask.t) :
  (∀ t, m_task = Some t → EquivOn D (MinimizeTask.SameClasses t)) →
  EquivOn D (MinimizeEquality MaxChar tbl letters m_prev m_task) ∧
  (∀ prev a b, m_prev = Some prev →
     MinimizeEquality MaxChar tbl letters m_prev m_task a b = true →
     prev !!! a = prev !!! b).
Proof.
  intros Htask. split; [split_and!|].
  - intros a Ha. apply MinimizeEquality_true. split.
    + intros t Ht. destruct (Htask t Ht) as (Hrefl & _). by apply Hrefl.
    + by intros prev _.
  - intros a b Ha Hb [Ht Hp]%MinimizeEquality_true.
    apply MinimizeEquality_true. split.
    + intros t Heq. destruct (Htask t Heq) as (_ & Hsym & _).
      apply Hsym; [done..|]. by apply Ht.
    + intros prev Heq. destruct (Hp prev Heq) as [Hab Hall].
      split; [done|]. intros letter Hl. symmetry. by apply Hall.
  - intros a b c Ha Hb Hc [Ht Hp]%MinimizeEquality_true
                          [Ht' Hp']%MinimizeEquality_true.
    apply MinimizeEquality_true. split.
    + intros t Heq. destruct (Htask t Heq) as (_ & _ & Htrans).
      apply (Htrans a b c); auto.
    + intros prev Heq. destruct (Hp prev Heq) as [Hab Hall].
      destruct (Hp' prev Heq) as [Hbc Hall'].
      split; [congruence|]. intros letter Hl.
      etrans; [by apply Hall|by apply Hall'].
  - intros prev a b Heq [_ Hp]%MinimizeEquality_true.
    by destruct (Hp prev Heq).
Qed.

(** X8: [UpdateStateClassMap] fails its assertion on an empty map; on any
    other map it keeps the length, puts the representative of each state
    into the state's slot, reports a change exactly when some slot got a new
    value, and reports no change when called again on its result. *)
Theorem X8_UpdateStateClassMap (clMap : list nat) (p : Partition nat) :
  (clMap = [] → UpdateStateClassMap clMap p = None) ∧
  (clMap ≠ [] →
   ∃ changed m,
     UpdateStateClassMap clMap p = Some (changed, m) ∧
     length m = length clMap ∧
     (∀ st, st < length clMap → m !! st = Some (Representative p st)) ∧
     (changed = false ↔ m = clMap) ∧
     UpdateStateClassMap m p = Some (false, m)).
Proof.
  split; [by intros ->|]. intros Hne.
  destruct (UpdateStateClassMap_is_Some clMap p Hne) as [[ch m] Hupd].
  exists ch, m. split; [done|].
  apply UpdateStateClassMap_spec in Hupd as (_ & Hm & Hch).
  assert (length m = length clMap) as Hlen.
  { by rewrite Hm, length_fmap, length_seq. }
  split_and!.
  - done.
  - intros st Hst. by rewrite Hm, list_lookup_fmap, lookup_seq_lt.
  - rewrite Hch. split; congruence.
  - assert (m ≠ []) as Hne'.
    { intros ->. destruct clMap; [done|]. simpl in Hlen. lia. }
    destruct (UpdateStateClassMap_is_Some m p Hne') as [[ch' m'] Hupd'].
    rewrite Hupd'.
    apply UpdateStateClassMap_spec in Hupd' as (_ & Hm' & Hch').
    rewrite Hlen, <-Hm in Hm'. subst m'. by rewrite (proj2 Hch').
Qed.

(** X9: the transition table [Minimize] builds has [Size * MaxChar] cells;
    for a well-formed alphabet partition and a [Next] closed over the states
    every cell of a state and a symbol below [MaxChar] holds a state, namely
    [Next] of the state under the representative of the symbol's class, or
    0 when the symbol belongs to no class. *)
Theorem X9_detTran_cells (MaxChar : nat) (task : MinimizeTask.t) :
  AlphabetOK MaxChar task → NextClosed task → 0 < MinimizeTask.Size task →
  length (detTran MaxChar task) = MinimizeTask.Size task * MaxChar ∧
  ∀ from letter, from < MinimizeTask.Size task → letter < MaxChar →
    MinimizeEquality_Next MaxChar (detTran MaxChar task) from letter
    < MinimizeTask.Size task ∧
    (∀ e, e ∈ MinimizeTask.Letters task → letter ∈ e.2.2 →
       MinimizeEquality_Next MaxChar (detTran MaxChar task) from letter
       = MinimizeTask.Next task from e.1) ∧
    (letter ∉ members (MinimizeTask.Letters task) →
       MinimizeEquality_Next MaxChar (detTran MaxChar task) from letter = 0).
Proof.
  intros Hok Hclosed Hsize. split; [apply detTran_length|].
  intros from letter Hfrom Hletter. split_and!.
  - unfold MinimizeEquality_Next.
    assert (from * MaxChar + letter < length (detTran MaxChar task)) as Hlt.
    { rewrite detTran_length. nia. }
    apply lookup_lt_is_Some in Hlt as [v Hv].
    rewrite (list_lookup_total_correct _ _ _ Hv).
    apply (Forall_lookup_1 (λ v, v < MinimizeTask.Size task)
             (detTran MaxChar task) _ _) in Hv; [done|].
    apply Forall_detTran; [done|]. intros f e Hf He. by apply Hclosed.
  - intros e He Hin. by apply detTran_hit.
  - intros Hnotin. by apply detTran_other.
Qed.


(** X11: the partition a successful [Minimize] returns is a fixpoint of the
    refinement: splitting it once more under the predicate built from its
    own class map gives it back, and [UpdateStateClassMap] on that class
    map reports no change. *)
Theorem X11_result_is_fixpoint (MaxChar : nat) (task : MinimizeTask.t)
    (fuel : nat) (tr : list MinimizeEvent) :
  Minimize MaxChar task fuel = Done (Success, tr) →
  ∃ P, tr = [AcceptPartition P] ∧
    Split (MinimizeEquality MaxChar (detTran MaxChar task)
             (distinctLetters task) (Some (class_map task P)) None) P = P ∧
    UpdateStateClassMap (class_map task P) P
    = Some (false, class_map task P).
Proof.
  unfold Minimize. destruct (MinimizeTask.IsDetermined task); simpl; [|done].
  destruct (Minimize_loop MaxChar task fuel _ _ 0) as [[P n]| |] eqn:Hrun;
    [|done..].
  intros [= <-]. exists P. split; [done|].
  destruct (Minimize_loop_stable MaxChar task _ _ _ _ _ _
              (initial_partition_Inv MaxChar task)
              (length_replicate _ _) (or_introl eq_refl) Hrun)
    as (Hsize & Hinv & Hby).
  split.
  - apply Split_fix; [apply Hinv|done].
  - by apply class_map_fixed.
Qed.

(** X12: when the task tells no two states apart, [Minimize] returns the
    partition with the single class of all states, in order, without a
    single round of refinement, whatever the transitions are. *)
Theorem X12_one_class (MaxChar : nat) (task : MinimizeTask.t) (fuel : nat) :
  MinimizeTask.IsDetermined task = true → 0 < MinimizeTask.Size task →
  (∀ a b, a < MinimizeTask.Size task → b < MinimizeTask.Size task →
     MinimizeTask.SameClasses task a b = true) →
  Minimize_loop MaxChar task (S fuel)
    (replicate (MinimizeTask.Size task) 0) (initial_partition MaxChar task) 0
  = Done ([(0, (0, seq 0 (MinimizeTask.Size task)))], 0) ∧
  Minimize MaxChar task (S fuel)
  = Done (Success,
          [AcceptPartition [(0, (0, seq 0 (MinimizeTask.Size task)))]]).
Proof.
  intros Hdet Hsize Hall.
  assert (Minimize_loop MaxChar task (S fuel)
            (replicate (MinimizeTask.Size task) 0)
            (initial_partition MaxChar task) 0
          = Done ([(0, (0, seq 0 (MinimizeTask.Size task)))], 0)) as Hrun.
  { rewrite (initial_partition_one MaxChar task Hsize Hall).
    assert (replicate (MinimizeTask.Size task) 0
            = class_map task [(0, (0, seq 0 (MinimizeTask.Size task)))])
      as Hmap.
    { apply list_eq. intros i. unfold class_map. rewrite list_lookup_fmap.
      destruct (decide (i < MinimizeTask.Size task)) as [Hi|Hi].
      - rewrite lookup_replicate_2, lookup_seq_lt by done. simpl.
        by rewrite Representative_one.
      - rewrite lookup_seq_ge by lia.
        apply lookup_ge_None. rewrite length_replicate. lia. }
    simpl. by rewrite Hmap, class_map_fixed. }
  split; [done|]. unfold Minimize. by rewrite Hdet, Hrun.
Qed.

(** X13: for a determined automaton without states the assertion of
    [UpdateStateClassMap] fails in the first test of the loop, before any
    sink call. *)
Theorem X13_no_states_assertion (MaxChar : nat) (task : MinimizeTask.t)
    (fuel : nat) :
  MinimizeTask.IsDetermined task = true → MinimizeTask.Size task = 0 →
  Minimize MaxChar task (S fuel) = Failed.
Proof.
  intros Hdet Hsize. unfold Minimize.
  by rewrite Hdet, (Minimize_loop_no_states MaxChar task fuel Hsize).
Qed.

Lemma X7_MinimizeEquality_equivalence_witness :
  EquivOn (λ a, a < 4)
          (MinimizeEquality 2 (detTran 2 MinScenarios.ends_in_a) [0; 1]
                            (Some [0; 0; 2; 2])
                            (Some MinScenarios.ends_in_a)) ∧
  (∀ prev a b, Some [0; 0; 2; 2] = Some prev →
     MinimizeEquality 2 (detTran 2 MinScenarios.ends_in_a) [0; 1]
                      (Some [0; 0; 2; 2]) (Some MinScenarios.ends_in_a) a b
     = true →
     prev !!! a = prev !!! b).
Proof.
  apply (X7_MinimizeEquality_equivalence 2 (λ a, a < 4)).
  intros t [= <-]. apply ends_in_a_SameClassesEquiv.
Defined.

Lemma X9_detTran_cells_witness :
  length (detTran 2 MinScenarios.ends_in_a)
  = MinimizeTask.Size MinScenarios.ends_in_a * 2 ∧
  ∀ from letter, from < MinimizeTask.Size MinScenarios.ends_in_a →
    letter < 2 →
    MinimizeEquality_Next 2 (detTran 2 MinScenarios.ends_in_a) from letter
    < MinimizeTask.Size MinScenarios.ends_in_a ∧
    (∀ e, e ∈ MinimizeTask.Letters MinScenarios.ends_in_a → letter ∈ e.2.2 →
       MinimizeEquality_Next 2 (detTran 2 MinScenarios.ends_in_a) from letter
       = MinimizeTask.Next MinScenarios.ends_in_a from e.1) ∧
    (letter ∉ members (MinimizeTask.Letters MinScenarios.ends_in_a) →
       MinimizeEquality_Next 2 (detTran 2 MinScenarios.ends_in_a) from letter
       = 0).
Proof.
  apply (X9_detTran_cells 2 MinScenarios.ends_in_a).
  - apply ends_in_a_AlphabetOK.
  - apply ends_in_a_NextClosed.
  - simpl. lia.
Defined.


Lemma X11_result_is_fixpoint_witness :
  ∃ P, [AcceptPartition [(0, (0, [0; 1])); (2, (1, [2; 3]))]]
       = [AcceptPartition P] ∧
    Split (MinimizeEquality 2 (detTran 2 MinScenarios.ends_in_a)
             (distinctLetters MinScenarios.ends_in_a)
             (Some (class_map MinScenarios.ends_in_a P)) None) P = P ∧
    UpdateStateClassMap (class_map MinScenarios.ends_in_a P) P
    = Some (false, class_map MinScenarios.ends_in_a P).
Proof.
  apply (X11_result_is_fixpoint 2 MinScenarios.ends_in_a 5).
  vm_compute. reflexivity.
Defined.

Lemma X12_one_class_witness :
  Minimize_loop 2 MoreScenarios.all_alike 1
    (replicate (MinimizeTask.Size MoreScenarios.all_alike) 0)
    (initial_partition 2 MoreScenarios.all_alike) 0
  = Done ([(0, (0, seq 0 (MinimizeTask.Size MoreScenarios.all_alike)))], 0) ∧
  Minimize 2 MoreScenarios.all_alike 1
  = Done (Success,
          [AcceptPartition
             [(0, (0, seq 0 (MinimizeTask.Size MoreScenarios.all_alike)))]]).
Proof.
  apply (X12_one_class 2 MoreScenarios.all_alike 0).
  - reflexivity.
  - simpl. lia.
  - reflexivity.
Defined.

Lemma X13_no_states_assertion_witness :
  Minimize 2 MoreScenarios.no_states 1 = Failed.
Proof.
  apply (X13_no_states_assertion 2 MoreScenarios.no_states 0); reflexivity.
Defined.

(** * The classes are as coarse as the predicate allows *)

Section PartitionJoinFacts.
Context {T : Type} `{EqDecision T, Inhabited T}.
Implicit Types (p q : Partition T) (c : T * (nat * list T)).
Implicit Types (Eq : T → T → bool) (D : T → Prop).

(** The two ways [Append] can go: some first class takes the element in, or
    no class has a member related to it and a new class is added. *)
Lemma Append_from_cases idx Eq x p :
  (∃ p1 c p2, p = p1 ++ c :: p2 ∧ existsb (Eq x) c.2.2 = true ∧
     Append_from idx Eq x p = p1 ++ (c.1, (c.2.1, c.2.2 ++ [x])) :: p2) ∨
  ((∀ c, c ∈ p → existsb (Eq x) c.2.2 = false) ∧
   ∃ i, Append_from idx Eq x p = p ++ [(x, (i, [x]))]).
Proof.
  revert idx. induction p as [|c p IH]; intros idx; simpl.
  - right. split; [by intros c ?%elem_of_nil|]. by exists idx.
  - destruct (existsb (Eq x) c.2.2) eqn:Hex.
    + left. by exists [], c, p.
    + destruct (IH (S idx)) as [(p1 & c' & p2 & -> & Hex' & ->)|[Hall [i ->]]].
      * left. by exists (c :: p1), c', p2.
      * right. split; [|by exists i].
        intros c' [->|Hc']%elem_of_cons; [done|by apply Hall].
Qed.

Lemma SameClass_mono p q a b :
  (∀ c, c ∈ p → ∃ c', c' ∈ q ∧ c.2.2 ⊆ c'.2.2) →
  SameClass p a b → SameClass q a b.
Proof.
  intros Hsub (c & Hc & Ha & Hb). destruct (Hsub c Hc) as (c' & Hc' & Hincl).
  exists c'. split_and!; [done|by apply Hincl..].
Qed.

Lemma Append_from_JoinsBy D idx Eq x p :
  EquivOn D Eq → D x → (∀ y, y ∈ members p → D y) → NoDup (members p) →
  JoinsBy Eq p → JoinsBy Eq (Append_from idx Eq x p).
Proof.
  intros (Hrefl & Hsym & Htrans) Hx HD Hnd Hjoin a b Ha Hb Hab.
  rewrite Append_from_members in Ha, Hb.
  apply elem_of_app in Ha, Hb.
  rewrite list_elem_of_singleton in Ha, Hb.
  destruct (Append_from_cases idx Eq x p)
    as [(p1 & c & p2 & Hp & Hex & ->)|[Hnone [i ->]]].
  - apply existsb_exists in Hex as (y & Hy%list_elem_of_In & Hxy).
    assert (c ∈ p) as Hc.
    { rewrite Hp. apply elem_of_app. right. left. }
    assert (D y) as Hdy.
    { apply HD, elem_of_members. by exists c. }
    assert (∀ c0, c0 ∈ p →
              ∃ c', c' ∈ p1 ++ (c.1, (c.2.1, c.2.2 ++ [x])) :: p2 ∧
                    c0.2.2 ⊆ c'.2.2) as Hmono.
    { intros c0 Hc0. rewrite Hp in Hc0.
      apply elem_of_app in Hc0 as [Hc0|[->|Hc0]%elem_of_cons].
      - exists c0. split; [|done]. apply elem_of_app. by left.
      - exists (c.1, (c.2.1, c.2.2 ++ [x])). split.
        + apply elem_of_app. right. left.
        + simpl. intros z Hz. apply elem_of_app. by left.
      - exists c0. split; [|done]. apply elem_of_app. right. by right. }
    assert (∀ z, z ∈ members p → Eq x z = true → z ∈ c.2.2) as Hinto.
    { intros z Hz Hxz.
      assert (Eq y z = true) as Hyz.
      { apply (Htrans y x z); auto. }
      assert (y ∈ members p) as Hym.
      { apply elem_of_members. by exists c. }
      destruct (Hjoin y z Hym Hz Hyz) as (c0 & Hc0 & Hyc0 & Hzc0).
      by rewrite (class_unique p c c0 y). }
    assert (SameClass (p1 ++ (c.1, (c.2.1, c.2.2 ++ [x])) :: p2) x x ∧
            ∀ z, z ∈ c.2.2 →
              SameClass (p1 ++ (c.1, (c.2.1, c.2.2 ++ [x])) :: p2) x z ∧
              SameClass (p1 ++ (c.1, (c.2.1, c.2.2 ++ [x])) :: p2) z x)
      as [Hxx Hxz].
    { assert ((c.1, (c.2.1, c.2.2 ++ [x]))
              ∈ p1 ++ (c.1, (c.2.1, c.2.2 ++ [x])) :: p2) as Hin.
      { apply elem_of_app. right. left. }
      assert (x ∈ c.2.2 ++ [x]) as Hxin.
      { apply elem_of_app. right. left. }
      split.
      - by exists (c.1, (c.2.1, c.2.2 ++ [x])).
      - intros z Hz. split; exists (c.1, (c.2.1, c.2.2 ++ [x]));
          (split_and!; [done|simpl..]); try done;
          apply elem_of_app; by left. }
    destruct Ha as [Ha| ->], Hb as [Hb| ->].
    + eapply SameClass_mono; [done|]. by apply Hjoin.
    + apply Hxz, Hinto; [done|]. apply Hsym; auto.
    + apply Hxz, Hinto; done.
    + done.
  - assert (∀ z, z ∈ members p → Eq x z = true → False) as Hno.
    { intros z (c0 & Hc0 & Hz)%elem_of_members Hxz.
      specialize (Hnone c0 Hc0).
      assert (existsb (Eq x) c0.2.2 = true); [|congruence].
      apply existsb_exists. exists z. split; [by apply list_elem_of_In|done]. }
    destruct Ha as [Ha| ->], Hb as [Hb| ->].
    + eapply SameClass_mono; [|by apply Hjoin].
      intros c0 Hc0. exists c0. split; [|done]. apply elem_of_app. by left.
    + destruct (Hno a Ha). apply Hsym; auto.
    + destruct (Hno b Hb). done.
    + exists (x, (i, [x])). split_and!; simpl; [|left..].
      apply elem_of_app. right. left.
Qed.

Lemma foldl_Append_JoinsBy D Eq ms p :
  EquivOn D Eq → (∀ y, y ∈ ms → D y) → (∀ y, y ∈ members p → D y) →
  NoDup (members p ++ ms) →
  JoinsBy Eq p → JoinsBy Eq (foldl (λ p x, Append Eq x p) p ms).
Proof.
  intros Heq. revert p.
  induction ms as [|x ms IH]; intros p Hms HD Hnd Hjoin; simpl; [done|].
  assert (NoDup (members p)) as Hndp.
  { by apply NoDup_app in Hnd as (? & _). }
  apply IH.
  - intros y Hy. apply Hms. by right.
  - intros y Hy. unfold Append in Hy. rewrite Append_from_members in Hy.
    apply elem_of_app in Hy as [Hy| ->%list_elem_of_singleton]; [by apply HD|].
    apply Hms. left.
  - unfold Append. rewrite Append_from_members, <-app_assoc. done.
  - eapply Append_from_JoinsBy; [done| |done..]. apply Hms. left.
Qed.

Lemma regroup_JoinsBy D Eq ms :
  EquivOn D Eq → (∀ y, y ∈ ms → D y) → NoDup ms →
  JoinsBy Eq (regroup Eq ms).
Proof.
  intros Heq Hms Hnd. eapply foldl_Append_JoinsBy; try done.
  - by intros y ?%elem_of_nil.
  - by intros a b ?%elem_of_nil.
Qed.

Lemma class_NoDup p c : NoDup (members p) → c ∈ p → NoDup c.2.2.
Proof.
  induction p as [|c0 p IH]; intros Hnd Hc; [by apply elem_of_nil in Hc|].
  rewrite members_cons in Hnd. apply NoDup_app in Hnd as (Hc0 & _ & Hp).
  apply elem_of_cons in Hc as [->|Hc]; [done|by apply IH].
Qed.

Lemma elem_of_reindex_2 q c :
  c ∈ q → ∃ c', c' ∈ reindex q ∧ c'.1 = c.1 ∧ c'.2.2 = c.2.2.
Proof.
  intros [k Hk]%list_elem_of_lookup_1.
  exists (c.1, (k, c.2.2)). split; [|done].
  apply list_elem_of_lookup. exists k. by rewrite reindex_lookup, Hk.
Qed.

(** [Split] keeps together what the new predicate relates. *)
Lemma Split_join D Eq p a b :
  EquivOn D Eq → (∀ y, y ∈ members p → D y) → NoDup (members p) →
  SameClass p a b → Eq a b = true → SameClass (Split Eq p) a b.
Proof.
  intros Heq HD Hnd (c & Hc & Ha & Hb) Hab.
  destruct (regroup_JoinsBy D Eq c.2.2 Heq) with (a := a) (b := b)
    as (c1 & Hc1 & Ha1 & Hb1).
  - intros y Hy. apply HD, elem_of_members. by exists c.
  - by eapply class_NoDup.
  - by rewrite regroup_members.
  - by rewrite regroup_members.
  - done.
  - destruct (elem_of_reindex_2 (p ≫= λ c, regroup Eq c.2.2) c1)
      as (c2 & Hc2 & _ & Hms).
    { apply list_elem_of_bind. by exists c. }
    exists c2. by rewrite Hms.
Qed.

End PartitionJoinFacts.

Section MinimizeCoarsest.
Variable MaxChar : nat.
Variable task : MinimizeTask.t.
Import MinimizeTask.

Lemma initial_partition_JoinsBy :
  SameClassesEquiv task →
  JoinsBy (SameClasses task) (initial_partition MaxChar task).
Proof.
  intros (Hrefl & Hsym & Htrans).
  set (Eq := MinimizeEquality MaxChar (detTran MaxChar task)
               (distinctLetters task) None (Some task)).
  assert (JoinsBy Eq (initial_partition MaxChar task)) as Hjoin.
  { unfold initial_partition.
    apply (foldl_Append_JoinsBy (λ a, a < Size task)).
    - unfold Eq. split_and!.
      + intros a Ha. rewrite MinimizeEquality_task. by apply Hrefl.
      + intros a b Ha Hb. rewrite !MinimizeEquality_task. by apply Hsym.
      + intros a b c Ha Hb Hc. rewrite !MinimizeEquality_task.
        by apply Htrans.
    - intros y Hy%elem_of_seq. lia.
    - by intros y ?%elem_of_nil.
    - apply NoDup_seq.
    - by intros a b ?%elem_of_nil. }
  intros a b Ha Hb Hab. apply Hjoin; [done..|].
  unfold Eq. by rewrite MinimizeEquality_task.
Qed.

(** A relation that is compatible with the transitions and is contained in
    the classes at the start of the loop is contained in the classes at its
    end. *)
Lemma Minimize_loop_coarsest (R : nat → nat → Prop)
    fuel clMap last rounds P n :
  AlphabetOK MaxChar task → NextClosed task →
  (∀ a b e, a < Size task → b < Size task → R a b → e ∈ Letters task →
     R (Next task a e.1) (Next task b e.1)) →
  PartInv task last → length clMap = Size task →
  (∀ a b, a < Size task → b < Size task → R a b → SameClass last a b) →
  Minimize_loop MaxChar task fuel clMap last rounds = Done (P, n) →
  ∀ a b, a < Size task → b < Size task → R a b → SameClass P a b.
Proof.
  intros Hok Hclosed Hstep. revert clMap last rounds.
  induction fuel as [|fuel IH]; intros clMap last rounds Hinv Hlen Hin Hrun;
    [done|].
  simpl in Hrun.
  destruct (UpdateStateClassMap clMap last) as [[ch m]|] eqn:Hupd; [|done].
  apply UpdateStateClassMap_spec in Hupd as (Hne & Hm & Hch).
  rewrite Hlen in Hm. fold (class_map task last) in Hm. subst m.
  destruct ch; [|by simplify_eq].
  eapply IH; [by apply Split_Inv|apply class_map_length| |done].
  intros a b Ha Hb HR.
  pose proof (PartInv_NoDup task last Hinv) as Hnd.
  apply (Split_join (λ _, True)); try done.
  - apply MinimizeEquality_prev_equiv.
  - by apply Hin.
  - apply MinimizeEquality_prev. split.
    + rewrite !class_map_lookup by done.
      apply SameClass_Representative; [done|]. by apply Hin.
    + intros letter (e & -> & He)%list_elem_of_fmap.
      assert (e.1 ∈ e.2.2) as Hrep by by apply Hok.
      rewrite !(detTran_hit MaxChar task _ e e.1) by done.
      pose proof (Hclosed a e Ha He) as Hna.
      pose proof (Hclosed b e Hb He) as Hnb.
      rewrite !class_map_lookup by done.
      apply SameClass_Representative; [done|].
      apply Hin; [done..|]. by apply Hstep.
Qed.

(** States in one class of the result cannot be told apart. *)
Lemma LoopInv_Indistinguishable P :
  AlphabetOK MaxChar task → NextClosed task →
  LoopInv MaxChar task (class_map task P) P →
  ∀ a b, SameClass P a b → Indistinguishable task a b.
Proof.
  intros Hok Hclosed Hinv a b Hab w Hw. revert a b Hab.
  induction Hw as [|letter w Hletter _ IH]; intros a b Hab; simpl.
  - destruct Hinv as (_ & _ & Hsame & _).
    destruct Hab as (c & Hc & Ha & Hb). by apply (Hsame c).
  - apply list_elem_of_fmap in Hletter as (e & -> & He).
    apply IH. by apply (LoopInv_fixpoint MaxChar task).
Qed.

End MinimizeCoarsest.


(** X15: two states lie in one class of the partition a successful
    [Minimize] returns exactly when they cannot be told apart: along every
    word of representative symbols they reach states that [SameClasses]
    identifies. *)
Theorem X15_classes_are_indistinguishability (MaxChar : nat)
    (task : MinimizeTask.t) (fuel : nat) (tr : list MinimizeEvent) :
  SameClassesEquiv task → AlphabetOK MaxChar task → NextClosed task →
  Minimize MaxChar task fuel = Done (Success, tr) →
  ∃ P, tr = [AcceptPartition P] ∧
    ∀ a b, a < MinimizeTask.Size task → b < MinimizeTask.Size task →
      (SameClass P a b ↔ Indistinguishable task a b).
Proof.
  intros Heq Hok Hclosed. unfold Minimize.
  destruct (MinimizeTask.IsDetermined task); simpl; [|done].
  destruct (Minimize_loop MaxChar task fuel _ _ 0) as [[P n]| |] eqn:Hrun;
    [|done..].
  intros [= <-]. exists P. split; [done|].
  intros a b Ha Hb. split.
  - apply (LoopInv_Indistinguishable MaxChar task); [done..|].
    apply (Minimize_loop_inv MaxChar task _ _ _ _ _ _
             (LoopInv_initial MaxChar task Heq) Hrun).
  - revert a b Ha Hb.
    pose proof (initial_partition_Inv MaxChar task) as Hinv.
    eapply (Minimize_loop_coarsest MaxChar task (Indistinguishable task));
      [exact Hok|exact Hclosed| |exact Hinv|apply length_replicate| |exact Hrun].
    + intros a b e _ _ Hab He w Hw.
      apply (Hab (e.1 :: w)). constructor; [|done].
      by apply (list_elem_of_fmap_2 fst).
    + intros a b Ha Hb Hab.
      apply (initial_partition_JoinsBy MaxChar task Heq).
      * by apply (PartInv_members task).
      * by apply (PartInv_members task).
      * apply (Hab []). constructor.
Qed.


Lemma X15_classes_are_indistinguishability_witness :
  ∃ P, [AcceptPartition [(0, (0, [0; 1])); (2, (1, [2; 3]))]]
       = [AcceptPartition P] ∧
    ∀ a b, a < MinimizeTask.Size MinScenarios.ends_in_a →
      b < MinimizeTask.Size MinScenarios.ends_in_a →
      (SameClass P a b ↔ Indistinguishable MinScenarios.ends_in_a a b).
Proof.
  apply (X15_classes_are_indistinguishability 2 MinScenarios.ends_in_a 5).
  - apply ends_in_a_SameClassesEquiv.
  - apply ends_in_a_AlphabetOK.
  - apply ends_in_a_NextClosed.
  - vm_compute. reflexivity.
Defined.

Section MinimizeRounds.
Variable MaxChar : nat.
Variable task : MinimizeTask.t.
Import MinimizeTask.

Lemma initial_partition_single :
  length (initial_partition MaxChar task) = 1 →
  initial_partition MaxChar task = [(0, (0, seq 0 (Size task)))].
Proof.
  unfold initial_partition. intros Hlen.
  destruct (Size task) as [|n]; [done|].
  change (seq 0 (S n)) with (0 :: seq 1 n) in Hlen |- *.
  simpl in Hlen |- *.
  unfold Append at 2 in Hlen. unfold Append at 2. simpl in Hlen |- *.
  by rewrite foldl_Append_single.
Qed.

Lemma class_map_one :
  class_map task [(0, (0, seq 0 (Size task)))] = replicate (Size task) 0.
Proof.
  apply list_eq. intros i. unfold class_map. rewrite list_lookup_fmap.
  destruct (decide (i < Size task)) as [Hi|Hi].
  - rewrite lookup_replicate_2, lookup_seq_lt by done. simpl.
    by rewrite Representative_one.
  - rewrite lookup_seq_ge by lia. symmetry.
    apply lookup_ge_None. rewrite length_replicate. lia.
Qed.

(** Every round but the last adds a class. *)
Lemma Minimize_loop_rounds fuel clMap last rounds P n :
  PartInv task last → length clMap = Size task →
  Minimize_loop MaxChar task fuel clMap last rounds = Done (P, n) →
  length last ≤ length P ∧
  n + length last
  ≤ rounds + length P
    + (if decide (clMap = class_map task last) then 0 else 1).
Proof.
  revert clMap last rounds.
  induction fuel as [|fuel IH]; intros clMap last rounds Hinv Hlen Hrun;
    [done|].
  simpl in Hrun.
  destruct (UpdateStateClassMap clMap last) as [[ch m]|] eqn:Hupd; [|done].
  apply UpdateStateClassMap_spec in Hupd as (Hne & Hm & Hch).
  rewrite Hlen in Hm. fold (class_map task last) in Hm. subst m.
  destruct ch; [|simplify_eq; split; lia].
  destruct (decide (clMap = class_map task last)) as [Heq|_].
  { by apply Hch in Heq. }
  set (Eq := MinimizeEquality MaxChar (detTran MaxChar task)
               (distinctLetters task) (Some (class_map task last)) None)
    in Hrun.
  destruct (Split_round task Eq last Hinv) as (Hinv' & _ & Hcase).
  destruct (IH _ _ _ Hinv' (class_map_length task last) Hrun) as [Hle Hn].
  destruct Hcase as [Hsame|Hlt].
  - rewrite Hsame in Hle, Hn. rewrite decide_True in Hn by done.
    split; lia.
  - destruct (decide _); split; lia.
Qed.

End MinimizeRounds.

(** X16: the refinement loop of [Minimize] runs fewer rounds than the
    partition it ends with has classes: every round but the last adds a
    class to an initial partition that has at least one. *)
Theorem X16_rounds_below_classes (MaxChar : nat) (task : MinimizeTask.t)
    (fuel : nat) (P : Partition nat) (n : nat) :
  Minimize_loop MaxChar task fuel (replicate (MinimizeTask.Size task) 0)
                (initial_partition MaxChar task) 0 = Done (P, n) →
  n < length P ∧
  length (initial_partition MaxChar task) ≤ length P ∧
  length P ≤ MinimizeTask.Size task.
Proof.
  intros Hrun.
  pose proof (initial_partition_Inv MaxChar task) as Hinv.
  destruct (Minimize_loop_stable MaxChar task _ _ _ _ _ _ Hinv
              (length_replicate _ _) (or_introl eq_refl) Hrun)
    as (Hsize & HinvP & _).
  destruct (Minimize_loop_rounds MaxChar task _ _ _ _ _ _ Hinv
              (length_replicate _ _) Hrun) as [Hle Hn].
  pose proof (PartInv_nonempty task _ Hinv Hsize) as Hne.
  pose proof (PartInv_length task _ HinvP) as Hbound.
  split_and!; [|done..]. simpl in Hn.
  destruct (decide (length (initial_partition MaxChar task) = 1)) as [H1|H1].
  - rewrite decide_True in Hn; [lia|].
    by rewrite (initial_partition_single MaxChar task H1), class_map_one.
  - destruct (decide _); lia.
Qed.

Lemma X16_rounds_below_classes_witness :
  3 < length [(0, (0, [0])); (1, (1, [1])); (2, (2, [2])); (3, (3, [3]))] ∧
  length (initial_partition 1 MinScenarios.countdown)
  ≤ length [(0, (0, [0])); (1, (1, [1])); (2, (2, [2])); (3, (3, [3]))] ∧
  length [(0, (0, [0])); (1, (1, [1])); (2, (2, [2])); (3, (3, [3]))]
  ≤ MinimizeTask.Size MinScenarios.countdown.
Proof.
  apply (X16_rounds_below_classes 1 MinScenarios.countdown 5).
  vm_compute. reflexivity.
Defined.

(** * [Determine] reads the alphabet through its representatives only *)

Section DetermineExt.
Context {State : Type} `{Countable State}.
Variables task task' : DetermineTask.t State.
Import DetermineTask.

Hypothesis Hinitial : Initial task = Initial task'.
Hypothesis Hrequired : ∀ s, IsRequired task s = IsRequired task' s.
Hypothesis Hletters :
  (λ e : Char * (nat * list Char), (e.1, e.2.1)) <$> Letters task
  = (λ e : Char * (nat * list Char), (e.1, e.2.1)) <$> Letters task'.
Hypothesis Hnext :
  ∀ s e, e ∈ Letters task → Next task s e.1 = Next task' s e.1.

Lemma Letters_length_ext : length (Letters task) = length (Letters task').
Proof.
  apply (f_equal length) in Hletters. by rewrite !length_fmap in Hletters.
Qed.

Lemma Determine_row_ext cur (ls ls' : LettersTbl) w row :
  (λ e : Char * (nat * list Char), (e.1, e.2.1)) <$> ls
  = (λ e : Char * (nat * list Char), (e.1, e.2.1)) <$> ls' →
  (∀ e, e ∈ ls → Next task cur e.1 = Next task' cur e.1) →
  Determine_row task cur ls w row = Determine_row task' cur ls' w row.
Proof.
  revert ls' w row.
  induction ls as [|[letter [cidx ms]] ls IH];
    intros [|[letter' [cidx' ms']] ls'] w row Hproj Hagree; try done.
  simpl in Hproj. injection Hproj as -> -> Hproj. simpl.
  assert (Next task cur letter' = Next task' cur letter') as <-.
  { apply (Hagree (letter', (cidx', ms))). left. }
  assert (∀ e, e ∈ ls → Next task cur e.1 = Next task' cur e.1) as Hrest.
  { intros e He. apply Hagree. by right. }
  destruct (invstates w !! Next task cur letter'); [by apply IH|].
  destruct (maxSize w); [done|]. by apply IH.
Qed.

Lemma Determine_bfs_ext fuel idx w :
  Determine_bfs task fuel idx w = Determine_bfs task' fuel idx w.
Proof.
  revert idx w. induction fuel as [|fuel IH]; intros idx w; [done|].
  simpl. destruct (states w !! idx) as [cur|]; [|done].
  rewrite <-Hrequired. destruct (IsRequired task cur); simpl; [|apply IH].
  rewrite <-Letters_length_ext.
  rewrite (Determine_row_ext cur (Letters task) (Letters task'));
    [|done|by intros e He; apply Hnext].
  destruct (Determine_row task' cur _ w _) as [[w' row]|]; [apply IH|done].
Qed.

Lemma invletters_ext : invletters task = invletters task'.
Proof.
  unfold invletters. rewrite <-Letters_length_ext.
  generalize (replicate (length (Letters task)) 0).
  revert Hletters. generalize (Letters task) (Letters task').
  induction l as [|[letter [cidx ms]] ls IH];
    intros [|[letter' [cidx' ms']] ls'] Hproj inv; try done.
  simpl in Hproj. injection Hproj as -> -> Hproj. simpl. by apply IH.
Qed.

End DetermineExt.

(** X17: [Determine] reads the alphabet partition through the
    representative and the class index of each class only, and [Next] at
    representative symbols only: two tasks with the same initial state and
    the same [IsRequired], whose classes agree in representative and index
    and whose [Next] agree on the representatives, yield the same result
    and the same sink calls, whatever the member sets are and whatever
    [Next] does on other symbols. *)
Theorem X17_only_representatives {State} `{Countable State}
    (task task' : DetermineTask.t State) (budget : nat) :
  DetermineTask.Initial task = DetermineTask.Initial task' →
  (∀ s, DetermineTask.IsRequired task s = DetermineTask.IsRequired task' s) →
  (λ e : Char * (nat * list Char), (e.1, e.2.1))
    <$> DetermineTask.Letters task
  = (λ e : Char * (nat * list Char), (e.1, e.2.1))
    <$> DetermineTask.Letters task' →
  (∀ s e, e ∈ DetermineTask.Letters task →
     DetermineTask.Next task s e.1 = DetermineTask.Next task' s e.1) →
  Determine task budget = Determine task' budget.
Proof.
  intros Hinitial Hrequired Hletters Hnext.
  unfold Determine, Determine_init.
  rewrite (Determine_bfs_ext task task' Hrequired Hletters Hnext), Hinitial.
  destruct (Determine_bfs task' _ 0 _) as [w| |]; [|done..].
  unfold Determine_emit, Connect_row.
  by rewrite (invletters_ext task task' Hletters).
Qed.

Lemma X17_only_representatives_witness :
  Determine Scenarios.subsets 10 = Determine DetScenarios.subsets_wide 10.
Proof.
  apply (X17_only_representatives Scenarios.subsets
           DetScenarios.subsets_wide 10).
  - reflexivity.
  - intros s. reflexivity.
  - reflexivity.
  - intros s e He. simpl in He.
    repeat (apply elem_of_cons in He as [->|He]); [reflexivity..|].
    by apply elem_of_nil in He.
Defined.

(** * [Determine] numbers the states breadth first *)

Section DetermineBreadthFirst.
Context {State : Type} `{Countable State}.
Variable task : DetermineTask.t State.
Variable budget0 : nat.
Import DetermineTask.

Lemma within_mono n m s : within task n s → n ≤ m → within task m s.
Proof.
  intros Hw. revert m. induction Hw as [n|n s letter cls _ IH Hreq Hin];
    intros m Hle.
  - constructor.
  - destruct m as [|m]; [lia|]. econstructor; [|done..]. apply IH. lia.
Qed.

Lemma Depths_init : Depths task 0 [Initial task] [0].
Proof.
  split_and!.
  - done.
  - intros [|j] s d Hs Hd; simplify_eq/=. split; [constructor|intros; lia].
  - intros [|i] [|j] di dj Hij Hi Hj; by simplify_eq/=.
  - intros d [= <-]. split.
    + intros s m Hw Hm. assert (m = 0) as -> by lia.
      inversion Hw; subst. left.
    + intros [|j] dj Hj; simplify_eq/=. lia.
Qed.

(** A state that is not listed yet, met from the state at [idx], lies one
    step further than that state. *)
Lemma Depths_push idx sts ds cur letter cls d :
  Depths task idx sts ds →
  sts !! idx = Some cur → ds !! idx = Some d →
  IsRequired task cur = true → (letter, cls) ∈ Letters task →
  Next task cur letter ∉ sts →
  Depths task idx (sts ++ [Next task cur letter]) (ds ++ [S d]).
Proof.
  intros (Hlen & Hmin & Hsorted & Hidx) Hcur Hd Hreq Hin Hfresh.
  destruct (Hidx d Hd) as [Hall Hnear].
  destruct (Hmin idx cur d Hcur Hd) as [Hwcur _].
  split_and!.
  - rewrite !length_app, Hlen. done.
  - intros j s dj Hs Hdj.
    apply lookup_snoc_Some in Hs as [[Hj Hs]|[Hj <-]].
    + rewrite lookup_app_l in Hdj by lia. by apply (Hmin j).
    + rewrite lookup_app_r in Hdj by lia.
      rewrite Hlen, Hj, Nat.sub_diag in Hdj. simpl in Hdj. simplify_eq.
      split; [by econstructor|].
      intros n Hn. destruct (decide (n ≤ d)) as [Hle|Hgt]; [|lia].
      destruct Hfresh. by apply (Hall _ n).
  - intros i j di dj Hij Hi Hj.
    apply lookup_snoc_Some in Hi as [[Hilt Hi]|[Hieq <-]],
          Hj as [[Hjlt Hj]|[Hjeq <-]].
    + by apply (Hsorted i j).
    + by apply (Hnear i).
    + lia.
    + done.
  - intros d' Hd'. rewrite lookup_app_l in Hd' by by eapply lookup_lt_Some.
    assert (d' = d) as -> by congruence. split.
    + intros s m Hw Hm. apply elem_of_app. left. by apply (Hall s m).
    + intros j dj Hj.
      apply lookup_snoc_Some in Hj as [[_ Hj]|[_ <-]]; [by apply (Hnear j)|done].
Qed.

(** Once the successors of the state at [idx] are listed, the invariant
    holds for the next index. *)
Lemma Depths_next idx sts ds :
  Depths task idx sts ds →
  sts !! 0 = Some (Initial task) →
  (∀ i s e, i ≤ idx → sts !! i = Some s → IsRequired task s = true →
     e ∈ Letters task → Next task s e.1 ∈ sts) →
  Depths task (S idx) sts ds.
Proof.
  intros (Hlen & Hmin & Hsorted & Hidx) H0 Hclosed.
  split_and!; try done.
  intros d' Hd'.
  destruct (lookup_lt_is_Some_2 ds idx) as [d Hd].
  { apply lookup_lt_Some in Hd'. lia. }
  destruct (Hidx d Hd) as [Hall Hnear].
  pose proof (Hsorted idx (S idx) d d' (Nat.le_succ_diag_r _) Hd Hd') as Hle.
  pose proof (Hnear (S idx) d' Hd') as Hge.
  split.
  - intros s m Hw Hm.
    destruct (decide (m ≤ d)) as [Hmd|Hmd]; [by apply (Hall s m)|].
    assert (m = S d) as -> by lia.
    inversion Hw as [|n s' letter cls Hw' Hreq Hin]; subst.
    { by eapply list_elem_of_lookup_2. }
    assert (s' ∈ sts) as [i Hi]%list_elem_of_lookup_1 by by apply (Hall s' d).
    destruct (lookup_lt_is_Some_2 ds i) as [di Hdi].
    { rewrite Hlen. by eapply lookup_lt_Some. }
    destruct (Hmin i s' di Hi Hdi) as [_ Hleast].
    specialize (Hleast d Hw').
    destruct (decide (i ≤ idx)) as [Hiidx|Hiidx].
    + by apply (Hclosed i s' (letter, cls)).
    + pose proof (Hsorted (S idx) i d' di ltac:(lia) Hd' Hdi). lia.
  - intros j dj Hj. specialize (Hnear j dj Hj). lia.
Qed.

(** The outer and the inner invariant, with the distances. *)
Lemma Depths_row idx cur w w' row :
  Outer task budget0 idx w → states w !! idx = Some cur →
  IsRequired task cur = true →
  (∃ ds, Depths task idx (states w) ds) →
  Determine_row task cur (Letters task) w
    (replicate (length (Letters task)) 0) = Some (w', row) →
  ∃ ds, Depths task idx (states w') ds.
Proof.
  intros Hout Hcur Hreq Hds Hrun.
  apply (Determine_row_rule task
           (λ rest w1 row1,
              Inner task budget0 idx cur w rest w1 row1 ∧
              ∃ ds, Depths task idx (states w1) ds) cur)
    with (letters := Letters task) (w := w)
         (row := replicate (length (Letters task)) 0) (row' := row) (w' := w');
    [..|done].
  - intros letter cidx ms rest w1 row1 i [Hin Hd] Hfind.
    split; [by eapply Inner_hit|done].
  - intros letter cidx ms rest w1 row1 budget [Hin [ds Hd]] Hnone Hbudget.
    split; [by eapply Inner_miss|].
    pose proof (inner_cur _ _ _ _ _ _ _ _ Hin) as Hcur1.
    destruct (lookup_lt_is_Some_2 ds idx) as [d Hdidx].
    { destruct Hd as (-> & _). by eapply lookup_lt_Some. }
    exists (ds ++ [S d]). simpl.
    apply (Depths_push idx _ _ cur letter (cidx, ms)); try done.
    + destruct (inner_split _ _ _ _ _ _ _ _ Hin) as (seen & -> & _).
      apply elem_of_app. right. left.
    + eapply Core_fresh; [|done]. apply Hin.
  - split; [|done]. apply Inner_start; [apply Hout|done].
Qed.

Lemma Determine_bfs_Depths fuel :
  match Determine_bfs task fuel 0 (Determine_init task budget0) with
  | Done w => Outer task budget0 (length (states w)) w ∧
              ∃ ds, Depths task (length (states w)) (states w) ds
  | _ => True
  end.
Proof.
  set (I := λ idx w, Outer task budget0 idx w ∧
                     ∃ ds, Depths task idx (states w) ds).
  assert (∀ idx w cur, I idx w → states w !! idx = Some cur →
            IsRequired task cur = false → I (S idx) w) as Hskip.
  { intros idx w cur [Hout [ds Hds]] Hcur Hreq.
    split; [by eapply Outer_skip|]. exists ds.
    apply Depths_next; [done|apply Hout|].
    intros i s e Hi Hs Hr He.
    destruct (decide (i = idx)) as [->|Hne]; [congruence|].
    apply (outer_closed _ _ _ _ Hout i s e); [lia|done..]. }
  assert (∀ idx w cur w' row, I idx w → states w !! idx = Some cur →
            IsRequired task cur = true →
            Determine_row task cur (Letters task) w
              (replicate (length (Letters task)) 0) = Some (w', row) →
            I (S idx) (push_row row idx w')) as Hrow.
  { intros idx w cur w' row [Hout Hds] Hcur Hreq Hrun.
    pose proof (Outer_row task budget0 idx w cur w' row Hout Hcur Hreq Hrun)
      as Hout'.
    split; [done|].
    destruct (Depths_row idx cur w w' row Hout Hcur Hreq Hds Hrun)
      as [ds Hds'].
    exists ds. simpl. apply Depths_next; [done|apply Hout'|].
    intros i s e Hi Hs Hr He.
    apply (outer_closed _ _ _ _ Hout' i s e); [lia|done..]. }
  assert (I 0 (Determine_init task budget0)) as Hinit.
  { split; [apply Outer_init|]. exists [0]. apply Depths_init. }
  pose proof (Determine_bfs_rule task I Hskip Hrow fuel 0 _ Hinit) as Hrule.
  destruct (Determine_bfs task fuel 0 _) as [w| |]; [|done..].
  destruct Hrule as (idx' & [Hout Hds] & Hnone).
  apply lookup_ge_None in Hnone. pose proof (outer_idx _ _ _ _ Hout).
  by replace (length (states w)) with idx' by lia.
Qed.

End DetermineBreadthFirst.

(** X18: the traversal is breadth first: in the vector a successful drive
    hands to [AcceptStates] the states appear in the order of their distance
    from the initial state, so a state with a smaller index is met within
    as few steps as any state with a larger index. *)
Theorem X18_breadth_first_order {State} `{Countable State}
    (task : DetermineTask.t State) (budget : nat) tr :
  Determine task budget = Some (Success, tr) →
  ∃ sts conn, tr = AcceptStates sts :: conn ∧
    ∀ i j si sj n, i ≤ j → sts !! i = Some si → sts !! j = Some sj →
      within task n sj → within task n si.
Proof.
  unfold Determine. intros Hrun.
  pose proof (Determine_bfs_Depths task budget (budget + 2)) as Hinv.
  destruct (Determine_bfs task (budget + 2) 0 _) as [w| |]; simplify_eq.
  destruct Hinv as (Hout & ds & Hlen & Hmin & Hsorted & _).
  exists (states w). eexists. split; [done|].
  intros i j si sj n Hij Hi Hj Hw.
  destruct (lookup_lt_is_Some_2 ds i) as [di Hdi].
  { rewrite Hlen. by eapply lookup_lt_Some. }
  destruct (lookup_lt_is_Some_2 ds j) as [dj Hdj].
  { rewrite Hlen. by eapply lookup_lt_Some. }
  destruct (Hmin i si di Hi Hdi) as [Hwi _].
  destruct (Hmin j sj dj Hj Hdj) as [_ Hleast].
  apply (within_mono task di); [done|].
  pose proof (Hsorted i j di dj Hij Hdi Hdj). specialize (Hleast n Hw). lia.
Qed.

Lemma X18_breadth_first_order_witness :
  ∃ sts conn,
    [AcceptStates [0; 1; 2]; Connect 0 1 0; Connect 1 2 0; Connect 2 2 0]
    = AcceptStates sts :: conn ∧
    ∀ i j si sj n, i ≤ j → sts !! i = Some si → sts !! j = Some sj →
      within Scenarios.chain n sj → within Scenarios.chain n si.
Proof.
  apply (X18_breadth_first_order Scenarios.chain 2). vm_compute. reflexivity.
Defined.

(** * What [Minimize] reads of its task *)

Section MinimizeExt.
Variable MaxChar : nat.
Variables task task' : MinimizeTask.t.
Import MinimizeTask.

Hypothesis Hsize : Size task = Size task'.
Hypothesis Hletters :
  (λ e : Char * (nat * list Char), (e.1, e.2.2)) <$> Letters task
  = (λ e : Char * (nat * list Char), (e.1, e.2.2)) <$> Letters task'.
Hypothesis Hnext :
  ∀ from e, from < Size task → e ∈ Letters task →
    Next task from e.1 = Next task' from e.1.
Hypothesis Hsame :
  ∀ a b, a < Size task → b < Size task →
    SameClasses task a b = SameClasses task' a b.

Lemma foldl_ext_elem {A B} (f g : A → B → A) (l : list B) (a : A) :
  (∀ a x, x ∈ l → f a x = g a x) → foldl f a l = foldl g a l.
Proof.
  revert a. induction l as [|x l IH]; intros a Hfg; simpl; [done|].
  rewrite Hfg by left. apply IH. intros a' y Hy. apply Hfg. by right.
Qed.

Lemma existsb_ext_elem {A} (f g : A → bool) (l : list A) :
  (∀ x, x ∈ l → f x = g x) → existsb f l = existsb g l.
Proof.
  induction l as [|x l IH]; intros Hfg; simpl; [done|].
  rewrite Hfg by left. f_equal. apply IH. intros y Hy. apply Hfg. by right.
Qed.

Lemma detTran_ext : detTran MaxChar task = detTran MaxChar task'.
Proof.
  unfold detTran. rewrite <-Hsize.
  generalize (replicate (Size task * MaxChar) 0).
  assert (∀ e, e ∈ Letters task → e ∈ Letters task) as Hsub by done.
  revert Hsub Hletters.
  generalize (Letters task) at 1 3 4. generalize (Letters task').
  intros ls' ls. revert ls'.
  induction ls as [|[letter [cidx ms]] ls IH];
    intros [|[letter' [cidx' ms']] ls'] Hsub Hproj tbl; try done.
  simpl in Hproj. injection Hproj as -> -> Hproj. simpl.
  assert (fill_class MaxChar task (letter', (cidx, ms')) tbl
          = fill_class MaxChar task' (letter', (cidx', ms')) tbl) as ->.
  { unfold fill_class. rewrite <-Hsize. simpl.
    apply foldl_ext_elem. intros tbl' from Hfrom%elem_of_seq.
    f_equal. apply (Hnext from (letter', (cidx, ms'))); [lia|].
    apply Hsub. left. }
  apply IH; [|done]. intros e He. apply Hsub. by right.
Qed.

Lemma distinctLetters_ext : distinctLetters task = distinctLetters task'.
Proof.
  unfold distinctLetters.
  apply (f_equal (fmap fst)) in Hletters.
  by rewrite <-!list_fmap_compose in Hletters.
Qed.

Lemma Append_from_ext (Eq1 Eq2 : nat → nat → bool) idx x (p : Partition nat) :
  (∀ y, y ∈ members p → Eq1 x y = Eq2 x y) →
  Append_from idx Eq1 x p = Append_from idx Eq2 x p.
Proof.
  revert idx. induction p as [|c p IH]; intros idx Heq; simpl; [done|].
  rewrite members_cons in Heq.
  rewrite (existsb_ext_elem (Eq1 x) (Eq2 x)).
  - rewrite IH; [done|]. intros y Hy. apply Heq, elem_of_app. by right.
  - intros y Hy. apply Heq, elem_of_app. by left.
Qed.

Lemma initial_partition_ext :
  initial_partition MaxChar task = initial_partition MaxChar task'.
Proof.
  unfold initial_partition. rewrite <-Hsize.
  set (Eq1 := MinimizeEquality MaxChar _ _ None (Some task)).
  set (Eq2 := MinimizeEquality MaxChar _ _ None (Some task')).
  assert (∀ ms (p : Partition nat),
            (∀ x, x ∈ ms → x < Size task) →
            (∀ y, y ∈ members p → y < Size task) →
            foldl (λ p x, Append Eq1 x p) p ms
            = foldl (λ p x, Append Eq2 x p) p ms) as Hgen.
  { induction ms as [|x ms IH]; intros p Hms Hp; simpl; [done|].
    assert (Append Eq1 x p = Append Eq2 x p) as Hstep.
    { apply Append_from_ext. intros y Hy. unfold Eq1, Eq2.
      rewrite !MinimizeEquality_task. apply Hsame; [|by apply Hp].
      apply Hms. left. }
    rewrite Hstep. apply IH.
    - intros y Hy. apply Hms. by right.
    - intros y Hy. unfold Append in Hy. rewrite Append_from_members in Hy.
      apply elem_of_app in Hy as [Hy| ->%list_elem_of_singleton];
        [by apply Hp|]. apply Hms. left. }
  apply Hgen.
  - intros x Hx%elem_of_seq. lia.
  - by intros y ?%elem_of_nil.
Qed.

Lemma Minimize_loop_ext fuel clMap last rounds :
  Minimize_loop MaxChar task fuel clMap last rounds
  = Minimize_loop MaxChar task' fuel clMap last rounds.
Proof.
  revert clMap last rounds.
  induction fuel as [|fuel IH]; intros clMap last rounds; [done|].
  simpl. destruct (UpdateStateClassMap clMap last) as [[[] m]|]; try done.
  by rewrite IH, detTran_ext, distinctLetters_ext.
Qed.

End MinimizeExt.

(** X19: [Minimize] reads of its task only [IsDetermined], [Size], the
    representative and the member set of each alphabet class, [Next] at
    states below [Size] under representative symbols, and [SameClasses] at
    states below [Size]: two tasks that agree on these yield the same
    result and the same sink call, whatever the class indices are and
    whatever [Next] and [SameClasses] do elsewhere. *)
Theorem X19_Minimize_reads (MaxChar : nat) (task task' : MinimizeTask.t)
    (fuel : nat) :
  MinimizeTask.IsDetermined task = MinimizeTask.IsDetermined task' →
  MinimizeTask.Size task = MinimizeTask.Size task' →
  (λ e : Char * (nat * list Char), (e.1, e.2.2))
    <$> MinimizeTask.Letters task
  = (λ e : Char * (nat * list Char), (e.1, e.2.2))
    <$> MinimizeTask.Letters task' →
  (∀ from e, from < MinimizeTask.Size task →
     e ∈ MinimizeTask.Letters task →
     MinimizeTask.Next task from e.1 = MinimizeTask.Next task' from e.1) →
  (∀ a b, a < MinimizeTask.Size task → b < MinimizeTask.Size task →
     MinimizeTask.SameClasses task a b
     = MinimizeTask.SameClasses task' a b) →
  Minimize MaxChar task fuel = Minimize MaxChar task' fuel.
Proof.
  intros Hdet Hsize Hletters Hnext Hsame. unfold Minimize.
  rewrite <-Hdet. destruct (MinimizeTask.IsDetermined task); simpl; [|done].
  rewrite <-Hsize.
  rewrite (initial_partition_ext MaxChar task task' Hsize Hsame).
  by rewrite (Minimize_loop_ext MaxChar task task' Hsize Hletters Hnext).
Qed.

Lemma X19_Minimize_reads_witness :
  Minimize 2 MinScenarios.ends_in_a 5
  = Minimize 2 MoreScenarios.ends_in_a_variant 5.
Proof.
  apply (X19_Minimize_reads 2 MinScenarios.ends_in_a
           MoreScenarios.ends_in_a_variant 5).
  - reflexivity.
  - reflexivity.
  - reflexivity.
  - intros from e Hfrom He.
    unfold MoreScenarios.ends_in_a_variant. simpl in Hfrom, He.
    cbn [MinimizeTask.Next].
    repeat (apply elem_of_cons in He as [->|He]);
      [by rewrite decide_True by (simpl; lia)..|by apply elem_of_nil in He].
  - intros a b Ha Hb.
    unfold MoreScenarios.ends_in_a_variant. simpl in Ha, Hb.
    cbn [MinimizeTask.SameClasses].
    by rewrite decide_True by lia.
Defined.
